(** * KENYASHIP backend: a shallow embedding of the security core

    The first part follows the TypeScript sources of the backend, one module
    per source file:

    - [AccessControl]: privacy-access-control/access-control.ts;
    - [AuthMiddleware]: middleware/auth.middleware.ts;
    - [Emergency]: services/emergency-response/orchestrator.ts;
    - [Hashing], [Encryption]: crypto/hashing.ts, crypto/encryption.ts;
    - [Verifier]: services/delivery-verification/verifier.ts;
    - [Broadcaster]: services/realtime-broadcast/broadcaster.ts;
    - [Notifier]: the notification service (notifier.ts).

    Every service keeps its state in module-level [Map]s.  A [Map] that the
    code only addresses by key is a [gmap]; a [Map] that the code iterates
    (iteration is in insertion order) is a [JsMap.t], an association list with
    the semantics of [Map.prototype.set].  An object that is stored in a map
    and written to through another reference is written to in the map.
    Values drawn from the environment (the clock, [uuidv4()], random bytes)
    are explicit arguments of the operation that draws them; one call reads
    the clock once.  What the libraries compute (node's [crypto], [otplib],
    floating-point geometry) is a parameter: the classes [NodeCrypto],
    [Otplib] and [Numerics].  Logging has no effect on the state and is left
    out.

    The second part states and proves the properties, one module of facts
    per service. *)

From Stdlib Require Import ZArith QArith Lia Ascii.
From stdpp Require Import gmap strings list fin_maps pretty.

#[local] Close Scope Q_scope.

Abbreviation UUID := string (only parsing).

(** Instants, in milliseconds since the epoch ([Date.now()]). *)
Abbreviation Time := Z (only parsing).

(** JavaScript truthiness of a string: only the empty string is falsy. *)
Definition truthy (s : string) : bool := negb (String.eqb s "").

(** [Array.prototype.includes] on strings. *)
Definition includes (x : string) (l : list string) : bool :=
  existsb (String.eqb x) l.

(** ** Role and permission table (services/privacy-access-control/access-control.ts) *)

Module AccessControl.

Inductive UserRole :=
  | customer | driver | dispatcher | security_officer | admin | system.

#[export] Instance UserRole_eq_dec : EqDecision UserRole.
Proof. solve_decision. Defined.

Abbreviation Permission := string (only parsing).

(** The record literal [ROLE_PERMISSIONS]; a lookup in it is [Some] for
    each of the six roles. *)
Definition ROLE_PERMISSIONS (r : UserRole) : option (list Permission) :=
  match r with
  | customer =>
      Some ["read:own_delivery"; "write:own_delivery_consent"; "read:own_notification"]
  | driver =>
      Some ["read:assigned_delivery"; "write:delivery_status"; "read:emergency";
            "write:emergency"]
  | dispatcher =>
      Some ["read:all_delivery"; "write:delivery_assignment"; "read:emergency";
            "read:audit"]
  | security_officer =>
      Some ["read:security_alert"; "write:security_alert"; "read:emergency";
            "read:audit"; "read:location_history"]
  | admin => Some ["*"]
  | system => Some ["*"]
  end.

(** [ROLE_PERMISSIONS[role] || []] *)
Definition getUserPermissions (role : UserRole) : list Permission :=
  default [] (ROLE_PERMISSIONS role).

Definition hasPermission (userRole : UserRole) (permission : Permission) : bool :=
  let perms := getUserPermissions userRole in
  includes "*" perms || includes permission perms.

End AccessControl.

(** ** Express guards (middleware/auth.middleware.ts) *)

Module AuthMiddleware.
Import AccessControl.

Record JWTPayload := { userId : UUID; jwt_role : UserRole; exp : Z }.

Record User := { id : UUID; role : UserRole; permissions : list Permission }.

Record Request := {
  x_request_id : option string;   (* req.headers['x-request-id'] *)
  authorization : option string;  (* req.headers.authorization *)
  requestId : string;
  user : option User
}.

(** A middleware either calls [next()] with the (mutated) request or ends
    the exchange with [res.status(s).json({success:false, error:{code,message}})]. *)
Inductive Outcome :=
  | Next (req : Request)
  | Respond (status : Z) (code message : string).

Section WithJwt.
(** [jwt.verify(token, config.jwtSecret)]: [None] when it throws. *)
Variable jwt_verify : string → option JWTPayload.

Definition authMiddleware (fresh : UUID) (req : Request) : Outcome :=
  let req1 := {| x_request_id := x_request_id req;
                 authorization := authorization req;
                 requestId := default fresh (x_request_id req);
                 user := user req |} in
  match authorization req1 with
  | None => Next req1
  | Some authHeader =>
      if negb (truthy authHeader) || negb (String.prefix "Bearer " authHeader)
      then Next req1
      else
        let token := String.substring 7 (String.length authHeader - 7) authHeader in
        match jwt_verify token with
        | Some decoded =>
            Next {| x_request_id := x_request_id req1;
                    authorization := authorization req1;
                    requestId := requestId req1;
                    user := Some {| id := userId decoded;
                                    role := jwt_role decoded;
                                    permissions := getUserPermissions (jwt_role decoded) |} |}
        | None => Respond 401 "INVALID_TOKEN" "Invalid or expired token"
        end
  end.
End WithJwt.

Definition requireAuth (req : Request) : Outcome :=
  match user req with
  | None => Respond 401 "UNAUTHORIZED" "Authentication required"
  | Some _ => Next req
  end.

Definition requireRole (roles : list UserRole) (req : Request) : Outcome :=
  match user req with
  | Some u =>
      if bool_decide (role u ∈ roles) then Next req
      else Respond 403 "FORBIDDEN" "Insufficient permissions"
  | None => Respond 403 "FORBIDDEN" "Insufficient permissions"
  end.

Definition requirePermission (permission : Permission) (req : Request) : Outcome :=
  match user req with
  | Some u =>
      if includes permission (permissions u) then Next req
      else Respond 403 "FORBIDDEN" "Permission denied"
  | None => Respond 403 "FORBIDDEN" "Permission denied"
  end.

End AuthMiddleware.

(** ** JavaScript [Map] with string keys, in insertion order *)

Module JsMap.
Section Defs.
Context {V : Type}.

Definition t := list (string * V).

Definition empty : t := [].

Fixpoint get (k : string) (m : t) : option V :=
  match m with
  | [] => None
  | (k', v) :: m' => if String.eqb k k' then Some v else get k m'
  end.

(** [set] on a present key replaces the value where it stands; a new key
    goes to the end. *)
Fixpoint set (k : string) (v : V) (m : t) : t :=
  match m with
  | [] => [(k, v)]
  | (k', v') :: m' =>
      if String.eqb k k' then (k, v) :: m' else (k', v') :: set k v m'
  end.

Definition has (k : string) (m : t) : bool :=
  match get k m with Some _ => true | None => false end.

Definition delete (k : string) (m : t) : t :=
  List.filter (λ kv, negb (String.eqb k (fst kv))) m.

Definition keys (m : t) : list string := List.map fst m.

Definition values (m : t) : list V := List.map snd m.
End Defs.
Arguments t : clear implicits.
End JsMap.

(** ** Numbers and coordinates *)

(** A JavaScript [number]; the sources only store and compare them. *)
Abbreviation number := Q (only parsing).

Record RawCoordinates := { latitude : number; longitude : number }.

(** The two floating-point computations of the sources,
    [calculateDistance] of [utils/geo-utils.ts] (Haversine, metres) and
    [Math.sqrt(x ** 2 + y ** 2 + z ** 2)], are taken as given. *)
Class Numerics := {
  calculateDistance : RawCoordinates → RawCoordinates → number;
  magnitude : number → number → number → number
}.

(** ** Emergency orchestrator (emergency-response/orchestrator.ts) *)

Module Emergency.

Inductive EmergencyType := panic_button | accident_detected.

Inductive EmergencyStatus := triggered | responding | acknowledged | resolved.

#[export] Instance EmergencyStatus_eq_dec : EqDecision EmergencyStatus.
Proof. solve_decision. Defined.

Record EmergencyRecord := {
  id : UUID;
  driverId : UUID;
  deliveryId : option UUID;
  emergencyType : EmergencyType;
  location : RawCoordinates;
  triggeredAt : Time;
  status : EmergencyStatus;
  notificationsent : list string
}.

(** [emergency.status = s] *)
Definition set_status (s : EmergencyStatus) (e : EmergencyRecord) : EmergencyRecord :=
  {| id := id e; driverId := driverId e; deliveryId := deliveryId e;
     emergencyType := emergencyType e; location := location e;
     triggeredAt := triggeredAt e; status := s;
     notificationsent := notificationsent e |}.

Record Contact := { name : string; phone : string; relationship : string }.

Record Reading := { x : number; y : number; z : number; timestamp : Time }.

Definition impactGForce : number := 4%Q.

(** The four module-level maps.  A record object is shared between
    [emergencyStore] and whoever holds a reference to it; a write through
    such a reference is a write to the store's entry for the record's id. *)
Record State := {
  emergencyContacts : gmap UUID (list Contact);
  emergencyStore : JsMap.t EmergencyRecord;
  activeEmergencies : gmap UUID UUID;
  accelerometerHistory : gmap UUID (list Reading)
}.

Definition initial : State :=
  {| emergencyContacts := ∅; emergencyStore := JsMap.empty;
     activeEmergencies := ∅; accelerometerHistory := ∅ |}.

Definition with_store (f : JsMap.t EmergencyRecord → JsMap.t EmergencyRecord)
    (st : State) : State :=
  {| emergencyContacts := emergencyContacts st;
     emergencyStore := f (emergencyStore st);
     activeEmergencies := activeEmergencies st;
     accelerometerHistory := accelerometerHistory st |}.

Definition with_active (f : gmap UUID UUID → gmap UUID UUID) (st : State) : State :=
  {| emergencyContacts := emergencyContacts st;
     emergencyStore := emergencyStore st;
     activeEmergencies := f (activeEmergencies st);
     accelerometerHistory := accelerometerHistory st |}.

Definition with_history
    (f : gmap UUID (list Reading) → gmap UUID (list Reading)) (st : State) : State :=
  {| emergencyContacts := emergencyContacts st;
     emergencyStore := emergencyStore st;
     activeEmergencies := activeEmergencies st;
     accelerometerHistory := f (accelerometerHistory st) |}.

(** [fresh] is the result of [uuidv4()], [now] the clock. *)
Definition createEmergencyRecord (st : State) (driver : UUID) (ty : EmergencyType)
    (loc : RawCoordinates) (delivery : option UUID) (fresh : UUID) (now : Time)
    : EmergencyRecord * State :=
  let emergency :=
    {| id := fresh; driverId := driver; deliveryId := delivery;
       emergencyType := ty; location := loc; triggeredAt := now;
       status := triggered; notificationsent := [] |} in
  (emergency,
   with_active (λ a, <[driver := id emergency]> a)
     (with_store (JsMap.set (id emergency) emergency) st)).

(** [emergency.status = 'responding'] on the object that
    [createEmergencyRecord] has just put into the store. *)
Definition initiateEmergencyResponse (st : State) (emergency : EmergencyRecord)
    : EmergencyRecord * State :=
  let emergency' := set_status responding emergency in
  (emergency', with_store (JsMap.set (id emergency') emergency') st).

Definition triggerPanicButton (st : State) (driver : UUID) (loc : RawCoordinates)
    (delivery : option UUID) (fresh : UUID) (now : Time) : EmergencyRecord * State :=
  let early :=
    match activeEmergencies st !! driver with
    | Some existingId =>
        if truthy existingId then
          match JsMap.get existingId (emergencyStore st) with
          | Some existing =>
              if bool_decide (status existing = triggered) then Some existing else None
          | None => None
          end
        else None
    | None => None
    end in
  match early with
  | Some existing => (existing, st)
  | None =>
      let '(emergency, st1) :=
        createEmergencyRecord st driver panic_button loc delivery fresh now in
      initiateEmergencyResponse st1 emergency
  end.

Definition processAccelerometerData `{Numerics} (st : State) (driver : UUID)
    (reading : Reading) (loc : RawCoordinates) (delivery : option UUID)
    (fresh : UUID) (now : Time) : option EmergencyRecord * State :=
  let history := default [] (accelerometerHistory st !! driver) ++ [reading] in
  let history := if decide (30 < length history)%nat then tail history else history in
  let st0 := with_history (λ h, <[driver := history]> h) st in
  let gForce := magnitude (x reading) (y reading) (z reading) in
  if Qle_bool impactGForce gForce
     && negb (bool_decide (is_Some (activeEmergencies st0 !! driver)))
  then
    let '(emergency, st1) :=
      createEmergencyRecord st0 driver accident_detected loc delivery fresh now in
    let '(emergency', st2) := initiateEmergencyResponse st1 emergency in
    (Some emergency', st2)
  else (None, st0).

Definition getEmergency (st : State) (emergencyId : UUID) : option EmergencyRecord :=
  JsMap.get emergencyId (emergencyStore st).

Definition getActiveEmergency (st : State) (driver : UUID) : option EmergencyRecord :=
  match activeEmergencies st !! driver with
  | Some i => if truthy i then JsMap.get i (emergencyStore st) else None
  | None => None
  end.

Definition acknowledgeEmergency (st : State) (emergencyId acknowledgedBy : UUID)
    : bool * State :=
  match JsMap.get emergencyId (emergencyStore st) with
  | None => (false, st)
  | Some emergency =>
      (true, with_store (JsMap.set emergencyId (set_status acknowledged emergency)) st)
  end.

Definition resolveEmergency (st : State) (emergencyId resolvedBy : UUID)
    : bool * State :=
  match JsMap.get emergencyId (emergencyStore st) with
  | None => (false, st)
  | Some emergency =>
      (true,
       with_active (delete (driverId emergency))
         (with_store (JsMap.set emergencyId (set_status resolved emergency)) st))
  end.

Definition getAllActiveEmergencies (st : State) : list EmergencyRecord :=
  List.filter (λ e, negb (bool_decide (status e = resolved)))
    (JsMap.values (emergencyStore st)).

Definition setEmergencyContacts (st : State) (driver : UUID) (contacts : list Contact)
    : State :=
  {| emergencyContacts := <[driver := contacts]> (emergencyContacts st);
     emergencyStore := emergencyStore st;
     activeEmergencies := activeEmergencies st;
     accelerometerHistory := accelerometerHistory st |}.

Definition getEmergencyContacts (st : State) (driver : UUID) : list Contact :=
  default [] (emergencyContacts st !! driver).

(** The exported operations that change the state, as requests. *)
Inductive Op :=
| TriggerPanicButton (driver : UUID) (loc : RawCoordinates) (delivery : option UUID)
  (fresh : UUID) (now : Time)
| ProcessAccelerometerData (driver : UUID) (reading : Reading) (loc : RawCoordinates)
  (delivery : option UUID) (fresh : UUID) (now : Time)
| AcknowledgeEmergency (emergencyId acknowledgedBy : UUID)
| ResolveEmergency (emergencyId resolvedBy : UUID)
| SetEmergencyContacts (driver : UUID) (contacts : list Contact).

Definition step `{Numerics} (st : State) (op : Op) : State :=
  match op with
  | TriggerPanicButton d loc del fresh now =>
      snd (triggerPanicButton st d loc del fresh now)
  | ProcessAccelerometerData d r loc del fresh now =>
      snd (processAccelerometerData st d r loc del fresh now)
  | AcknowledgeEmergency e by_ => snd (acknowledgeEmergency st e by_)
  | ResolveEmergency e by_ => snd (resolveEmergency st e by_)
  | SetEmergencyContacts d cs => setEmergencyContacts st d cs
  end.

Definition run `{Numerics} (st : State) (ops : list Op) : State := fold_left step ops st.

End Emergency.

(** ** Encodings of [Buffer]s and strings *)

Module Encoding.

Abbreviation Buffer := (list Byte.byte) (only parsing).

(** A string is the sequence of its UTF-8 bytes. *)
Definition utf8_encode (s : string) : Buffer := String.list_byte_of_string s.
Definition utf8_decode (b : Buffer) : string := String.string_of_list_byte b.

Definition hex_digit (n : N) : ascii :=
  default "0"%char (String.get (N.to_nat n) "0123456789abcdef").

(** [buf.toString('hex')] / [digest('hex')] *)
Fixpoint hex (bs : Buffer) : string :=
  match bs with
  | [] => ""
  | b :: bs' =>
      let n := Byte.to_N b in
      String (hex_digit (n / 16)) (String (hex_digit (n mod 16)) (hex bs'))
  end.

Definition b64_alphabet : string :=
  "ABCDEFGHIJKLMNOPQRSTUVWXYZabcdefghijklmnopqrstuvwxyz0123456789+/".

Definition b64_char (n : N) : ascii :=
  default "A"%char (String.get (N.to_nat n) b64_alphabet).

(** [buf.toString('base64')]: RFC 4648 with padding. *)
Fixpoint base64 (bs : Buffer) : string :=
  match bs with
  | [] => ""
  | [a] =>
      let a := Byte.to_N a in
      String (b64_char (a / 4)) (String (b64_char ((a mod 4) * 16)) "==")
  | [a; b] =>
      let a := Byte.to_N a in
      let b := Byte.to_N b in
      String (b64_char (a / 4))
        (String (b64_char ((a mod 4) * 16 + b / 16))
           (String (b64_char ((b mod 16) * 4)) "="))
  | a :: b :: c :: rest =>
      let a := Byte.to_N a in
      let b := Byte.to_N b in
      let c := Byte.to_N c in
      String (b64_char (a / 4))
        (String (b64_char ((a mod 4) * 16 + b / 16))
           (String (b64_char ((b mod 16) * 4 + c / 64))
              (String (b64_char (c mod 64)) (base64 rest))))
  end%N.

(** [s.toUpperCase()] on the ASCII range, which is where the hex digests
    and the codes compared with them live. *)
Definition upper_ascii (c : ascii) : ascii :=
  let n := N_of_ascii c in
  if ((97 <=? n) && (n <=? 122))%N then ascii_of_N (n - 32) else c.

Fixpoint toUpperCase (s : string) : string :=
  match s with
  | EmptyString => EmptyString
  | String c s' => String (upper_ascii c) (toUpperCase s')
  end.

(** [s.substring(0, n)] *)
Definition substring0 (n : nat) (s : string) : string := String.substring 0 n s.

(** [s.split(':')] *)
Fixpoint split_colon (s : string) : list string :=
  match s with
  | EmptyString => [EmptyString]
  | String c s' =>
      if Ascii.eqb c ":" then EmptyString :: split_colon s'
      else match split_colon s' with
           | p :: ps => String c p :: ps
           | [] => [String c EmptyString]
           end
  end.

End Encoding.

(** ** The node runtime: [crypto], [otplib] and the configuration *)

(** The primitives of node's [crypto] module that the sources call.
    [aes_256_gcm_encrypt key iv plaintext] is the pair of the ciphertext
    ([update] followed by [final]) and the tag ([getAuthTag]);
    [aes_256_gcm_decrypt key iv tag ciphertext] is [None] when the
    decipher throws (bad tag, bad parameters).  [from_base64] is
    [Buffer.from(s, 'base64')]. *)
Class NodeCrypto := {
  hmac_sha256_digest : string → string → Encoding.Buffer;
  sha256_digest : string → Encoding.Buffer;
  aes_256_gcm_encrypt :
  Encoding.Buffer → Encoding.Buffer → Encoding.Buffer → Encoding.Buffer * Encoding.Buffer;
  aes_256_gcm_decrypt :
  Encoding.Buffer → Encoding.Buffer → Encoding.Buffer → Encoding.Buffer →
  option Encoding.Buffer;
  from_base64 : string → Encoding.Buffer
}.

(** [otplib]'s [totp] object, already configured with [digits], [step] and
    [window]; its results depend on the clock. *)
Class Otplib := {
  totp_generate : string → Time → string;
  totp_verify : string → string → Time → bool
}.

(** The fields of [config] that the modelled code reads. *)
Record Config := {
  encryptionKey : string;
  hmacSecret : string;
  otpTtlSeconds : Z
}.

(** ** crypto/hashing.ts *)

Module Hashing.
Section WithCrypto.
Context `{NodeCrypto}.

Definition sha256 (data : string) : string := Encoding.hex (sha256_digest data).

Definition hmacSha256 (data key : string) : string :=
  Encoding.hex (hmac_sha256_digest key data).
End WithCrypto.
End Hashing.

(** ** crypto/encryption.ts *)

Module Encryption.
Import Encoding.

Inductive Error :=
  | InvalidFormat   (* new Error('Invalid encryption format') *)
  | CipherError.    (* thrown by the decipher: authentication failure *)

Section WithCrypto.
Context `{NodeCrypto}.
Variable config : Config.

(** [iv] is the result of [crypto.randomBytes(12)]. *)
Definition encrypt (text contextId : string) (iv : Buffer) : string :=
  let derivedKey := hmac_sha256_digest (encryptionKey config) contextId in
  let '(encrypted, authTag) := aes_256_gcm_encrypt derivedKey iv (utf8_encode text) in
  base64 iv +:+ ":" +:+ base64 authTag +:+ ":" +:+ base64 encrypted.

Definition decrypt (encryptedText contextId : string) : Error + string :=
  match split_colon encryptedText with
  | [ivBase64; authTagBase64; encryptedBase64] =>
      if negb (truthy ivBase64) || negb (truthy authTagBase64)
         || negb (truthy encryptedBase64)
      then inl InvalidFormat
      else
        let iv := from_base64 ivBase64 in
        let authTag := from_base64 authTagBase64 in
        let derivedKey := hmac_sha256_digest (encryptionKey config) contextId in
        match aes_256_gcm_decrypt derivedKey iv authTag (from_base64 encryptedBase64) with
        | Some decrypted => inr (utf8_decode decrypted)
        | None => inl CipherError
        end
  | _ => inl InvalidFormat
  end.
End WithCrypto.
End Encryption.

(** ** Delivery verifier (delivery-verification/verifier.ts) *)

Module Verifier.
Import Encoding.

Inductive VerificationMethod := otp | code | photo | signature | geofence | biometric.

#[export] Instance VerificationMethod_eq_dec : EqDecision VerificationMethod.
Proof. solve_decision. Defined.

Record OTPRecord := {
  otp_id : UUID;
  otp_deliveryId : UUID;
  recipientId : UUID;
  otpEncrypted : string;
  expiresAt : Time;
  createdAt : Time;
  attemptCount : Z;
  isVerified : bool;
  verifiedAt : option Time
}.

Record PhotoMetadata := {
  width : number;
  height : number;
  mimeType : string;
  sizeBytes : nat
}.

Record DeliveryPhoto := {
  photo_id : UUID;
  photo_deliveryId : UUID;
  photoEncrypted : string;
  metadata : PhotoMetadata;
  photo_capturedAt : Time;
  zoneId : option string
}.

Record DeliverySignature := {
  sig_id : UUID;
  sig_deliveryId : UUID;
  signatureEncrypted : string;
  signatureHash : string;
  sig_capturedAt : Time;
  signerName : option string
}.

Record DeliveryVerification := {
  ver_id : UUID;
  ver_deliveryId : UUID;
  methodsRequired : list VerificationMethod;
  methodsCompleted : list VerificationMethod;
  isComplete : bool;
  completedAt : option Time
}.

(** The five module-level maps.  [otpStore] is the one that is iterated. *)
Record State := {
  otpStore : JsMap.t OTPRecord;
  photoStore : gmap UUID DeliveryPhoto;
  signatureStore : gmap UUID DeliverySignature;
  verificationStore : gmap UUID DeliveryVerification;
  deliverySecrets : gmap UUID string
}.

Definition initial : State :=
  {| otpStore := JsMap.empty; photoStore := ∅; signatureStore := ∅;
     verificationStore := ∅; deliverySecrets := ∅ |}.

Definition with_otpStore (f : JsMap.t OTPRecord → JsMap.t OTPRecord) (st : State) : State :=
  {| otpStore := f (otpStore st); photoStore := photoStore st;
     signatureStore := signatureStore st; verificationStore := verificationStore st;
     deliverySecrets := deliverySecrets st |}.

Definition with_photoStore (f : gmap UUID DeliveryPhoto → gmap UUID DeliveryPhoto)
    (st : State) : State :=
  {| otpStore := otpStore st; photoStore := f (photoStore st);
     signatureStore := signatureStore st; verificationStore := verificationStore st;
     deliverySecrets := deliverySecrets st |}.

Definition with_signatureStore
    (f : gmap UUID DeliverySignature → gmap UUID DeliverySignature) (st : State) : State :=
  {| otpStore := otpStore st; photoStore := photoStore st;
     signatureStore := f (signatureStore st); verificationStore := verificationStore st;
     deliverySecrets := deliverySecrets st |}.

Definition with_verificationStore
    (f : gmap UUID DeliveryVerification → gmap UUID DeliveryVerification)
    (st : State) : State :=
  {| otpStore := otpStore st; photoStore := photoStore st;
     signatureStore := signatureStore st; verificationStore := f (verificationStore st);
     deliverySecrets := deliverySecrets st |}.

Definition with_deliverySecrets (f : gmap UUID string → gmap UUID string)
    (st : State) : State :=
  {| otpStore := otpStore st; photoStore := photoStore st;
     signatureStore := signatureStore st; verificationStore := verificationStore st;
     deliverySecrets := f (deliverySecrets st) |}.

Definition DEFAULT_GEOFENCE_RADIUS : number := 100%Q.

(** The value returned by [verifyOTP]. *)
Record VerifyResult := {
  isValid : bool;
  reason : option string;
  remainingAttempts : option Z
}.

(** The [for ... of otpStore.values()] loop of [verifyOTP]: a record of
    the delivery that is not verified yet. *)
Definition pending (deliveryId : UUID) (record : OTPRecord) : bool :=
  String.eqb (otp_deliveryId record) deliveryId && negb (isVerified record).

(** A write to the object that the loop found, in the store. *)
Fixpoint update_first {V : Type} (p : V → bool) (f : V → V) (m : JsMap.t V)
    : JsMap.t V :=
  match m with
  | [] => []
  | (k, v) :: m' => if p v then (k, f v) :: m' else (k, v) :: update_first p f m'
  end.

(** [otpRecord.attemptCount++] *)
Definition bump (r : OTPRecord) : OTPRecord :=
  {| otp_id := otp_id r; otp_deliveryId := otp_deliveryId r;
     recipientId := recipientId r; otpEncrypted := otpEncrypted r;
     expiresAt := expiresAt r; createdAt := createdAt r;
     attemptCount := attemptCount r + 1; isVerified := isVerified r;
     verifiedAt := verifiedAt r |}.

(** [otpRecord.isVerified = true; otpRecord.verifiedAt = now] *)
Definition mark_verified (now : Time) (r : OTPRecord) : OTPRecord :=
  {| otp_id := otp_id r; otp_deliveryId := otp_deliveryId r;
     recipientId := recipientId r; otpEncrypted := otpEncrypted r;
     expiresAt := expiresAt r; createdAt := createdAt r;
     attemptCount := attemptCount r; isVerified := true;
     verifiedAt := Some now |}.

Definition updateVerification (st : State) (deliveryId : UUID)
    (method : VerificationMethod) (now : Time) : State :=
  match verificationStore st !! deliveryId with
  | None => st
  | Some verification =>
      let completed :=
        if bool_decide (method ∈ methodsCompleted verification)
        then methodsCompleted verification
        else methodsCompleted verification ++ [method] in
      let allComplete :=
        forallb (λ m, bool_decide (m ∈ completed)) (methodsRequired verification) in
      let verification' :=
        if allComplete && negb (isComplete verification)
        then {| ver_id := ver_id verification;
                ver_deliveryId := ver_deliveryId verification;
                methodsRequired := methodsRequired verification;
                methodsCompleted := completed;
                isComplete := true;
                completedAt := Some now |}
        else {| ver_id := ver_id verification;
                ver_deliveryId := ver_deliveryId verification;
                methodsRequired := methodsRequired verification;
                methodsCompleted := completed;
                isComplete := isComplete verification;
                completedAt := completedAt verification |} in
      with_verificationStore (λ s, <[deliveryId := verification']> s) st
  end.

Definition initializeVerification (st : State) (deliveryId : UUID)
    (requiredMethods : list VerificationMethod) (fresh : UUID)
    : DeliveryVerification * State :=
  let verification :=
    {| ver_id := fresh; ver_deliveryId := deliveryId;
       methodsRequired := requiredMethods; methodsCompleted := [];
       isComplete := false; completedAt := None |} in
  (verification, with_verificationStore (λ s, <[deliveryId := verification]> s) st).

Definition getVerificationStatus (st : State) (deliveryId : UUID)
    : option DeliveryVerification :=
  verificationStore st !! deliveryId.

Definition isDeliveryVerified (st : State) (deliveryId : UUID) : bool :=
  match verificationStore st !! deliveryId with
  | Some verification => isComplete verification
  | None => false
  end.

Definition getPendingMethods (st : State) (deliveryId : UUID) : list VerificationMethod :=
  match verificationStore st !! deliveryId with
  | None => []
  | Some verification =>
      List.filter (λ m, negb (bool_decide (m ∈ methodsCompleted verification)))
        (methodsRequired verification)
  end.

(** [secret] is the result of [authenticator.generateSecret()]. *)
Definition generateDeliverySecret (st : State) (deliveryId : UUID) (secret : string)
    : string * State :=
  (secret, with_deliverySecrets (λ s, <[deliveryId := secret]> s) st).

Section WithRuntime.
Context `{NodeCrypto} `{Otplib} `{Numerics}.
Variable config : Config.

Definition generateOTP (st : State) (deliveryId recipient : UUID)
    (freshSecret : string) (fresh : UUID) (iv : Buffer) (now : Time)
    : (string * Time) * State :=
  let '(secret, st1) :=
    match deliverySecrets st !! deliveryId with
    | Some s => if truthy s then (s, st) else generateDeliverySecret st deliveryId freshSecret
    | None => generateDeliverySecret st deliveryId freshSecret
    end in
  let otpToken := totp_generate secret now in
  let expires := (now + otpTtlSeconds config * 1000)%Z in
  let record :=
    {| otp_id := fresh; otp_deliveryId := deliveryId; recipientId := recipient;
       otpEncrypted := Encryption.encrypt config otpToken deliveryId iv;
       expiresAt := expires; createdAt := now; attemptCount := 0;
       isVerified := false; verifiedAt := None |} in
  ((otpToken, expiresAt record),
   with_otpStore (JsMap.set (otp_id record) record) st1).

Definition verifyOTP (st : State) (deliveryId : UUID) (providedOTP : string)
    (now : Time) : VerifyResult * State :=
  match deliverySecrets st !! deliveryId with
  | None =>
      ({| isValid := false; reason := Some "no_otp_generated";
          remainingAttempts := None |}, st)
  | Some secret =>
      if negb (truthy secret) then
        ({| isValid := false; reason := Some "no_otp_generated";
            remainingAttempts := None |}, st)
      else
        match List.find (pending deliveryId) (JsMap.values (otpStore st)) with
        | None =>
            ({| isValid := false; reason := Some "no_pending_otp";
                remainingAttempts := None |}, st)
        | Some otpRecord =>
            if (expiresAt otpRecord <? now)%Z then
              ({| isValid := false; reason := Some "otp_expired";
                  remainingAttempts := None |}, st)
            else if (5 <=? attemptCount otpRecord)%Z then
              ({| isValid := false; reason := Some "max_attempts_exceeded";
                  remainingAttempts := Some 0%Z |}, st)
            else
              let valid := totp_verify providedOTP secret now in
              let st1 := with_otpStore (update_first (pending deliveryId) bump) st in
              if valid then
                let st2 :=
                  with_otpStore
                    (update_first (pending deliveryId) (mark_verified now)) st1 in
                ({| isValid := true; reason := None; remainingAttempts := None |},
                 updateVerification st2 deliveryId otp now)
              else
                ({| isValid := false; reason := Some "invalid_otp";
                    remainingAttempts := Some (5 - attemptCount (bump otpRecord))%Z |},
                 st1)
        end
  end.

Definition storeDeliveryPhoto (st : State) (deliveryId : UUID) (photoData : Buffer)
    (w h : number) (mime : string) (location : option RawCoordinates)
    (fresh : UUID) (iv : Buffer) (now : Time) : DeliveryPhoto * State :=
  let photo :=
    {| photo_id := fresh; photo_deliveryId := deliveryId;
       photoEncrypted := Encryption.encrypt config (base64 photoData) deliveryId iv;
       metadata := {| width := w; height := h; mimeType := mime;
                      sizeBytes := length photoData |};
       photo_capturedAt := now;
       zoneId := None |} in
  let st1 := with_photoStore (λ s, <[photo_id photo := photo]> s) st in
  (photo, updateVerification st1 deliveryId Verifier.photo now).

Definition getDeliveryPhoto (st : State) (photoId deliveryId : UUID)
    : option (Buffer * PhotoMetadata) :=
  match photoStore st !! photoId with
  | None => None
  | Some p =>
      if negb (String.eqb (photo_deliveryId p) deliveryId) then None
      else match Encryption.decrypt config (photoEncrypted p) deliveryId with
           | inr decrypted => Some (from_base64 decrypted, metadata p)
           | inl _ => None
           end
  end.

Definition storeSignature (st : State) (deliveryId : UUID) (signatureData : string)
    (signer : option string) (fresh : UUID) (iv ivName : Buffer) (now : Time)
    : DeliverySignature * State :=
  let sig :=
    {| sig_id := fresh; sig_deliveryId := deliveryId;
       signatureEncrypted := Encryption.encrypt config signatureData deliveryId iv;
       signatureHash := Hashing.sha256 signatureData;
       sig_capturedAt := now;
       signerName :=
         match signer with
         | Some n =>
             if truthy n then Some (Encryption.encrypt config n deliveryId ivName)
             else None
         | None => None
         end |} in
  let st1 := with_signatureStore (λ s, <[sig_id sig := sig]> s) st in
  (sig, updateVerification st1 deliveryId signature now).

Definition verifySignatureIntegrity (st : State) (signatureId deliveryId : UUID) : bool :=
  match signatureStore st !! signatureId with
  | None => false
  | Some sig =>
      if negb (String.eqb (sig_deliveryId sig) deliveryId) then false
      else match Encryption.decrypt config (signatureEncrypted sig) deliveryId with
           | inr decrypted => String.eqb (Hashing.sha256 decrypted) (signatureHash sig)
           | inl _ => false
           end
  end.

Definition verifyGeofence (st : State) (deliveryId : UUID)
    (driverLocation deliveryLocation : RawCoordinates) (radiusMeters : option number)
    (now : Time) : (bool * number) * State :=
  let radius := default DEFAULT_GEOFENCE_RADIUS radiusMeters in
  let distance := calculateDistance driverLocation deliveryLocation in
  let isWithinGeofence := Qle_bool distance radius in
  ((isWithinGeofence, distance),
   if isWithinGeofence then updateVerification st deliveryId geofence now else st).

Definition createFallbackVerification (st : State) (deliveryId : UUID)
    (fallbackCode : string) (now : Time) : bool * State :=
  let expectedCode :=
    toUpperCase (substring0 8 (Hashing.hmacSha256 deliveryId (hmacSecret config))) in
  let valid := String.eqb (toUpperCase fallbackCode) expectedCode in
  if valid then
    match verificationStore st !! deliveryId with
    | Some verification =>
        (true,
         with_verificationStore
           (λ s, <[deliveryId :=
                     {| ver_id := ver_id verification;
                        ver_deliveryId := ver_deliveryId verification;
                        methodsRequired := methodsRequired verification;
                        methodsCompleted := [code];
                        isComplete := true;
                        completedAt := Some now |}]> s) st)
    | None => (true, st)
    end
  else (false, st).

(** The public operations, as requests with their arguments and with the
    values drawn from the environment. *)
Inductive Op :=
  | InitializeVerification (deliveryId : UUID) (required : list VerificationMethod)
      (fresh : UUID)
  | GenerateOTP (deliveryId recipient : UUID) (freshSecret : string) (fresh : UUID)
      (iv : Buffer) (now : Time)
  | VerifyOTP (deliveryId : UUID) (providedOTP : string) (now : Time)
  | StoreDeliveryPhoto (deliveryId : UUID) (photoData : Buffer) (w h : number)
      (mime : string) (location : option RawCoordinates) (fresh : UUID) (iv : Buffer)
      (now : Time)
  | StoreSignature (deliveryId : UUID) (signatureData : string) (signer : option string)
      (fresh : UUID) (iv ivName : Buffer) (now : Time)
  | VerifyGeofence (deliveryId : UUID) (driverLocation deliveryLocation : RawCoordinates)
      (radiusMeters : option number) (now : Time)
  | CreateFallbackVerification (deliveryId : UUID) (fallbackCode : string) (now : Time)
| GenerateDeliverySecret (deliveryId : UUID) (secret : string).

Definition step (st : State) (op : Op) : State :=
  match op with
  | InitializeVerification d req fresh => snd (initializeVerification st d req fresh)
  | GenerateOTP d r s fresh iv now => snd (generateOTP st d r s fresh iv now)
  | VerifyOTP d tok now => snd (verifyOTP st d tok now)
  | StoreDeliveryPhoto d data w h mime loc fresh iv now =>
      snd (storeDeliveryPhoto st d data w h mime loc fresh iv now)
  | StoreSignature d data signer fresh iv ivn now =>
      snd (storeSignature st d data signer fresh iv ivn now)
  | VerifyGeofence d a b r now => snd (verifyGeofence st d a b r now)
  | CreateFallbackVerification d c now => snd (createFallbackVerification st d c now)
  | GenerateDeliverySecret d s => snd (generateDeliverySecret st d s)
  end.

Definition run (st : State) (ops : list Op) : State := fold_left step ops st.

(** The operation (re)initializes the verification record of [d]. *)
Definition initializes (d : UUID) (op : Op) : bool :=
  match op with
  | InitializeVerification d' _ _ => String.eqb d' d
  | _ => false
  end.
End WithRuntime.

End Verifier.

(** ** Real-time broadcaster (realtime-broadcast/broadcaster.ts) *)

Module Broadcaster.
Import AccessControl.

Record Audience := {
  aud_deliveryId : option UUID;
  userIds : option (list UUID);
  roles : option (list UserRole)
}.

Record RealtimeEvent := {
  type : string;
  timestamp : string;
  audience : Audience;
  payload : string;
  eventId : string
}.

(** What [socket.emit] sends: ['event'], ['authenticated'] and ['pong']. *)
Inductive Message :=
  | MsgEvent (event : RealtimeEvent)
  | MsgAuthenticated (success : bool)
  | MsgPong (at_time : Time).

(** One [emit]: the id of the receiving socket and the message. *)
Abbreviation Emission := (string * Message)%type (only parsing).

(** An entry of [clients]; [socket] is the id of the socket object. *)
Record Client := { userId : UUID; role : UserRole; socket : string }.

(** [io] tells whether the server object exists; [rooms] is the room
    registry that socket.io keeps for [socket.join], [socket.leave] and
    [io.to(room)], a socket leaving all its rooms when it disconnects. *)
Record State := {
  io : bool;
  clients : JsMap.t Client;
  offlineQueue : gmap UUID (list RealtimeEvent);
  deliveryRooms : gmap UUID (gset string);
  rooms : gmap string (gset string)
}.

Definition initial : State :=
  {| io := false; clients := JsMap.empty; offlineQueue := ∅;
     deliveryRooms := ∅; rooms := ∅ |}.

Definition with_clients (f : JsMap.t Client → JsMap.t Client) (st : State) : State :=
  {| io := io st; clients := f (clients st); offlineQueue := offlineQueue st;
     deliveryRooms := deliveryRooms st; rooms := rooms st |}.

Definition with_offlineQueue
    (f : gmap UUID (list RealtimeEvent) → gmap UUID (list RealtimeEvent))
    (st : State) : State :=
  {| io := io st; clients := clients st; offlineQueue := f (offlineQueue st);
     deliveryRooms := deliveryRooms st; rooms := rooms st |}.

Definition with_deliveryRooms
    (f : gmap UUID (gset string) → gmap UUID (gset string)) (st : State) : State :=
  {| io := io st; clients := clients st; offlineQueue := offlineQueue st;
     deliveryRooms := f (deliveryRooms st); rooms := rooms st |}.

Definition with_rooms
    (f : gmap string (gset string) → gmap string (gset string)) (st : State) : State :=
  {| io := io st; clients := clients st; offlineQueue := offlineQueue st;
     deliveryRooms := deliveryRooms st; rooms := f (rooms st) |}.

(** The template [`delivery:${deliveryId}`] *)
Definition room_name (deliveryId : UUID) : string := "delivery:" +:+ deliveryId.

Definition initializeWebSocket (st : State) : State :=
  {| io := true; clients := clients st; offlineQueue := offlineQueue st;
     deliveryRooms := deliveryRooms st; rooms := ∅ |}.

(** Handler of ['authenticate']. *)
Definition on_authenticate (st : State) (sid : string) (user : UUID) (r : UserRole)
    : list Emission * State :=
  let st1 :=
    with_clients (JsMap.set sid {| userId := user; role := r; socket := sid |}) st in
  let ack := [(sid, MsgAuthenticated true)] in
  match offlineQueue st1 !! user with
  | Some queued =>
      if (0 <? length queued)%nat
      then (List.map (λ event, (sid, MsgEvent event)) queued ++ ack,
            with_offlineQueue (delete user) st1)
      else (ack, st1)
  | None => (ack, st1)
  end.

(** Handler of ['subscribe:delivery']. *)
Definition on_subscribe (st : State) (sid : string) (deliveryId : UUID) : State :=
  let st1 :=
    with_rooms (λ rs, <[room_name deliveryId :=
                          default ∅ (rs !! room_name deliveryId) ∪ {[sid]}]> rs) st in
  with_deliveryRooms
    (λ ds, <[deliveryId := default ∅ (ds !! deliveryId) ∪ {[sid]}]> ds) st1.

(** Handler of ['unsubscribe:delivery']. *)
Definition on_unsubscribe (st : State) (sid : string) (deliveryId : UUID) : State :=
  let st1 :=
    with_rooms (λ rs, match rs !! room_name deliveryId with
                      | Some members => <[room_name deliveryId := members ∖ {[sid]}]> rs
                      | None => rs
                      end) st in
  with_deliveryRooms
    (λ ds, match ds !! deliveryId with
           | Some room => <[deliveryId := room ∖ {[sid]}]> ds
           | None => ds
           end) st1.

(** Handler of ['disconnect']. *)
Definition on_disconnect (st : State) (sid : string) : State :=
  with_rooms (fmap (λ members, members ∖ {[sid]}))
    (with_deliveryRooms (fmap (λ room, room ∖ {[sid]}))
       (with_clients (JsMap.delete sid) st)).

(** Handler of ['ping']. *)
Definition on_ping (st : State) (sid : string) (now : Time) : list Emission * State :=
  ([(sid, MsgPong now)], st).

(** [io.to(room).emit('event', event)] *)
Definition emit_to_room (st : State) (room : string) (m : Message) : list Emission :=
  List.map (λ sid, (sid, m)) (elements (default ∅ (rooms st !! room))).

(** [for (const [, client] of clients) if (test(client)) client.socket.emit(...)] *)
Definition emit_to_clients (st : State) (test : Client → bool) (m : Message)
    : list Emission :=
  List.map (λ c, (socket c, m)) (List.filter test (JsMap.values (clients st))).

(** The body of [audience.userIds.forEach] for one user id. *)
Definition enqueue_offline (event : RealtimeEvent) (cs : JsMap.t Client)
    (q : gmap UUID (list RealtimeEvent)) (user : UUID) : gmap UUID (list RealtimeEvent) :=
  let isOnline := existsb (λ c, String.eqb (userId c) user) (JsMap.values cs) in
  if isOnline then q
  else
    let queue := default [] (q !! user) ++ [event] in
    let queue := if decide (50 < length queue)%nat then tail queue else queue in
    <[user := queue]> q.

Definition broadcast (st : State) (event : RealtimeEvent) : list Emission * State :=
  if negb (io st) then ([], st)
  else
    let a := audience event in
    let toRoom :=
      match aud_deliveryId a with
      | Some d => if truthy d then emit_to_room st (room_name d) (MsgEvent event) else []
      | None => []
      end in
    let '(toUsers, st1) :=
      match userIds a with
      | Some ids =>
          if (0 <? length ids)%nat
          then (emit_to_clients st (λ c, includes (userId c) ids) (MsgEvent event),
                with_offlineQueue
                  (λ q, fold_left (enqueue_offline event (clients st)) ids q) st)
          else ([], st)
      | None => ([], st)
      end in
    let toRoles :=
      match roles a with
      | Some rs =>
          if (0 <? length rs)%nat
          then emit_to_clients st1 (λ c, bool_decide (role c ∈ rs)) (MsgEvent event)
          else []
      | None => []
      end in
    (toRoom ++ toUsers ++ toRoles, st1).

Definition closeWebSocket (st : State) : State :=
  if io st then initial else st.

(** What the server reacts to: socket messages and calls of the exported
    functions. *)
Inductive Op :=
  | InitializeWebSocket
  | Authenticate (sid : string) (user : UUID) (r : UserRole)
  | Subscribe (sid : string) (deliveryId : UUID)
  | Unsubscribe (sid : string) (deliveryId : UUID)
  | Disconnect (sid : string)
  | Ping (sid : string) (now : Time)
  | Broadcast (event : RealtimeEvent)
  | CloseWebSocket.

Definition step (st : State) (op : Op) : list Emission * State :=
  match op with
  | InitializeWebSocket => ([], initializeWebSocket st)
  | Authenticate sid u r => on_authenticate st sid u r
  | Subscribe sid d => ([], on_subscribe st sid d)
  | Unsubscribe sid d => ([], on_unsubscribe st sid d)
  | Disconnect sid => ([], on_disconnect st sid)
  | Ping sid now => on_ping st sid now
  | Broadcast event => broadcast st event
  | CloseWebSocket => ([], closeWebSocket st)
  end.

Definition run (st : State) (ops : list Op) : State :=
  fold_left (λ s op, snd (step s op)) ops st.

End Broadcaster.

(** ** Notification service (notifier.ts) *)

Module Notifier.

Inductive NotificationChannel := sms | push | whatsapp | ussd | email.

#[export] Instance NotificationChannel_eq_dec : EqDecision NotificationChannel.
Proof. solve_decision. Defined.

Inductive NotificationPriority := low | normal | high | critical.

Inductive NotificationStatus := pending | sent | delivered | read | failed.

#[export] Instance NotificationStatus_eq_dec : EqDecision NotificationStatus.
Proof. solve_decision. Defined.

Record NotificationRecord := {
  id : UUID;
  recipientId : UUID;
  channel : NotificationChannel;
  priority : NotificationPriority;
  templateId : string;
  contentEncrypted : string;
  scheduledAt : Time;
  sentAt : option Time;
  deliveredAt : option Time;
  readAt : option Time;
  status : NotificationStatus;
  retryCount : nat;
  maxRetries : nat;
  failureReason : option string
}.

Record Preferences := {
  channels : list NotificationChannel;
  quiet : option (string * string)
}.

Record RateLimit := { count : Z; resetAt : Time }.

(** [timers] holds the pending [setTimeout] callbacks of [scheduleRetry]:
    the delay and the id of the notification to deliver again. *)
Record State := {
  notificationStore : JsMap.t NotificationRecord;
  userPreferences : gmap UUID Preferences;
  rateLimitStore : gmap string RateLimit;
  timers : list (Z * UUID)
}.

Definition initial : State :=
  {| notificationStore := JsMap.empty; userPreferences := ∅;
     rateLimitStore := ∅; timers := [] |}.

Definition RETRY_DELAYS : list Z := [1000; 5000; 30000; 60000; 300000]%Z.

Definition channel_name (c : NotificationChannel) : string :=
  match c with
  | sms => "sms" | push => "push" | whatsapp => "whatsapp"
  | ussd => "ussd" | email => "email"
  end.

(** A write to a notification object, which lives in the store under its id. *)
Definition put (n : NotificationRecord) (st : State) : State :=
  {| notificationStore := JsMap.set (id n) n (notificationStore st);
     userPreferences := userPreferences st;
     rateLimitStore := rateLimitStore st;
     timers := timers st |}.

(** The channel adapters.  Each one logs and returns; the result is the
    message of the error it throws, and none of them throws. *)
Definition deliverSMS (n : NotificationRecord) : option string := None.
Definition deliverPush (n : NotificationRecord) : option string := None.
Definition deliverWhatsApp (n : NotificationRecord) : option string := None.
Definition deliverUSSD (n : NotificationRecord) : option string := None.
Definition deliverEmail (n : NotificationRecord) : option string := None.

Definition scheduleRetry (st : State) (n : NotificationRecord)
    : NotificationRecord * State :=
  if decide (maxRetries n ≤ retryCount n)%nat then
    let n' :=
      {| id := id n; recipientId := recipientId n; channel := channel n;
         priority := priority n; templateId := templateId n;
         contentEncrypted := contentEncrypted n; scheduledAt := scheduledAt n;
         sentAt := sentAt n; deliveredAt := deliveredAt n; readAt := readAt n;
         status := failed; retryCount := retryCount n; maxRetries := maxRetries n;
         failureReason := Some "Max retries exceeded" |} in
    (n', put n' st)
  else
    let delay := default 60000%Z (RETRY_DELAYS !! retryCount n) in
    let n' :=
      {| id := id n; recipientId := recipientId n; channel := channel n;
         priority := priority n; templateId := templateId n;
         contentEncrypted := contentEncrypted n; scheduledAt := scheduledAt n;
         sentAt := sentAt n; deliveredAt := deliveredAt n; readAt := readAt n;
         status := status n; retryCount := S (retryCount n);
         maxRetries := maxRetries n; failureReason := failureReason n |} in
    let st1 := put n' st in
    (n', {| notificationStore := notificationStore st1;
            userPreferences := userPreferences st1;
            rateLimitStore := rateLimitStore st1;
            timers := timers st1 ++ [(delay, id n')] |}).

Definition deliverNotification (st : State) (n : NotificationRecord) (now : Time)
    : NotificationRecord * State :=
  let thrown :=
    match channel n with
    | sms => deliverSMS n
    | push => deliverPush n
    | whatsapp => deliverWhatsApp n
    | ussd => deliverUSSD n
    | email => deliverEmail n
    end in
  match thrown with
  | None =>
      let n' :=
        {| id := id n; recipientId := recipientId n; channel := channel n;
           priority := priority n; templateId := templateId n;
           contentEncrypted := contentEncrypted n; scheduledAt := scheduledAt n;
           sentAt := Some now; deliveredAt := deliveredAt n; readAt := readAt n;
           status := sent; retryCount := retryCount n; maxRetries := maxRetries n;
           failureReason := failureReason n |} in
      (n', put n' st)
  | Some _ => scheduleRetry st n
  end.

Definition setUserPreferences (st : State) (user : UUID)
    (chans : list NotificationChannel) (q : option (string * string)) : State :=
  {| notificationStore := notificationStore st;
     userPreferences := <[user := {| channels := chans; quiet := q |}]> (userPreferences st);
     rateLimitStore := rateLimitStore st;
     timers := timers st |}.

Definition getUserPreferences (st : State) (user : UUID) : Preferences :=
  default {| channels := [sms; push]; quiet := None |} (userPreferences st !! user).

Definition getNotification (st : State) (notificationId : UUID)
    : option NotificationRecord :=
  JsMap.get notificationId (notificationStore st).

Definition markAsDelivered (st : State) (notificationId : UUID) (now : Time)
    : bool * State :=
  match JsMap.get notificationId (notificationStore st) with
  | None => (false, st)
  | Some n =>
      (true,
       {| notificationStore :=
            JsMap.set notificationId
              {| id := id n; recipientId := recipientId n; channel := channel n;
                 priority := priority n; templateId := templateId n;
                 contentEncrypted := contentEncrypted n; scheduledAt := scheduledAt n;
                 sentAt := sentAt n; deliveredAt := Some now; readAt := readAt n;
                 status := delivered; retryCount := retryCount n;
                 maxRetries := maxRetries n; failureReason := failureReason n |}
              (notificationStore st);
          userPreferences := userPreferences st;
          rateLimitStore := rateLimitStore st;
          timers := timers st |})
  end.

Definition markAsRead (st : State) (notificationId : UUID) (now : Time) : bool * State :=
  match JsMap.get notificationId (notificationStore st) with
  | None => (false, st)
  | Some n =>
      (true,
       {| notificationStore :=
            JsMap.set notificationId
              {| id := id n; recipientId := recipientId n; channel := channel n;
                 priority := priority n; templateId := templateId n;
                 contentEncrypted := contentEncrypted n; scheduledAt := scheduledAt n;
                 sentAt := sentAt n; deliveredAt := deliveredAt n; readAt := Some now;
                 status := read; retryCount := retryCount n;
                 maxRetries := maxRetries n; failureReason := failureReason n |}
              (notificationStore st);
          userPreferences := userPreferences st;
          rateLimitStore := rateLimitStore st;
          timers := timers st |})
  end.

Definition getNotificationsForUser (st : State) (recipient : UUID)
    : list NotificationRecord :=
  List.filter (λ n, String.eqb (recipientId n) recipient)
    (JsMap.values (notificationStore st)).

Section WithCrypto.
Context `{NodeCrypto}.
Variable config : Config.

(** The result is [inl message] when the call throws. [prio] is the
    optional argument, [fresh] the [uuidv4()], [iv] the random bytes
    of [encrypt]. *)
Definition sendNotification (st : State) (recipient : UUID)
    (chan : NotificationChannel) (template content : string)
    (prio : option NotificationPriority) (fresh : UUID) (iv : Encoding.Buffer)
    (now : Time) : (string + NotificationRecord) * State :=
  let rateLimitKey := "notify:" +:+ recipient +:+ ":" +:+ channel_name chan in
  let rateLimit := rateLimitStore st !! rateLimitKey in
  let limited :=
    match rateLimit with
    | Some rl => (now <? resetAt rl)%Z && (10 <=? count rl)%Z
    | None => false
    end in
  if limited then (inl "Rate limited", st)
  else
    let notification :=
      {| id := fresh; recipientId := recipient; channel := chan;
         priority := default normal prio; templateId := template;
         contentEncrypted := Encryption.encrypt config content recipient iv;
         scheduledAt := now; sentAt := None; deliveredAt := None; readAt := None;
         status := pending; retryCount := 0; maxRetries := length RETRY_DELAYS;
         failureReason := None |} in
    let st1 := put notification st in
    let st2 :=
      {| notificationStore := notificationStore st1;
         userPreferences := userPreferences st1;
         rateLimitStore :=
           match rateLimit with
           | Some rl =>
               <[rateLimitKey := {| count := count rl + 1; resetAt := resetAt rl |}]>
                 (rateLimitStore st1)
           | None =>
               <[rateLimitKey := {| count := 1; resetAt := (now + 60000)%Z |}]>
                 (rateLimitStore st1)
           end;
         timers := timers st1 |} in
    let '(notification', st3) := deliverNotification st2 notification now in
    (inr notification', st3).
End WithCrypto.

End Notifier.

(** * Properties *)

(** ** Strings, lists and insertion-ordered maps *)

Lemma includes_true x l : includes x l = true ↔ x ∈ l.
Proof.
  unfold includes. rewrite existsb_exists. split.
  - intros (y & Hy & Heq). apply String.eqb_eq in Heq. subst.
    by apply list_elem_of_In.
  - intros Hx. exists x. split; [by apply list_elem_of_In | apply String.eqb_refl].
Qed.

Lemma includes_false x l : includes x l = false ↔ x ∉ l.
Proof.
  rewrite <- includes_true. destruct (includes x l); split; done.
Qed.

Lemma truthy_true s : truthy s = true ↔ s ≠ "".
Proof.
  unfold truthy. rewrite negb_true_iff. split.
  - intros Hs ->. by rewrite String.eqb_refl in Hs.
  - intros Hs. by apply String.eqb_neq.
Qed.

Lemma substring_all s : String.substring 0 (String.length s) s = s.
Proof. induction s as [|c s IH]; simpl; [done | by rewrite IH]. Qed.

Module JsMapFacts.
Import JsMap.

Section Facts.
Context {V : Type}.
Implicit Types (m : JsMap.t V) (k : string) (v : V).

Lemma get_set_eq m k v : get k (set k v m) = Some v.
Proof.
  induction m as [|[k' v'] m IH]; simpl.
  - by rewrite String.eqb_refl.
  - destruct (String.eqb k k') eqn:E; simpl.
    + by rewrite String.eqb_refl.
    + by rewrite E.
Qed.

Lemma get_set_ne m k k' v : k ≠ k' → get k' (set k v m) = get k' m.
Proof.
  intros Hne. induction m as [|[k0 v0] m IH]; simpl.
  - apply String.eqb_neq in Hne. rewrite String.eqb_sym in Hne. by rewrite Hne.
  - destruct (String.eqb k k0) eqn:E; simpl.
    + apply String.eqb_eq in E. subst k0.
      destruct (String.eqb k' k) eqn:E'; [|done].
      apply String.eqb_eq in E'. by subst.
    + by rewrite IH.
Qed.

Lemma keys_set_in m k v : k ∈ keys m → keys (set k v m) = keys m.
Proof.
  induction m as [|[k0 v0] m IH]; simpl; intros Hin.
  - by apply elem_of_nil in Hin.
  - destruct (String.eqb k k0) eqn:E; simpl.
    + apply String.eqb_eq in E. by subst.
    + f_equal. apply IH. apply elem_of_cons in Hin as [->|Hin]; [|done].
      by rewrite String.eqb_refl in E.
Qed.

Lemma keys_set_notin m k v : k ∉ keys m → keys (set k v m) = keys m ++ [k].
Proof.
  induction m as [|[k0 v0] m IH]; simpl; intros Hin; [done|].
  apply not_elem_of_cons in Hin as [Hne Hin].
  apply String.eqb_neq in Hne. rewrite Hne. simpl. f_equal. by apply IH.
Qed.

Lemma NoDup_keys_set m k v : NoDup (keys m) → NoDup (keys (set k v m)).
Proof.
  intros Hnd. destruct (decide (k ∈ keys m)) as [Hin|Hin].
  - by rewrite keys_set_in.
  - rewrite keys_set_notin by done. apply NoDup_app. split; [done|].
    split; [|apply NoDup_singleton].
    intros x Hx Hx'. apply list_elem_of_singleton in Hx'. by subst.
Qed.

Lemma elem_of_set m k v kv :
  kv ∈ set k v m → kv = (k, v) ∨ kv ∈ m.
Proof.
  induction m as [|[k0 v0] m IH]; simpl.
  - intros Hin. apply list_elem_of_singleton in Hin. by left.
  - destruct (String.eqb k k0) eqn:E.
    + intros Hin. apply elem_of_cons in Hin as [->|Hin]; [by left|].
      right. by apply elem_of_cons; right.
    + intros Hin. apply elem_of_cons in Hin as [->|Hin].
      * right. apply elem_of_cons. by left.
      * destruct (IH Hin) as [->|Hm]; [by left|].
        right. apply elem_of_cons. by right.
Qed.

Lemma delete_subseteq m k : delete k m ⊆ m.
Proof.
  intros kv Hin. unfold delete in Hin.
  apply list_elem_of_In, filter_In in Hin as [Hin _]. by apply list_elem_of_In.
Qed.

Lemma NoDup_keys_delete m k : NoDup (keys m) → NoDup (keys (delete k m)).
Proof.
  induction m as [|[k0 v0] m IH]; simpl; [done|].
  intros Hnd. apply NoDup_cons in Hnd as [Hk0 Hnd].
  destruct (negb (String.eqb k k0)); simpl; [|by apply IH].
  apply NoDup_cons. split; [|by apply IH].
  intros Hin. apply Hk0. unfold keys in *.
  apply list_elem_of_In, in_map_iff in Hin as ([k1 v1] & Heq & Hin).
  simpl in Heq. subst k1. apply list_elem_of_In, in_map_iff.
  exists (k0, v1). split; [done|].
  apply list_elem_of_In. apply (delete_subseteq m k). by apply list_elem_of_In.
Qed.
Lemma Forall_values_set (P : V → Prop) m k v :
  Forall P (values m) → P v → Forall P (values (set k v m)).
Proof.
  intros HP Hv. induction m as [|[k0 v0] m IH]; simpl.
  - by apply Forall_cons.
  - simpl in HP. apply Forall_cons in HP as [Hv0 HP].
    destruct (String.eqb k k0); simpl; apply Forall_cons; auto.
Qed.

Lemma set_set m k v v' : set k v' (set k v m) = set k v' m.
Proof.
  induction m as [|[k0 v0] m IH]; simpl.
  - by rewrite String.eqb_refl.
  - destruct (String.eqb k k0) eqn:E; simpl.
    + by rewrite String.eqb_refl.
    + by rewrite E, IH.
Qed.

Lemma get_values m k v : get k m = Some v → v ∈ values m.
Proof.
  induction m as [|[k0 v0] m IH]; simpl; [done|].
  destruct (String.eqb k k0).
  - intros [= ->]. apply elem_of_cons. by left.
  - intros Hget. apply elem_of_cons. right. by apply IH.
Qed.
End Facts.
End JsMapFacts.

(** ** Access control and the permission guard *)

Module AccessControlFacts.
Import AccessControl AuthMiddleware.

Lemma wildcard_roles (r : UserRole) :
  getUserPermissions r = ["*"] ↔ r = admin ∨ r = system.
Proof.
  split.
  - destruct r; simpl; intros Heq; try discriminate; auto.
  - by intros [-> | ->].
Qed.

Lemma hasPermission_wildcard (r : UserRole) (p : Permission) :
  getUserPermissions r = ["*"] → hasPermission r p = true.
Proof. unfold hasPermission. by intros ->. Qed.

Lemma authMiddleware_bearer (jwt_verify : string → option JWTPayload)
    (fresh : UUID) (req : Request) (token : string) (decoded : JWTPayload) :
  authorization req = Some ("Bearer " +:+ token) →
  jwt_verify token = Some decoded →
  ∃ req', authMiddleware jwt_verify fresh req = Next req'
          ∧ user req' = Some {| id := userId decoded; role := jwt_role decoded;
                                permissions := getUserPermissions (jwt_role decoded) |}.
Proof.
  intros Hauth Hjwt. unfold authMiddleware. simpl. rewrite Hauth.
  assert (truthy ("Bearer " +:+ token) = true) as -> by done.
  assert (String.prefix "Bearer " ("Bearer " +:+ token) = true) as ->.
  { vm_compute. by destruct token. }
  assert (String.substring 7 (String.length ("Bearer " +:+ token) - 7)
            ("Bearer " +:+ token) = token) as ->.
  { change (String.length ("Bearer " +:+ token) - 7) with (String.length token - 0).
    rewrite Nat.sub_0_r.
    change (String.substring 7 (String.length token) ("Bearer " +:+ token))
      with (String.substring 0 (String.length token) token).
    apply substring_all. }
  simpl.
  rewrite Hjwt. eauto.
Qed.

(** C10.  The roles whose grant list is exactly ["*"] are [admin] and
    [system]; a request that [authMiddleware] has authenticated as such a
    role is answered 403 FORBIDDEN by [requirePermission p] for every
    permission [p] other than "*", although [hasPermission] grants [p] to
    the role. *)
Theorem requirePermission_ignores_wildcard :
  (∀ r : UserRole, getUserPermissions r = ["*"] ↔ r = admin ∨ r = system)
  ∧ ∀ (jwt_verify : string → option JWTPayload) (fresh : UUID) (req : Request)
      (token : string) (decoded : JWTPayload) (p : Permission),
      authorization req = Some ("Bearer " +:+ token) →
      jwt_verify token = Some decoded →
      getUserPermissions (jwt_role decoded) = ["*"] →
      p ≠ "*" →
      ∃ req', authMiddleware jwt_verify fresh req = Next req'
              ∧ requirePermission p req' = Respond 403 "FORBIDDEN" "Permission denied"
              ∧ hasPermission (jwt_role decoded) p = true.
Proof.
  split; [apply wildcard_roles|].
  intros jwt_verify fresh req token decoded p Hauth Hjwt Hperms Hp.
  destruct (authMiddleware_bearer jwt_verify fresh req token decoded Hauth Hjwt)
    as (req' & Hnext & Huser).
  exists req'. split; [done|]. split.
  - unfold requirePermission. rewrite Huser. simpl. rewrite Hperms.
    assert (includes p ["*"] = false) as ->; [|done].
    apply includes_false. intros Hin. apply list_elem_of_singleton in Hin. done.
  - by apply hasPermission_wildcard.
Qed.

Definition admin_request : Request :=
  {| x_request_id := None; authorization := Some "Bearer tok";
     requestId := ""; user := None |}.

Definition admin_jwt (token : string) : option JWTPayload :=
  if String.eqb token "tok"
  then Some {| userId := "u-1"; jwt_role := admin; exp := 0 |}
  else None.

Lemma requirePermission_ignores_wildcard_witness :
  ∃ req', authMiddleware admin_jwt "req-1" admin_request = Next req'
          ∧ requirePermission "read:audit" req'
            = Respond 403 "FORBIDDEN" "Permission denied"
          ∧ hasPermission admin "read:audit" = true.
Proof.
  apply (proj2 requirePermission_ignores_wildcard admin_jwt "req-1" admin_request "tok"
           {| userId := "u-1"; jwt_role := admin; exp := 0 |} "read:audit");
    [reflexivity | reflexivity | reflexivity | discriminate].
Defined.

End AccessControlFacts.

(** ** Emergency orchestrator: the panic button is not idempotent *)

Module EmergencyFacts.
Import Emergency JsMapFacts.

(** After a panic on a driver without active emergency, the driver's
    active record is the new one, and its status is already [responding]. *)
Lemma triggerPanicButton_fresh (st : State) (driver : UUID) (loc : RawCoordinates)
    (delivery : option UUID) (fresh : UUID) (now : Time) :
  activeEmergencies st !! driver = None →
  let r := {| id := fresh; driverId := driver; deliveryId := delivery;
              emergencyType := panic_button; location := loc; triggeredAt := now;
              status := responding; notificationsent := [] |} in
  let '(r1, st1) := triggerPanicButton st driver loc delivery fresh now in
  r1 = r
  ∧ activeEmergencies st1 !! driver = Some fresh
  ∧ JsMap.get fresh (emergencyStore st1) = Some r.
Proof.
  intros Hnone. unfold triggerPanicButton. rewrite Hnone. simpl.
  split; [done|]. split.
  - by rewrite lookup_insert_eq.
  - unfold set_status. simpl. apply get_set_eq.
Qed.

(** The guard of [triggerPanicButton] lets the call through whenever the
    active record is not in status [triggered]. *)
Lemma triggerPanicButton_not_triggered (st : State) (driver : UUID)
    (loc : RawCoordinates) (delivery : option UUID) (fresh : UUID) (now : Time)
    (existingId : UUID) (existing : EmergencyRecord) :
  activeEmergencies st !! driver = Some existingId →
  JsMap.get existingId (emergencyStore st) = Some existing →
  status existing ≠ triggered →
  let r := {| id := fresh; driverId := driver; deliveryId := delivery;
              emergencyType := panic_button; location := loc; triggeredAt := now;
              status := responding; notificationsent := [] |} in
  let '(r2, st2) := triggerPanicButton st driver loc delivery fresh now in
  r2 = r
  ∧ activeEmergencies st2 !! driver = Some fresh
  ∧ JsMap.get fresh (emergencyStore st2) = Some r
  ∧ (existingId ≠ fresh →
     JsMap.get existingId (emergencyStore st2) = Some existing).
Proof.
  intros Hact Hget Hst. unfold triggerPanicButton. rewrite Hact, Hget.
  rewrite bool_decide_eq_false_2 by done.
  destruct (truthy existingId); simpl.
  all: split; [done|]; split; [by rewrite lookup_insert_eq|].
  all: split; [apply get_set_eq|].
  all: intros Hne; rewrite !get_set_ne by done; done.
Qed.


(** No stored record is in status [triggered] between two operations: the
    creating call moves it on to [responding] before it returns. *)
Definition no_triggered (st : State) : Prop :=
  Forall (λ e, status e ≠ triggered) (JsMap.values (emergencyStore st)).

Lemma no_triggered_create (st : State) (driver : UUID) (ty : EmergencyType)
    (loc : RawCoordinates) (delivery : option UUID) (fresh : UUID) (now : Time) :
  no_triggered st →
  no_triggered
    (snd (let '(emergency, st1) :=
            createEmergencyRecord st driver ty loc delivery fresh now in
          initiateEmergencyResponse st1 emergency)).
Proof.
  intros Hst. unfold no_triggered. simpl. rewrite set_set.
  by apply Forall_values_set.
Qed.

Lemma no_triggered_step `{Numerics} (st : State) (op : Op) :
  no_triggered st → no_triggered (step st op).
Proof.
  intros Hst. destruct op; simpl.
  - unfold triggerPanicButton.
    destruct (match activeEmergencies st !! driver with
              | Some existingId => _
              | None => None
              end) as [existing|]; [done|].
    by apply no_triggered_create.
  - unfold processAccelerometerData.
    destruct (Qle_bool _ _ && _); [|done].
    by apply (no_triggered_create (with_history _ st)).
  - unfold acknowledgeEmergency.
    destruct (JsMap.get emergencyId (emergencyStore st)) as [e|]; [|done].
    unfold no_triggered. simpl. by apply Forall_values_set.
  - unfold resolveEmergency.
    destruct (JsMap.get emergencyId (emergencyStore st)) as [e|]; [|done].
    unfold no_triggered. simpl. by apply Forall_values_set.
  - done.
Qed.

Lemma no_triggered_run `{Numerics} (ops : list Op) (st : State) :
  no_triggered st → no_triggered (run st ops).
Proof.
  revert st. induction ops as [|op ops IH]; intros st Hst; [done|].
  simpl. apply IH. by apply no_triggered_step.
Qed.

(** Hence the early return of [triggerPanicButton] is never taken: in every
    state that the operations reach, a panic creates a record. *)
Lemma panic_always_creates `{Numerics} (ops : list Op) (driver : UUID)
    (loc : RawCoordinates) (delivery : option UUID) (fresh : UUID) (now : Time) :
  fst (triggerPanicButton (run initial ops) driver loc delivery fresh now)
  = {| id := fresh; driverId := driver; deliveryId := delivery;
       emergencyType := panic_button; location := loc; triggeredAt := now;
       status := responding; notificationsent := [] |}.
Proof.
  assert (no_triggered (run initial ops)) as Hst.
  { apply no_triggered_run. apply Forall_nil_2. }
  unfold triggerPanicButton.
  destruct (activeEmergencies (run initial ops) !! driver) as [existingId|]; [|done].
  destruct (truthy existingId); [|done].
  destruct (JsMap.get existingId (emergencyStore (run initial ops))) as [existing|] eqn:Hget;
    [|done].
  rewrite bool_decide_eq_false_2; [done|].
  unfold no_triggered in Hst. rewrite Forall_forall in Hst.
  apply Hst. by eapply get_values.
Qed.

(** C1 (the code departs from it).  Two panic triggers in sequence for one
    driver, with nothing in between: the second call does not return the
    record of the first, it stores a second record under the new id, and
    both records are kept with status [responding] for the same driver. *)
Theorem second_panic_creates_new_record :
  ∀ (st : State) (driver : UUID) (loc1 loc2 : RawCoordinates)
    (del1 del2 : option UUID) (id1 id2 : UUID) (t1 t2 : Time),
    activeEmergencies st !! driver = None →
    id1 ≠ id2 →
    let '(r1, st1) := triggerPanicButton st driver loc1 del1 id1 t1 in
    let '(r2, st2) := triggerPanicButton st1 driver loc2 del2 id2 t2 in
    id r1 = id1 ∧ id r2 = id2 ∧ id r2 ≠ id r1
    ∧ driverId r1 = driver ∧ driverId r2 = driver
    ∧ getEmergency st2 id1 = Some r1 ∧ getEmergency st2 id2 = Some r2
    ∧ status r1 = responding ∧ status r2 = responding
    ∧ r1 ∈ getAllActiveEmergencies st2 ∧ r2 ∈ getAllActiveEmergencies st2.
Proof.
  intros st driver loc1 loc2 del1 del2 id1 id2 t1 t2 Hnone Hne.
  pose proof (triggerPanicButton_fresh st driver loc1 del1 id1 t1 Hnone) as H1.
  simpl in H1.
  destruct (triggerPanicButton st driver loc1 del1 id1 t1) as [r1 st1].
  destruct H1 as (Hr1 & Hact1 & Hget1).
  assert (status r1 ≠ triggered) as Hst1 by (by rewrite Hr1).
  rewrite <- Hr1 in Hget1.
  pose proof (triggerPanicButton_not_triggered st1 driver loc2 del2 id2 t2 id1 r1
                Hact1 Hget1 Hst1) as H2.
  simpl in H2.
  destruct (triggerPanicButton st1 driver loc2 del2 id2 t2) as [r2 st2].
  destruct H2 as (Hr2 & Hact2 & Hget2 & Hold).
  specialize (Hold Hne).
  assert (∀ k r, JsMap.get k (emergencyStore st2) = Some r →
                 status r = responding → r ∈ getAllActiveEmergencies st2) as Hall.
  { intros k r Hk Hs. unfold getAllActiveEmergencies.
    apply list_elem_of_In, filter_In. split.
    - unfold JsMap.values. apply in_map_iff.
      revert Hk. generalize (emergencyStore st2). intros m.
      induction m as [|[k0 v0] m IH]; simpl; [done|].
      destruct (String.eqb k k0).
      + intros [= ->]. exists (k0, r). auto.
      + intros Hk. destruct (IH Hk) as (kv & Hkv & Hin). exists kv. auto.
    - rewrite Hs. done. }
  rewrite <- Hr2 in Hget2.
  repeat split.
  - by rewrite Hr1.
  - by rewrite Hr2.
  - rewrite Hr1, Hr2. simpl. congruence.
  - by rewrite Hr1.
  - by rewrite Hr2.
  - done.
  - done.
  - by rewrite Hr1.
  - by rewrite Hr2.
  - apply (Hall id1); [done | by rewrite Hr1].
  - apply (Hall id2); [done | by rewrite Hr2].
Qed.

Definition nairobi : RawCoordinates := {| latitude := (-13 # 10)%Q; longitude := 368 # 10 |}.

Lemma second_panic_creates_new_record_witness :
  let '(r1, st1) := triggerPanicButton initial "U1" nairobi (Some "D3") "e-1" 0 in
  let '(r2, st2) := triggerPanicButton st1 "U1" nairobi (Some "D3") "e-2" 1 in
  id r1 = "e-1" ∧ id r2 = "e-2" ∧ id r2 ≠ id r1
  ∧ driverId r1 = "U1" ∧ driverId r2 = "U1"
  ∧ getEmergency st2 "e-1" = Some r1 ∧ getEmergency st2 "e-2" = Some r2
  ∧ status r1 = responding ∧ status r2 = responding
  ∧ r1 ∈ getAllActiveEmergencies st2 ∧ r2 ∈ getAllActiveEmergencies st2.
Proof.
  apply (second_panic_creates_new_record initial "U1" nairobi nairobi
           (Some "D3") (Some "D3") "e-1" "e-2" 0%Z 1%Z);
    [reflexivity | discriminate].
Defined.

End EmergencyFacts.

(** ** Encodings *)

Module EncodingFacts.
Import Encoding.

Lemma append_nil (t : string) : "" +:+ t = t.
Proof. reflexivity. Qed.

Lemma append_cons (c : ascii) (s t : string) : String c s +:+ t = String c (s +:+ t).
Proof. reflexivity. Qed.

(** The string contains a colon. *)
Fixpoint has_colon (s : string) : bool :=
  match s with
  | EmptyString => false
  | String c s' => Ascii.eqb c ":" || has_colon s'
  end.

Lemma b64_char_not_colon (n : N) : Ascii.eqb (b64_char n) ":" = false.
Proof.
  unfold b64_char. generalize (N.to_nat n). intros k.
  do 65 (destruct k as [|k]; [reflexivity|]). reflexivity.
Qed.

Lemma base64_no_colon (bs : list Byte.byte) : has_colon (base64 bs) = false.
Proof.
  assert (∀ n (l : list Byte.byte), length l ≤ n → has_colon (base64 l) = false) as Hn.
  { induction n as [|n IH]; intros l Hl.
    - destruct l; [reflexivity | simpl in Hl; lia].
    - destruct l as [|a [|b [|c rest]]]; simpl.
      + reflexivity.
      + by rewrite !b64_char_not_colon.
      + by rewrite !b64_char_not_colon.
      + rewrite !b64_char_not_colon. simpl. apply IH. simpl in Hl. lia. }
  by apply (Hn (length bs)).
Qed.

Lemma base64_nil_iff (bs : list Byte.byte) : base64 bs = "" ↔ bs = [].
Proof.
  split; [|by intros ->].
  by destruct bs as [|a [|b [|c rest]]].
Qed.

Lemma split_colon_no_colon (s : string) : has_colon s = false → split_colon s = [s].
Proof.
  induction s as [|c s IH]; simpl; [done|].
  intros Hc. apply orb_false_iff in Hc as [Hc Hs]. rewrite Hc, IH; done.
Qed.

Lemma split_colon_app (s rest : string) :
  has_colon s = false → split_colon (s +:+ String ":" rest) = s :: split_colon rest.
Proof.
  induction s as [|c s IH]; intros Hc.
  - reflexivity.
  - simpl in Hc. apply orb_false_iff in Hc as [Hc Hs]. rewrite append_cons.
    change (split_colon (String c (s +:+ String ":" rest)))
      with (if Ascii.eqb c ":" then EmptyString :: split_colon (s +:+ String ":" rest)
            else match split_colon (s +:+ String ":" rest) with
                 | p :: ps => String c p :: ps
                 | [] => [String c EmptyString]
                 end).
    rewrite Hc, IH; done.
Qed.

(** A string of three colon-free fields splits into these fields. *)
Lemma split_colon_three (a b c : string) :
  has_colon a = false → has_colon b = false → has_colon c = false →
  split_colon (a +:+ ":" +:+ b +:+ ":" +:+ c) = [a; b; c].
Proof.
  intros Ha Hb Hc.
  change (":" +:+ b +:+ ":" +:+ c) with (String ":" (b +:+ ":" +:+ c)).
  rewrite split_colon_app by done.
  change (":" +:+ c) with (String ":" c).
  rewrite split_colon_app by done.
  by rewrite split_colon_no_colon.
Qed.

End EncodingFacts.

(** ** A stand-in runtime, to run the model on concrete inputs *)

(** A base64 decoder for the stand-in. *)

Module Base64Decoder.
Import Encoding.

(** The value of a character of the base64 alphabet. *)
Definition b64_index (c : ascii) : N :=
  let n := N_of_ascii c in
  if ((65 <=? n) && (n <=? 90))%N then (n - 65)%N
  else if ((97 <=? n) && (n <=? 122))%N then (n - 71)%N
  else if ((48 <=? n) && (n <=? 57))%N then (n + 4)%N
  else if (n =? 43)%N then 62%N
  else 63%N.

Definition byte_of (n : N) : Byte.byte := default Byte.x00 (Byte.of_N n).

(** Groups of four characters give three bytes; a group that ends in one or
    two ['='] gives two bytes or one. *)
Fixpoint decode (s : string) : list Byte.byte :=
  match s with
  | String a (String b (String c (String d rest))) =>
      let i1 := b64_index a in
      let i2 := b64_index b in
      let i3 := b64_index c in
      let i4 := b64_index d in
      if Ascii.eqb c "=" then [byte_of (i1 * 4 + i2 / 16)]
      else if Ascii.eqb d "="
      then [byte_of (i1 * 4 + i2 / 16); byte_of ((i2 mod 16) * 16 + i3 / 4)]
      else byte_of (i1 * 4 + i2 / 16)
           :: byte_of ((i2 mod 16) * 16 + i3 / 4)
           :: byte_of ((i3 mod 4) * 64 + i4)
           :: decode rest
  | _ => []
  end%N.

Lemma b64_index_char (n : N) : (n < 64)%N → b64_index (b64_char n) = n.
Proof.
  intros Hn. rewrite <- (N2Nat.id n) at 2. rewrite <- (N2Nat.id n) in Hn.
  unfold b64_char. generalize dependent (N.to_nat n). intros k Hk.
  do 64 (destruct k as [|k]; [reflexivity|]). lia.
Qed.

Lemma b64_char_not_pad (n : N) : Ascii.eqb (b64_char n) "=" = false.
Proof.
  unfold b64_char. generalize (N.to_nat n). intros k.
  do 65 (destruct k as [|k]; [reflexivity|]). reflexivity.
Qed.

Lemma byte_of_to_N (b : Byte.byte) : byte_of (Byte.to_N b) = b.
Proof. unfold byte_of. by rewrite Byte.of_to_N. Qed.

Lemma to_N_lt (b : Byte.byte) : (Byte.to_N b < 256)%N.
Proof. pose proof (Byte.to_N_bounded b). lia. Qed.

Ltac euclid := zify; Z.to_euclidean_division_equations; lia.

Lemma sextets (A B C : N) :
  (A < 256 → B < 256 → C < 256 →
   A / 4 < 64 ∧ (A mod 4) * 16 + B / 16 < 64
   ∧ (B mod 16) * 4 + C / 64 < 64 ∧ C mod 64 < 64)%N.
Proof. intros. repeat split; euclid. Qed.

Lemma octets (A B C : N) :
  (A < 256 → B < 256 → C < 256 →
   (A / 4) * 4 + ((A mod 4) * 16 + B / 16) / 16 = A
   ∧ (((A mod 4) * 16 + B / 16) mod 16) * 16 + ((B mod 16) * 4 + C / 64) / 4 = B
   ∧ (((B mod 16) * 4 + C / 64) mod 4) * 64 + C mod 64 = C)%N.
Proof. intros. repeat split; euclid. Qed.

Lemma decode_base64 (bs : list Byte.byte) : decode (base64 bs) = bs.
Proof.
  assert (∀ n (l : list Byte.byte), length l ≤ n → decode (base64 l) = l) as Hn.
  { induction n as [|n IH]; intros l Hl.
    - destruct l; [reflexivity | simpl in Hl; lia].
    - destruct l as [|a [|b [|c rest]]].
      + reflexivity.
      + pose proof (to_N_lt a) as Ha.
        destruct (sextets (Byte.to_N a) 0 0) as (H1 & H2 & _); [done..|].
        destruct (octets (Byte.to_N a) 0 0) as (H3 & _); [done..|].
        change (0 / 16)%N with 0%N in *. rewrite N.add_0_r in *.
        simpl. rewrite !b64_index_char by done. by rewrite H3, byte_of_to_N.
      + pose proof (to_N_lt a) as Ha. pose proof (to_N_lt b) as Hb.
        destruct (sextets (Byte.to_N a) (Byte.to_N b) 0) as (H1 & H2 & H3 & _); [done..|].
        destruct (octets (Byte.to_N a) (Byte.to_N b) 0) as (H4 & H5 & _); [done..|].
        change (0 / 64)%N with 0%N in *. rewrite N.add_0_r in *.
        simpl. rewrite b64_char_not_pad, !b64_index_char by done.
        by rewrite H4, H5, !byte_of_to_N.
      + pose proof (to_N_lt a) as Ha. pose proof (to_N_lt b) as Hb.
        pose proof (to_N_lt c) as Hc.
        destruct (sextets (Byte.to_N a) (Byte.to_N b) (Byte.to_N c))
          as (H1 & H2 & H3 & H4); [done..|].
        destruct (octets (Byte.to_N a) (Byte.to_N b) (Byte.to_N c))
          as (H5 & H6 & H7); [done..|].
        simpl. rewrite !b64_char_not_pad, !b64_index_char by done.
        rewrite H5, H6, H7, !byte_of_to_N. rewrite IH; [done|]. simpl in Hl. lia. }
  by apply (Hn (length bs)).
Qed.

End Base64Decoder.

(** The stand-in for node's [crypto] leaves the plaintext as it is and uses
    the key as the tag; like AES-GCM it keeps the length of the plaintext and
    refuses a tag made under another key.  Its base64 decoder inverts the
    encoder. *)
Definition stub_crypto : NodeCrypto :=
  {| hmac_sha256_digest key data := Encoding.utf8_encode (key +:+ "/" +:+ data);
     sha256_digest data := Encoding.utf8_encode data;
     aes_256_gcm_encrypt key iv plaintext := (plaintext, key);
     aes_256_gcm_decrypt key iv tag ciphertext :=
       if String.eqb (Encoding.hex tag) (Encoding.hex key) then Some ciphertext else None;
     from_base64 := Base64Decoder.decode |}.

(** The stand-in for [otplib]: the valid token of a secret is the secret. *)
Definition stub_otplib : Otplib :=
  {| totp_generate secret now := secret;
     totp_verify token secret now := String.eqb token secret |}.

Definition stub_numerics : Numerics :=
  {| calculateDistance a b := 0%Q; magnitude x y z := 0%Q |}.

Definition stub_config : Config :=
  {| encryptionKey := "k-enc"; hmacSecret := "k-mac"; otpTtlSeconds := 300 |}.

Definition stub_iv : list Byte.byte := [Byte.x01; Byte.x02; Byte.x03].

(** ** Encryption: the empty plaintext does not survive the round trip *)

Module EncryptionFacts.
Import Encoding Encryption EncodingFacts.

Section WithCrypto.
Context `{NodeCrypto}.
Variable config : Config.

Lemma encrypt_fields (text contextId : string) (iv : list Byte.byte) :
  split_colon (encrypt config text contextId iv)
  = let r := aes_256_gcm_encrypt (hmac_sha256_digest (encryptionKey config) contextId)
               iv (utf8_encode text) in
    [base64 iv; base64 (snd r); base64 (fst r)].
Proof.
  unfold encrypt.
  destruct (aes_256_gcm_encrypt _ iv (utf8_encode text)) as [encrypted authTag].
  simpl. apply split_colon_three; apply base64_no_colon.
Qed.

(** Whatever the cipher, a plaintext whose ciphertext is empty is refused by
    [decrypt] as badly formatted. *)
Lemma decrypt_empty_body (text contextId contextId' : string) (iv : list Byte.byte) :
  fst (aes_256_gcm_encrypt (hmac_sha256_digest (encryptionKey config) contextId)
         iv (utf8_encode text)) = [] →
  decrypt config (encrypt config text contextId iv) contextId' = inl InvalidFormat.
Proof.
  intros Hempty. unfold decrypt. rewrite encrypt_fields. simpl. rewrite Hempty.
  simpl. by rewrite !orb_true_r.
Qed.

(** Away from the empty ciphertext the round trip works, for a cipher that
    decrypts what it encrypted and a base64 decoder that inverts the
    encoder. *)
Lemma decrypt_encrypt_nonempty (text contextId : string) (iv : list Byte.byte) :
  let k := hmac_sha256_digest (encryptionKey config) contextId in
  let r := aes_256_gcm_encrypt k iv (utf8_encode text) in
  (∀ b, from_base64 (base64 b) = b) →
  aes_256_gcm_decrypt k iv (snd r) (fst r) = Some (utf8_encode text) →
  length (fst r) = length (utf8_encode text) →
  snd r ≠ [] → iv ≠ [] → text ≠ "" →
  decrypt config (encrypt config text contextId iv) contextId = inr text.
Proof.
  intros k r Hb64 Hdec Hlen Htag Hiv Htext. unfold decrypt. rewrite encrypt_fields.
  fold k. fold r.
  assert (∀ b : list Byte.byte, b ≠ [] → truthy (base64 b) = true) as Htruthy.
  { intros b Hb. apply truthy_true. by rewrite base64_nil_iff. }
  assert (fst r ≠ []) as Hbody.
  { intros Hnil. rewrite Hnil in Hlen. destruct text; [done|]. simpl in Hlen. lia. }
  cbv zeta iota beta.
  rewrite (Htruthy iv Hiv), (Htruthy _ Htag), (Htruthy _ Hbody).
  simpl. rewrite !Hb64, Hdec. unfold utf8_decode, utf8_encode.
  by rewrite String.string_of_list_byte_of_string.
Qed.

(** A ciphertext made for one context is refused under another context
    whenever the decipher, keyed for that other context, refuses the tag. *)
Lemma decrypt_other_context (text contextId contextId' : string) (iv : list Byte.byte) :
  let k := hmac_sha256_digest (encryptionKey config) contextId in
  let k' := hmac_sha256_digest (encryptionKey config) contextId' in
  let r := aes_256_gcm_encrypt k iv (utf8_encode text) in
  (∀ b, from_base64 (base64 b) = b) →
  aes_256_gcm_decrypt k' iv (snd r) (fst r) = None →
  ∃ e, decrypt config (encrypt config text contextId iv) contextId' = inl e.
Proof.
  intros k k' r Hb64 Hrej. unfold decrypt. rewrite encrypt_fields.
  fold k. fold r. fold k'. cbv zeta iota beta.
  match goal with |- context [if ?b then _ else _] => destruct b end; [by eexists|].
  rewrite !Hb64, Hrej. by eexists.
Qed.

End WithCrypto.

(** C7 (the code departs from it).  AES-GCM turns the empty plaintext into
    an empty ciphertext, so [encrypt] of the empty text ends in an empty
    third field, and [decrypt] under the same context answers
    'Invalid encryption format' instead of the empty text. *)
Theorem decrypt_encrypt_empty_text :
  ∀ (crypto : NodeCrypto) (config : Config) (contextId : string) (iv : list Byte.byte),
    (∀ k i, fst (aes_256_gcm_encrypt k i []) = []) →
    decrypt config (encrypt config "" contextId iv) contextId = inl InvalidFormat
    ∧ decrypt config (encrypt config "" contextId iv) contextId ≠ inr "".
Proof.
  intros crypto config contextId iv Hgcm.
  assert (decrypt config (encrypt config "" contextId iv) contextId = inl InvalidFormat)
    as Hd by (apply decrypt_empty_body; apply Hgcm).
  split; [done | by rewrite Hd].
Qed.

Lemma decrypt_encrypt_empty_text_witness :
  (∀ k i, fst (@aes_256_gcm_encrypt stub_crypto k i []) = [])
  ∧ @decrypt stub_crypto stub_config (@encrypt stub_crypto stub_config "" "D1" stub_iv) "D1"
    = inl InvalidFormat.
Proof.
  split; [reflexivity|].
  apply (decrypt_encrypt_empty_text stub_crypto stub_config "D1" stub_iv).
  reflexivity.
Defined.

(** Under the stand-in runtime: a non-empty text comes back, and another
    context is refused. *)
Example stub_round_trip :
  @decrypt stub_crypto stub_config
    (@encrypt stub_crypto stub_config "hello" "D1" stub_iv) "D1" = inr "hello".
Proof.
  apply (@decrypt_encrypt_nonempty stub_crypto stub_config "hello" "D1" stub_iv);
    try reflexivity; try discriminate.
  apply Base64Decoder.decode_base64.
Qed.

Example stub_other_context :
  ∃ e, @decrypt stub_crypto stub_config
         (@encrypt stub_crypto stub_config "hello" "D1" stub_iv) "D2" = inl e.
Proof.
  apply (@decrypt_other_context stub_crypto stub_config "hello" "D1" "D2" stub_iv);
    [apply Base64Decoder.decode_base64 | reflexivity].
Qed.

End EncryptionFacts.

(** ** Delivery verifier: one-time passwords *)

Module OtpFacts.
Import Encoding Verifier JsMapFacts.

Lemma find_head {A : Type} (p : A → bool) (l : list A) :
  List.find p l = head (List.filter p l).
Proof.
  induction l as [|a l IH]; simpl; [done|]. by destruct (p a).
Qed.

Section UpdateFirst.
Context {V : Type}.
Implicit Types (p : V → bool) (f g : V → V) (m : JsMap.t V).

(** [update_first] rewrites the first value that satisfies [p] and nothing
    else. *)
Lemma filter_update_first p f m :
  List.filter p (JsMap.values (update_first p f m))
  = match List.filter p (JsMap.values m) with
    | [] => []
    | v :: rest => if p (f v) then f v :: rest else rest
    end.
Proof.
  induction m as [|[k v] m IH]; simpl; [done|].
  destruct (p v) eqn:Hv; simpl.
  - done.
  - by rewrite Hv, IH.
Qed.

Lemma values_update_first p f m v rest :
  List.filter p (JsMap.values m) = v :: rest →
  ∃ i : nat, JsMap.values m !! i = Some v
             ∧ JsMap.values (update_first p f m) = <[i := f v]> (JsMap.values m).
Proof.
  induction m as [|[k v0] m IH]; simpl; [done|].
  destruct (p v0) eqn:Hv; simpl.
  - intros [= -> _]. by exists 0%nat.
  - intros Hf. destruct (IH Hf) as (i & Hi & Hupd).
    exists (S i). simpl. by rewrite Hupd.
Qed.

Lemma update_first_twice p f g m :
  (∀ v, p v = true → p (f v) = true) →
  update_first p g (update_first p f m) = update_first p (λ v, g (f v)) m.
Proof.
  intros Hp. induction m as [|[k v] m IH]; simpl; [done|].
  destruct (p v) eqn:Hv; simpl.
  - by rewrite (Hp v Hv).
  - by rewrite Hv, IH.
Qed.

Lemma Forall_update_first (P : V → Prop) p f m :
  Forall P (JsMap.values m) →
  (∀ v rest, List.filter p (JsMap.values m) = v :: rest → P (f v)) →
  Forall P (JsMap.values (update_first p f m)).
Proof.
  induction m as [|[k v] m IH]; simpl; [done|].
  intros HP Hfirst. apply Forall_cons in HP as [Hv HP].
  destruct (p v) eqn:Hpv; simpl.
  - apply Forall_cons. split; [by eapply Hfirst | done].
  - apply Forall_cons. split; [done|]. apply IH; [done|].
    intros v' rest Hf. by eapply Hfirst.
Qed.
End UpdateFirst.

Lemma pending_bump (d : string) (r : OTPRecord) : pending d (bump r) = pending d r.
Proof. reflexivity. Qed.

Lemma pending_mark_verified (d : string) (now : Z) (r : OTPRecord) :
  pending d (mark_verified now r) = false.
Proof. unfold pending. simpl. apply andb_false_r. Qed.

(** The unverified records of a delivery, in the order of the store. *)
Definition pendings (d : string) (st : State) : list OTPRecord :=
  List.filter (pending d) (JsMap.values (otpStore st)).

(** The answers of [verifyOTP]. *)
Definition invalid_otp (remaining : Z) : VerifyResult :=
  {| isValid := false; reason := Some "invalid_otp"; remainingAttempts := Some remaining |}.

Definition max_attempts_exceeded : VerifyResult :=
  {| isValid := false; reason := Some "max_attempts_exceeded";
     remainingAttempts := Some 0%Z |}.

Definition no_pending_otp : VerifyResult :=
  {| isValid := false; reason := Some "no_pending_otp"; remainingAttempts := None |}.

Definition verified : VerifyResult :=
  {| isValid := true; reason := None; remainingAttempts := None |}.

Definition otp_expired : VerifyResult :=
  {| isValid := false; reason := Some "otp_expired"; remainingAttempts := None |}.

Section WithRuntime.
Context `{NodeCrypto} `{Otplib} `{Numerics}.
Variable config : Config.

Lemma otpStore_updateVerification (st : State) (d : string) (m : VerificationMethod)
    (now : Z) :
  otpStore (updateVerification st d m now) = otpStore st.
Proof. unfold updateVerification. by destruct (verificationStore st !! d). Qed.

Lemma deliverySecrets_updateVerification (st : State) (d : string)
    (m : VerificationMethod) (now : Z) :
  deliverySecrets (updateVerification st d m now) = deliverySecrets st.
Proof. unfold updateVerification. by destruct (verificationStore st !! d). Qed.

(** A call that reaches the comparison: the delivery has a secret and its
    first unverified record is neither expired nor exhausted. *)
Lemma verifyOTP_compare (st : State) (d tok : string) (now : Z) (secret : string)
    (r : OTPRecord) (rest : list OTPRecord) :
  deliverySecrets st !! d = Some secret → secret ≠ "" →
  pendings d st = r :: rest →
  (now ≤ expiresAt r)%Z → (attemptCount r < 5)%Z →
  verifyOTP st d tok now
  = if totp_verify tok secret now
    then (verified,
          updateVerification
            (with_otpStore
               (update_first (pending d) (λ v, mark_verified now (bump v))) st)
            d otp now)
    else (invalid_otp (5 - (attemptCount r + 1)),
          with_otpStore (update_first (pending d) bump) st).
Proof.
  intros Hsec Hne Hpend Hexp Hcount. unfold verifyOTP.
  rewrite Hsec. apply truthy_true in Hne. rewrite Hne. simpl.
  rewrite find_head. fold (pendings d st). rewrite Hpend. simpl.
  destruct (Z.ltb_spec (expiresAt r) now) as [?|_]; [lia|].
  destruct (Z.leb_spec 5 (attemptCount r)) as [?|_]; [lia|].
  destruct (totp_verify tok secret now); [|done].
  f_equal. f_equal. destruct st as [os ps ss vs ds]. unfold with_otpStore. simpl.
  f_equal. apply update_first_twice. intros v Hv. by rewrite pending_bump.
Qed.

(** A call on an exhausted record changes nothing. *)
Lemma verifyOTP_exhausted (st : State) (d tok : string) (now : Z) (secret : string)
    (r : OTPRecord) (rest : list OTPRecord) :
  deliverySecrets st !! d = Some secret → secret ≠ "" →
  pendings d st = r :: rest →
  (now ≤ expiresAt r)%Z → (5 ≤ attemptCount r)%Z →
  verifyOTP st d tok now = (max_attempts_exceeded, st).
Proof.
  intros Hsec Hne Hpend Hexp Hcount. unfold verifyOTP.
  rewrite Hsec. apply truthy_true in Hne. rewrite Hne. simpl.
  rewrite find_head. fold (pendings d st). rewrite Hpend. simpl.
  destruct (Z.ltb_spec (expiresAt r) now) as [?|_]; [lia|].
  destruct (Z.leb_spec 5 (attemptCount r)) as [_|?]; [done | lia].
Qed.

(** A call after the expiry of the record changes nothing either; the expiry
    is tested before the attempts. *)
Lemma verifyOTP_expired (st : State) (d tok : string) (now : Z) (secret : string)
    (r : OTPRecord) (rest : list OTPRecord) :
  deliverySecrets st !! d = Some secret → secret ≠ "" →
  pendings d st = r :: rest →
  (expiresAt r < now)%Z →
  verifyOTP st d tok now
  = ({| isValid := false; reason := Some "otp_expired"; remainingAttempts := None |}, st).
Proof.
  intros Hsec Hne Hpend Hexp. unfold verifyOTP.
  rewrite Hsec. apply truthy_true in Hne. rewrite Hne. simpl.
  rewrite find_head. fold (pendings d st). rewrite Hpend. simpl.
  destruct (Z.ltb_spec (expiresAt r) now) as [_|?]; [done | lia].
Qed.

(** A call for a delivery without unverified record changes nothing. *)
Lemma verifyOTP_none_pending (st : State) (d tok : string) (now : Z) (secret : string) :
  deliverySecrets st !! d = Some secret → secret ≠ "" →
  pendings d st = [] →
  verifyOTP st d tok now = (no_pending_otp, st).
Proof.
  intros Hsec Hne Hpend. unfold verifyOTP.
  rewrite Hsec. apply truthy_true in Hne. rewrite Hne. simpl.
  rewrite find_head. fold (pendings d st). by rewrite Hpend.
Qed.

Lemma pendings_after_failure (st : State) (d : string) (r : OTPRecord)
    (rest : list OTPRecord) :
  pendings d st = r :: rest →
  pendings d (with_otpStore (update_first (pending d) bump) st) = bump r :: rest.
Proof.
  intros Hpend. unfold pendings in *. simpl.
  rewrite filter_update_first, Hpend, pending_bump.
  assert (pending d r = true) as ->; [|done].
  assert (In r (List.filter (pending d) (JsMap.values (otpStore st)))) as Hin
    by (rewrite Hpend; by left).
  by apply filter_In in Hin as [_ ?].
Qed.

Lemma pendings_after_success (st : State) (d : string) (now now' : Z) (r : OTPRecord)
    (rest : list OTPRecord) :
  pendings d st = r :: rest →
  pendings d
    (updateVerification
       (with_otpStore (update_first (pending d) (λ v, mark_verified now (bump v))) st)
       d otp now')
  = rest.
Proof.
  intros Hpend. unfold pendings in *. rewrite otpStore_updateVerification. simpl.
  by rewrite filter_update_first, Hpend, pending_mark_verified.
Qed.

(** Successive calls of [verifyOTP] for one delivery, each with its token
    and its clock reading. *)
Fixpoint verify_all (st : State) (d : string) (calls : list (string * Z))
    : list VerifyResult * State :=
  match calls with
  | [] => ([], st)
  | (tok, now) :: calls' =>
      let '(res, st1) := verifyOTP st d tok now in
      let '(ress, st2) := verify_all st1 d calls' in
      (res :: ress, st2)
  end.

Lemma verify_all_app (st : State) (d : string) (c1 c2 : list (string * Z)) :
  verify_all st d (c1 ++ c2)
  = let '(r1, st1) := verify_all st d c1 in
    let '(r2, st2) := verify_all st1 d c2 in
    (r1 ++ r2, st2).
Proof.
  revert st. induction c1 as [|[tok now] c1 IH]; intros st; simpl.
  - by destruct (verify_all st d c2).
  - destruct (verifyOTP st d tok now) as [res st1]. rewrite IH.
    destruct (verify_all st1 d c1) as [r1 st1'].
    by destruct (verify_all st1' d c2).
Qed.

(** The answers to [k] failed attempts on a record that has [n] attempts. *)
Fixpoint countdown (n : Z) (k : nat) : list VerifyResult :=
  match k with
  | O => []
  | S k' => invalid_otp (5 - (n + 1)) :: countdown (n + 1) k'
  end.

Lemma verify_all_wrong (calls : list (string * Z)) :
  ∀ (st : State) (d secret : string) (r : OTPRecord) (rest : list OTPRecord) (exp : Z),
    deliverySecrets st !! d = Some secret → secret ≠ "" →
    pendings d st = r :: rest → expiresAt r = exp →
    (attemptCount r + Z.of_nat (length calls) ≤ 5)%Z →
    Forall (λ c, totp_verify c.1 secret c.2 = false ∧ (c.2 ≤ exp)%Z) calls →
    ∃ r', fst (verify_all st d calls) = countdown (attemptCount r) (length calls)
          ∧ pendings d (snd (verify_all st d calls)) = r' :: rest
          ∧ deliverySecrets (snd (verify_all st d calls)) !! d = Some secret
          ∧ expiresAt r' = exp
          ∧ attemptCount r' = (attemptCount r + Z.of_nat (length calls))%Z.
Proof.
  induction calls as [|[tok now] calls IH];
    intros st d secret r rest exp Hsec Hne Hpend Hexp Hcount Hcalls.
  - exists r. simpl. repeat split; try done. lia.
  - apply Forall_cons in Hcalls as [[Hwrong Htime] Hcalls]. simpl in *.
    rewrite (verifyOTP_compare st d tok now secret r rest) by (try done; lia).
    rewrite Hwrong.
    set (st1 := with_otpStore (update_first (pending d) bump) st).
    destruct (IH st1 d secret (bump r) rest exp) as (r' & Hres & Hp & Hs & He & Hc);
      try done.
    { by apply pendings_after_failure. }
    { simpl. lia. }
    destruct (verify_all st1 d calls) as [ress st2]. simpl in *.
    exists r'. rewrite Hres. repeat split; try done. lia.
Qed.

Lemma verify_all_exhausted (calls : list (string * Z)) :
  ∀ (st : State) (d secret : string) (r : OTPRecord) (rest : list OTPRecord),
    deliverySecrets st !! d = Some secret → secret ≠ "" →
    pendings d st = r :: rest → (5 ≤ attemptCount r)%Z →
    Forall (λ c, (c.2 ≤ expiresAt r)%Z) calls →
    verify_all st d calls = (replicate (length calls) max_attempts_exceeded, st).
Proof.
  induction calls as [|[tok now] calls IH];
    intros st d secret r rest Hsec Hne Hpend Hcount Hcalls; [done|].
  apply Forall_cons in Hcalls as [Htime Hcalls]. simpl in *.
  rewrite (verifyOTP_exhausted st d tok now secret r rest) by done.
  by rewrite (IH st d secret r rest).
Qed.

(** Calls on an exhausted record at any time: the expiry is tested first. *)
Lemma verify_all_after_exhaustion (calls : list (string * Z)) :
  ∀ (st : State) (d secret : string) (r : OTPRecord) (rest : list OTPRecord),
    deliverySecrets st !! d = Some secret → secret ≠ "" →
    pendings d st = r :: rest → (5 ≤ attemptCount r)%Z →
    verify_all st d calls
    = (List.map (λ c, if (expiresAt r <? c.2)%Z then otp_expired
                      else max_attempts_exceeded) calls, st).
Proof.
  induction calls as [|[tok now] calls IH];
    intros st d secret r rest Hsec Hne Hpend Hcount; [done|].
  simpl. destruct (Z.ltb_spec (expiresAt r) now) as [Hlate|Hearly].
  - rewrite (verifyOTP_expired st d tok now secret r rest) by done.
    by rewrite (IH st d secret r rest).
  - rewrite (verifyOTP_exhausted st d tok now secret r rest) by done.
    by rewrite (IH st d secret r rest).
Qed.

End WithRuntime.

Section Invariant.
Context `{NodeCrypto} `{Otplib} `{Numerics}.
Variable config : Config.

(** Every stored record has between 0 and 5 attempts. *)
Definition attempts_ok (st : State) : Prop :=
  Forall (λ r, (0 ≤ attemptCount r ≤ 5)%Z) (JsMap.values (otpStore st)).

Lemma Forall_update_first_weak {V : Type} (P : V → Prop) (p : V → bool) (f : V → V)
    (m : JsMap.t V) :
  Forall P (JsMap.values m) → (∀ v, P v → P (f v)) →
  Forall P (JsMap.values (update_first p f m)).
Proof.
  intros HP Hf. apply Forall_update_first; [done|].
  intros v rest Hfilter. apply Hf.
  assert (In v (List.filter p (JsMap.values m))) as Hin by (rewrite Hfilter; by left).
  apply filter_In in Hin as [Hin _].
  rewrite Forall_forall in HP. apply HP. by apply list_elem_of_In.
Qed.

Lemma attempts_ok_verifyOTP (st : State) (d tok : string) (now : Z) :
  attempts_ok st → attempts_ok (snd (verifyOTP st d tok now)).
Proof.
  intros Hok. unfold verifyOTP.
  destruct (deliverySecrets st !! d) as [secret|]; [|done].
  destruct (truthy secret); simpl; [|done].
  rewrite find_head.
  destruct (List.filter (pending d) (JsMap.values (otpStore st))) as [|r rest] eqn:Hpend;
    simpl; [done|].
  destruct (Z.ltb_spec (expiresAt r) now); [done|].
  destruct (Z.leb_spec 5 (attemptCount r)) as [|Hlt]; [done|].
  assert (attempts_ok (with_otpStore (update_first (pending d) bump) st)) as Hok1.
  { unfold attempts_ok. simpl. apply Forall_update_first; [done|].
    intros v rest' Hv. rewrite Hpend in Hv. injection Hv as <- _. simpl.
    assert (In r (List.filter (pending d) (JsMap.values (otpStore st)))) as Hin
      by (rewrite Hpend; by left).
    apply filter_In in Hin as [Hin _].
    unfold attempts_ok in Hok. rewrite Forall_forall in Hok.
    apply list_elem_of_In, Hok in Hin. lia. }
  destruct (totp_verify tok secret now); simpl; [|done].
  unfold attempts_ok. rewrite otpStore_updateVerification. simpl.
  by apply Forall_update_first_weak.
Qed.

Lemma attempts_ok_step (st : State) (op : Op) :
  attempts_ok st → attempts_ok (step config st op).
Proof.
  intros Hok. destruct op; simpl.
  - done.
  - unfold generateOTP.
    assert (∀ st1 s, otpStore st1 = otpStore st →
              attempts_ok
                (snd (let '(secret, st1) := (s, st1) in
                      (totp_generate secret now, (now + otpTtlSeconds config * 1000)%Z,
                       with_otpStore
                         (JsMap.set fresh
                            {| otp_id := fresh; otp_deliveryId := deliveryId;
                               recipientId := recipient;
                               otpEncrypted :=
                                 Encryption.encrypt config (totp_generate secret now)
                                   deliveryId iv;
                               expiresAt := (now + otpTtlSeconds config * 1000)%Z;
                               createdAt := now; attemptCount := 0;
                               isVerified := false; verifiedAt := None |}) st1))))
      as Hgen.
    { intros st1 s Heq. unfold attempts_ok. simpl. rewrite Heq.
      apply Forall_values_set; [done | simpl; lia]. }
    destruct (deliverySecrets st !! deliveryId) as [s|]; [destruct (truthy s)|];
      by apply Hgen.
  - by apply attempts_ok_verifyOTP.
  - unfold attempts_ok. unfold storeDeliveryPhoto. simpl.
    by rewrite otpStore_updateVerification.
  - unfold attempts_ok. unfold storeSignature. simpl.
    by rewrite otpStore_updateVerification.
  - unfold attempts_ok, verifyGeofence. simpl.
    destruct (Qle_bool _ _); [by rewrite otpStore_updateVerification | done].
  - unfold attempts_ok, createFallbackVerification.
    destruct (String.eqb _ _); [|done].
    by destruct (verificationStore st !! deliveryId).
  - done.
Qed.

Lemma attempts_ok_run (ops : list Op) (st : State) :
  attempts_ok st → attempts_ok (run config st ops).
Proof.
  revert st. induction ops as [|op ops IH]; intros st Hok; [done|].
  simpl. apply IH. by apply attempts_ok_step.
Qed.

End Invariant.

(** C2 (as amended).  A call of [verifyOTP] that reaches the comparison
    adds one to [attemptCount] of the record it found, whether the token is
    accepted or not; when the token is accepted and the delivery has no other
    unverified record, a replay of the token is answered
    [{isValid: false, reason: 'no_pending_otp'}] and changes nothing. *)
Theorem verifyOTP_counts_every_comparison :
  ∀ (otplib : Otplib) (st : State) (d tok : string) (now : Z) (secret : string)
    (r : OTPRecord) (rest : list OTPRecord),
    deliverySecrets st !! d = Some secret → secret ≠ "" →
    pendings d st = r :: rest →
    (now ≤ expiresAt r)%Z → (attemptCount r < 5)%Z →
    let '(res, st') := verifyOTP st d tok now in
    let r' := if isValid res then mark_verified now (bump r) else bump r in
    isValid res = totp_verify tok secret now
    ∧ attemptCount r' = (attemptCount r + 1)%Z
    ∧ (∃ i : nat, JsMap.values (otpStore st) !! i = Some r
                  ∧ JsMap.values (otpStore st')
                    = <[i := r']> (JsMap.values (otpStore st)))
    ∧ (isValid res = true → rest = [] →
       ∀ now' : Z, verifyOTP st' d tok now' = (no_pending_otp, st')).
Proof.
  intros otplib st d tok now secret r rest Hsec Hne Hpend Hexp Hcount.
  rewrite (verifyOTP_compare st d tok now secret r rest) by done.
  destruct (totp_verify tok secret now) eqn:Hvalid; simpl.
  - split; [done|]. split; [done|]. split.
    + rewrite otpStore_updateVerification. simpl.
      exact (values_update_first (pending d) (λ v, mark_verified now (bump v))
               (otpStore st) r rest Hpend).
    + intros _ -> now'. apply verifyOTP_none_pending with (secret := secret).
      * by rewrite deliverySecrets_updateVerification.
      * done.
      * exact (pendings_after_success st d now now r [] Hpend).
  - split; [done|]. split; [done|]. split; [|done].
    exact (values_update_first (pending d) bump (otpStore st) r rest Hpend).
Qed.

(** A store with one unverified record, for delivery "D1" with secret
    "SECRET". *)
Definition one_otp : State :=
  snd (@generateOTP stub_crypto stub_otplib stub_config initial
         "D1" "R1" "SECRET" "otp-1" stub_iv 0).

Lemma verifyOTP_counts_every_comparison_witness :
  let '(res, st') := @verifyOTP stub_otplib one_otp "D1" "SECRET" 1000 in
  isValid res = true
  ∧ List.map attemptCount (JsMap.values (otpStore st')) = [1%Z]
  ∧ @verifyOTP stub_otplib st' "D1" "SECRET" 2000 = (no_pending_otp, st').
Proof.
  pose proof (verifyOTP_counts_every_comparison stub_otplib one_otp "D1" "SECRET" 1000
                "SECRET"
                {| otp_id := "otp-1"; otp_deliveryId := "D1"; recipientId := "R1";
                   otpEncrypted :=
                     @Encryption.encrypt stub_crypto stub_config "SECRET" "D1" stub_iv;
                   expiresAt := 300000; createdAt := 0; attemptCount := 0;
                   isVerified := false; verifiedAt := None |} []
                eq_refl ltac:(discriminate) eq_refl ltac:(simpl; lia) ltac:(simpl; lia))
    as Hthm.
  destruct (@verifyOTP stub_otplib one_otp "D1" "SECRET" 1000) as [res st'] eqn:Hcall.
  destruct Hthm as (Hvalid & _ & (i & Hi & Hstore) & Hreplay).
  assert (isValid res = true) as Hres by (rewrite Hvalid; reflexivity).
  split; [exact Hres|]. split.
  - injection Hcall as <- <-. reflexivity.
  - exact (Hreplay Hres eq_refl 2000%Z).
Defined.

(** C2, as it is stated, fails: the replay of an accepted token against the
    consumed record is answered 'no_pending_otp', not 'invalid_otp'. *)
Lemma replay_is_not_invalid_otp :
  let '(res1, st1) := @verifyOTP stub_otplib one_otp "D1" "SECRET" 1000 in
  let '(res2, st2) := @verifyOTP stub_otplib st1 "D1" "SECRET" 2000 in
  isValid res1 = true
  ∧ isValid res2 = false
  ∧ reason res2 = Some "no_pending_otp"
  ∧ reason res2 ≠ Some "invalid_otp".
Proof. vm_compute. repeat split; discriminate. Qed.

(** C6 (as amended).  In every state that the public operations reach from
    the empty stores, each OTP record has at most 5 attempts.  When the first
    unverified record of a delivery has no attempt yet, five wrong tokens
    presented no later than its expiry are answered 'invalid_otp' with 4, 3, 2,
    1 and 0 remaining attempts, and every later call made no later than the
    expiry, whatever its token, is answered 'max_attempts_exceeded'.  The
    expiry is tested before the attempts: a later call made after the expiry
    is answered 'otp_expired', whatever its token, and no later call changes
    the state. *)
Theorem otp_attempts_bounded :
  ∀ (crypto : NodeCrypto) (otplib : Otplib) (numerics : Numerics) (config : Config),
    (∀ (ops : list Op) (r : OTPRecord),
       r ∈ JsMap.values (otpStore (run config initial ops)) →
       (0 ≤ attemptCount r ≤ 5)%Z)
    ∧ (∀ (st : State) (d secret : string) (r : OTPRecord)
         (wrong later : list (string * Z)),
         deliverySecrets st !! d = Some secret → secret ≠ "" →
         List.find (pending d) (JsMap.values (otpStore st)) = Some r →
         attemptCount r = 0%Z →
         length wrong = 5%nat →
         Forall (λ c, totp_verify c.1 secret c.2 = false ∧ (c.2 ≤ expiresAt r)%Z) wrong →
         Forall (λ c, (c.2 ≤ expiresAt r)%Z) later →
         fst (verify_all st d (wrong ++ later))
         = [invalid_otp 4; invalid_otp 3; invalid_otp 2; invalid_otp 1; invalid_otp 0]
           ++ replicate (length later) max_attempts_exceeded)
    ∧ (∀ (st : State) (d secret : string) (r : OTPRecord)
         (wrong later : list (string * Z)),
         deliverySecrets st !! d = Some secret → secret ≠ "" →
         List.find (pending d) (JsMap.values (otpStore st)) = Some r →
         attemptCount r = 0%Z →
         length wrong = 5%nat →
         Forall (λ c, totp_verify c.1 secret c.2 = false ∧ (c.2 ≤ expiresAt r)%Z) wrong →
         verify_all st d (wrong ++ later)
         = ([invalid_otp 4; invalid_otp 3; invalid_otp 2; invalid_otp 1; invalid_otp 0]
            ++ List.map (λ c, if (expiresAt r <? c.2)%Z then otp_expired
                              else max_attempts_exceeded) later,
            snd (verify_all st d wrong))).
Proof.
  intros crypto otplib numerics config. split; [|split].
  - intros ops r Hin.
    assert (attempts_ok (run config initial ops)) as Hok.
    { apply attempts_ok_run. unfold attempts_ok. simpl. apply Forall_nil_2. }
    unfold attempts_ok in Hok. rewrite Forall_forall in Hok. by apply Hok.
  - intros st d secret r wrong later Hsec Hne Hfind Hzero Hlen Hwrong Hlater.
    rewrite find_head in Hfind.
    destruct (pendings d st) as [|r0 rest] eqn:Hpend;
      unfold pendings in Hpend; rewrite Hpend in Hfind; [done|].
    injection Hfind as ->. fold (pendings d st) in Hpend.
    rewrite verify_all_app.
    destruct (verify_all_wrong wrong st d secret r rest (expiresAt r))
      as (r' & Hres & Hp & Hs & He & Hc); try done.
    { rewrite Hzero, Hlen. lia. }
    destruct (verify_all st d wrong) as [r1 st1]. simpl in *.
    rewrite (verify_all_exhausted later st1 d secret r' rest); try done.
    + rewrite Hres, Hzero, Hlen. reflexivity.
    + rewrite Hc, Hzero, Hlen. lia.
    + by rewrite He.
  - intros st d secret r wrong later Hsec Hne Hfind Hzero Hlen Hwrong.
    rewrite find_head in Hfind.
    destruct (pendings d st) as [|r0 rest] eqn:Hpend;
      unfold pendings in Hpend; rewrite Hpend in Hfind; [done|].
    injection Hfind as ->. fold (pendings d st) in Hpend.
    rewrite verify_all_app.
    destruct (verify_all_wrong wrong st d secret r rest (expiresAt r))
      as (r' & Hres & Hp & Hs & He & Hc); try done.
    { rewrite Hzero, Hlen. lia. }
    destruct (verify_all st d wrong) as [r1 st1]. simpl in *.
    rewrite (verify_all_after_exhaustion later st1 d secret r' rest); try done.
    + rewrite Hres, Hzero, Hlen, He. reflexivity.
    + rewrite Hc, Hzero, Hlen. lia.
Qed.

Lemma otp_attempts_bounded_witness :
  fst (@verify_all stub_otplib one_otp "D1"
         ([("000000", 1000); ("000000", 2000); ("000000", 3000); ("000000", 4000);
           ("000000", 5000)]
          ++ [("000000", 6000); ("SECRET", 7000)]))%Z
  = [invalid_otp 4; invalid_otp 3; invalid_otp 2; invalid_otp 1; invalid_otp 0]
    ++ [max_attempts_exceeded; max_attempts_exceeded]
  ∧ fst (@verify_all stub_otplib one_otp "D1"
           ([("000000", 1000); ("000000", 2000); ("000000", 3000); ("000000", 4000);
             ("000000", 5000)]
            ++ [("000000", 6000); ("SECRET", 300001); ("SECRET", 7000)]))%Z
    = [invalid_otp 4; invalid_otp 3; invalid_otp 2; invalid_otp 1; invalid_otp 0]
      ++ [max_attempts_exceeded; otp_expired; max_attempts_exceeded].
Proof.
  split.
  - apply (proj1 (proj2 (otp_attempts_bounded stub_crypto stub_otplib stub_numerics
                           stub_config))
             one_otp "D1" "SECRET"
             {| otp_id := "otp-1"; otp_deliveryId := "D1"; recipientId := "R1";
                otpEncrypted :=
                  @Encryption.encrypt stub_crypto stub_config "SECRET" "D1" stub_iv;
                expiresAt := 300000; createdAt := 0; attemptCount := 0;
                isVerified := false; verifiedAt := None |}).
    + reflexivity.
    + discriminate.
    + reflexivity.
    + reflexivity.
    + reflexivity.
    + repeat (apply Forall_cons; split; [split; [reflexivity | simpl; lia]|]).
      apply Forall_nil_2.
    + repeat (apply Forall_cons; split; [simpl; lia|]). apply Forall_nil_2.
  - rewrite (proj2 (proj2 (otp_attempts_bounded stub_crypto stub_otplib stub_numerics
                             stub_config))
               one_otp "D1" "SECRET"
               {| otp_id := "otp-1"; otp_deliveryId := "D1"; recipientId := "R1";
                  otpEncrypted :=
                    @Encryption.encrypt stub_crypto stub_config "SECRET" "D1" stub_iv;
                  expiresAt := 300000; createdAt := 0; attemptCount := 0;
                  isVerified := false; verifiedAt := None |}).
    + reflexivity.
    + reflexivity.
    + discriminate.
    + reflexivity.
    + reflexivity.
    + reflexivity.
    + repeat (apply Forall_cons; split; [split; [reflexivity | simpl; lia]|]).
      apply Forall_nil_2.
Defined.

(** C6, as it is stated, fails: after six wrong tokens the record is
    exhausted, and a later call with the correct token, made after the
    expiry of the record, is answered 'otp_expired', not
    'max_attempts_exceeded'. *)
Lemma later_call_after_expiry_is_otp_expired :
  let '(answers, st6) :=
    @verify_all stub_otplib one_otp "D1"
      [("000000", 1000); ("000000", 2000); ("000000", 3000); ("000000", 4000);
       ("000000", 5000); ("000000", 6000)]%Z in
  let '(later, st7) := @verifyOTP stub_otplib st6 "D1" "SECRET" 300001 in
  answers = [invalid_otp 4; invalid_otp 3; invalid_otp 2; invalid_otp 1; invalid_otp 0;
             max_attempts_exceeded]
  ∧ List.map expiresAt (JsMap.values (otpStore st6)) = [300000%Z]
  ∧ List.map attemptCount (JsMap.values (otpStore st6)) = [5%Z]
  ∧ isValid later = false
  ∧ reason later = Some "otp_expired"
  ∧ reason later ≠ Some "max_attempts_exceeded".
Proof. vm_compute. repeat split; discriminate. Qed.

End OtpFacts.

(** ** Delivery verifier: completion of a verification *)

Module VerificationFacts.
Import Encoding Verifier.

(** Every required method is among the completed ones. *)
Definition all_required_done (v : DeliveryVerification) : Prop :=
  ∀ m, m ∈ methodsRequired v → m ∈ methodsCompleted v.

(** The record that [createFallbackVerification] writes. *)
Definition completed_by_fallback (now : Z) (v : DeliveryVerification)
    : DeliveryVerification :=
  {| ver_id := ver_id v; ver_deliveryId := ver_deliveryId v;
     methodsRequired := methodsRequired v; methodsCompleted := [code];
     isComplete := true; completedAt := Some now |}.

(** The record that [initializeVerification] writes. *)
Definition fresh_verification (d : string) (required : list VerificationMethod)
    (fresh : string) : DeliveryVerification :=
  {| ver_id := fresh; ver_deliveryId := d; methodsRequired := required;
     methodsCompleted := []; isComplete := false; completedAt := None |}.

(** The effect of [updateVerification] on the record it finds. *)
Definition record_method (method : VerificationMethod) (now : Z)
    (v : DeliveryVerification) : DeliveryVerification :=
  let completed :=
    if bool_decide (method ∈ methodsCompleted v) then methodsCompleted v
    else methodsCompleted v ++ [method] in
  let allComplete := forallb (λ m, bool_decide (m ∈ completed)) (methodsRequired v) in
  {| ver_id := ver_id v; ver_deliveryId := ver_deliveryId v;
     methodsRequired := methodsRequired v; methodsCompleted := completed;
     isComplete := if allComplete && negb (isComplete v) then true else isComplete v;
     completedAt :=
       if allComplete && negb (isComplete v) then Some now else completedAt v |}.

Lemma updateVerification_store (st : State) (d : string) (method : VerificationMethod)
    (now : Z) :
  verificationStore (updateVerification st d method now)
  = match verificationStore st !! d with
    | Some v => <[d := record_method method now v]> (verificationStore st)
    | None => verificationStore st
    end.
Proof.
  unfold updateVerification, record_method.
  destruct (verificationStore st !! d) as [v|]; [|done]. simpl.
  by destruct (forallb _ _ && negb (isComplete v)).
Qed.

(** How an operation other than [initializeVerification] changes the
    verification store. *)
Inductive store_change (vs : gmap string DeliveryVerification)
  : gmap string DeliveryVerification → Prop :=
| change_none : store_change vs vs
| change_method d v method now :
  vs !! d = Some v → method ≠ code →
  store_change vs (<[d := record_method method now v]> vs)
| change_fallback d v now :
  vs !! d = Some v →
  store_change vs (<[d := completed_by_fallback now v]> vs).

Lemma updateVerification_change (st : State) (d : string) (method : VerificationMethod)
    (now : Z) :
  method ≠ code →
  store_change (verificationStore st)
    (verificationStore (updateVerification st d method now)).
Proof.
  intros Hm. rewrite updateVerification_store.
  destruct (verificationStore st !! d) as [v|] eqn:Hv; [|constructor].
  by apply change_method.
Qed.

Section WithRuntime.
Context `{NodeCrypto} `{Otplib} `{Numerics}.
Variable config : Config.

Lemma verifyOTP_change (st : State) (d tok : string) (now : Z) :
  store_change (verificationStore st) (verificationStore (snd (verifyOTP st d tok now))).
Proof.
  unfold verifyOTP.
  destruct (deliverySecrets st !! d) as [secret|]; [|constructor].
  destruct (truthy secret); simpl; [|constructor].
  destruct (List.find _ _) as [r|]; [|constructor].
  destruct (_ <? _)%Z; [constructor|].
  destruct (_ <=? _)%Z; [constructor|].
  destruct (totp_verify tok secret now); simpl; [|constructor].
  match goal with
  | |- store_change _ (verificationStore (updateVerification ?s _ _ _)) =>
      change (verificationStore st) with (verificationStore s)
  end.
  by apply updateVerification_change.
Qed.

Lemma step_change (st : State) (op : Op) :
  match op with
  | InitializeVerification d required fresh =>
      verificationStore (step config st op)
      = <[d := fresh_verification d required fresh]> (verificationStore st)
  | _ => store_change (verificationStore st) (verificationStore (step config st op))
  end.
Proof.
  destruct op; simpl.
  - done.
  - unfold generateOTP.
    destruct (deliverySecrets st !! deliveryId) as [s|]; [destruct (truthy s)|];
      simpl; constructor.
  - apply verifyOTP_change.
  - unfold storeDeliveryPhoto. simpl.
    match goal with
    | |- store_change _ (verificationStore (updateVerification ?s _ _ _)) =>
        change (verificationStore st) with (verificationStore s)
    end.
    by apply updateVerification_change.
  - unfold storeSignature. simpl.
    match goal with
    | |- store_change _ (verificationStore (updateVerification ?s _ _ _)) =>
        change (verificationStore st) with (verificationStore s)
    end.
    by apply updateVerification_change.
  - unfold verifyGeofence. simpl.
    destruct (Qle_bool _ _); [by apply updateVerification_change | constructor].
  - unfold createFallbackVerification.
    destruct (String.eqb _ _); [|constructor].
    destruct (verificationStore st !! deliveryId) as [v|] eqn:Hv; [|constructor].
    simpl. by apply change_fallback.
  - constructor.
Qed.

End WithRuntime.
Lemma isDeliveryVerified_true (st : State) (d : string) :
  isDeliveryVerified st d = true
  ↔ ∃ v, verificationStore st !! d = Some v ∧ isComplete v = true.
Proof.
  unfold isDeliveryVerified. destruct (verificationStore st !! d) as [v|].
  - split; [eauto | by intros (v' & [= <-] & Hc)].
  - split; [done | by intros (v' & Hv & _)].
Qed.

Lemma record_method_complete (method : VerificationMethod) (now : Z)
    (v : DeliveryVerification) :
  isComplete (record_method method now v) = true
  ↔ isComplete v = true ∨ all_required_done (record_method method now v).
Proof.
  unfold all_required_done, record_method. cbn [isComplete methodsRequired methodsCompleted].
  set (completed := if bool_decide (method ∈ methodsCompleted v)
                    then methodsCompleted v else methodsCompleted v ++ [method]).
  destruct (forallb _ (methodsRequired v)) eqn:Hall.
  - rewrite forallb_forall in Hall.
    assert (∀ m, m ∈ methodsRequired v → m ∈ completed) as Hdone.
    { intros m Hm. apply list_elem_of_In, Hall in Hm. by apply bool_decide_eq_true in Hm. }
    destruct (isComplete v); simpl; split; auto.
  - simpl. split; [auto|]. intros [Hc | Hdone]; [done|].
    assert (forallb (λ m, bool_decide (m ∈ completed)) (methodsRequired v) = true)
      as Hall'; [|congruence].
    apply forallb_forall. intros m Hm. apply bool_decide_eq_true, Hdone.
    by apply list_elem_of_In.
Qed.

Lemma record_method_completed (method : VerificationMethod) (now : Z)
    (v : DeliveryVerification) (m : VerificationMethod) :
  m ∈ methodsCompleted (record_method method now v)
  ↔ m ∈ methodsCompleted v ∨ m = method.
Proof.
  unfold record_method. simpl. case_bool_decide as Hin.
  - split; [auto|]. by intros [? | ->].
  - rewrite elem_of_app, list_elem_of_singleton. done.
Qed.

(** What holds of every record that the operations produce. *)
Definition coherent (v : DeliveryVerification) : Prop :=
  (isComplete v = true → all_required_done v ∨ code ∈ methodsCompleted v)
  ∧ (all_required_done v → methodsCompleted v ≠ [] → isComplete v = true)
  ∧ (code ∈ methodsCompleted v → isComplete v = true).

Lemma coherent_fresh (d : string) (required : list VerificationMethod) (fresh : string) :
  coherent (fresh_verification d required fresh).
Proof.
  unfold coherent. simpl. split; [done|]. split; [done|].
  intros Hin. by apply elem_of_nil in Hin.
Qed.

Lemma coherent_fallback (now : Z) (v : DeliveryVerification) :
  coherent (completed_by_fallback now v).
Proof.
  unfold coherent. simpl. split; [|done]. intros _. right. apply list_elem_of_singleton. done.
Qed.

Lemma coherent_record_method (method : VerificationMethod) (now : Z)
    (v : DeliveryVerification) :
  method ≠ code → coherent v → coherent (record_method method now v).
Proof.
  intros Hm (H1 & H2 & H3). unfold coherent.
  rewrite record_method_complete, record_method_completed.
  split; [|split].
  - intros [Hc | Hdone]; [|by left].
    destruct (H1 Hc) as [Hdone | Hcode]; [left | right; by left].
    intros m Hreq. apply record_method_completed. left. by apply Hdone.
  - intros Hdone _. by right.
  - intros [Hcode | Heq]; [left; by apply H3 | done].
Qed.

Lemma store_change_coherent (vs vs' : gmap string DeliveryVerification) :
  store_change vs vs' →
  (∀ d v, vs !! d = Some v → coherent v) →
  ∀ d v, vs' !! d = Some v → coherent v.
Proof.
  intros Hchange Hvs d v. destruct Hchange as [|d0 v0 method now Hv0 Hm|d0 v0 now Hv0].
  - apply Hvs.
  - destruct (decide (d0 = d)) as [->|Hne].
    + rewrite lookup_insert_eq. intros [= <-].
      apply coherent_record_method; [done | by eapply Hvs].
    + rewrite lookup_insert_ne by done. apply Hvs.
  - destruct (decide (d0 = d)) as [->|Hne].
    + rewrite lookup_insert_eq. intros [= <-]. apply coherent_fallback.
    + rewrite lookup_insert_ne by done. apply Hvs.
Qed.

Lemma store_change_complete (vs vs' : gmap string DeliveryVerification) (d : string)
    (v : DeliveryVerification) :
  store_change vs vs' → vs !! d = Some v → isComplete v = true →
  ∃ v', vs' !! d = Some v' ∧ isComplete v' = true.
Proof.
  intros Hchange Hv Hc. destruct Hchange as [|d0 v0 method now Hv0 Hm|d0 v0 now Hv0].
  - eauto.
  - destruct (decide (d0 = d)) as [->|Hne].
    + rewrite lookup_insert_eq. eexists. split; [done|].
      apply record_method_complete. left. congruence.
    + rewrite lookup_insert_ne by done. eauto.
  - destruct (decide (d0 = d)) as [->|Hne].
    + rewrite lookup_insert_eq. eexists. split; done.
    + rewrite lookup_insert_ne by done. eauto.
Qed.

Section Runs.
Context `{NodeCrypto} `{Otplib} `{Numerics}.
Variable config : Config.

Lemma step_complete (st : State) (op : Op) (d : string) :
  initializes d op = false →
  isDeliveryVerified st d = true → isDeliveryVerified (step config st op) d = true.
Proof.
  intros Hinit Hd. apply isDeliveryVerified_true in Hd as (v & Hv & Hc).
  apply isDeliveryVerified_true.
  pose proof (step_change config st op) as Hstep.
  destruct op;
    try (by eapply store_change_complete).
  rewrite Hstep. simpl in Hinit. apply String.eqb_neq in Hinit.
  rewrite lookup_insert_ne by done. eauto.
Qed.

Lemma run_complete (ops : list Op) (st : State) (d : string) :
  Forall (λ op, initializes d op = false) ops →
  isDeliveryVerified st d = true → isDeliveryVerified (run config st ops) d = true.
Proof.
  revert st. induction ops as [|op ops IH]; intros st Hops Hd; [done|].
  apply Forall_cons in Hops as [Hop Hops]. simpl. apply IH; [done|].
  by apply step_complete.
Qed.

Lemma step_coherent (st : State) (op : Op) :
  (∀ d v, verificationStore st !! d = Some v → coherent v) →
  ∀ d v, verificationStore (step config st op) !! d = Some v → coherent v.
Proof.
  intros Hst. pose proof (step_change config st op) as Hstep.
  destruct op; try (by eapply store_change_coherent).
  rewrite Hstep. intros d v.
  destruct (decide (deliveryId = d)) as [->|Hne].
  - rewrite lookup_insert_eq. intros [= <-]. apply coherent_fresh.
  - rewrite lookup_insert_ne by done. apply Hst.
Qed.

Lemma run_coherent (ops : list Op) (st : State) :
  (∀ d v, verificationStore st !! d = Some v → coherent v) →
  ∀ d v, verificationStore (run config st ops) !! d = Some v → coherent v.
Proof.
  revert st. induction ops as [|op ops IH]; intros st Hst; [done|].
  simpl. apply IH. by apply step_coherent.
Qed.

End Runs.

Lemma filter_none_completed (required : list VerificationMethod) :
  List.filter (λ m, negb (bool_decide (m ∈ @nil VerificationMethod))) required = required.
Proof.
  induction required as [|m l IH]; [done|]. cbn [List.filter].
  rewrite (bool_decide_eq_false_2 (m ∈ [])) by apply not_elem_of_nil.
  cbn [negb]. by rewrite IH.
Qed.

(** C4 (as amended).  Once a delivery is verified, it stays verified through
    every sequence of [verifyOTP], [storeDeliveryPhoto], [storeSignature],
    [verifyGeofence], [createFallbackVerification], [generateOTP] and
    [generateDeliverySecret], and through [initializeVerification] of other
    deliveries.  [initializeVerification] of the delivery itself replaces
    its record, whatever it was, by a fresh one: the new id, the required
    methods of the call, no completed method, not complete and without
    completion time; every required method is pending again, and the
    records of other deliveries are untouched. *)
Theorem completeness_kept_until_reinitialized :
  ∀ (crypto : NodeCrypto) (otplib : Otplib) (numerics : Numerics) (config : Config),
    (∀ (st : State) (ops : list Op) (d : string),
       isDeliveryVerified st d = true →
       Forall (λ op, initializes d op = false) ops →
       isDeliveryVerified (run config st ops) d = true)
    ∧ (∀ (st : State) (d : string) (required : list VerificationMethod) (fresh : string),
         let fresh_record :=
           {| ver_id := fresh; ver_deliveryId := d; methodsRequired := required;
              methodsCompleted := []; isComplete := false; completedAt := None |} in
         let r := initializeVerification st d required fresh in
         fst r = fresh_record
         ∧ getVerificationStatus (snd r) d = Some fresh_record
         ∧ isDeliveryVerified (snd r) d = false
         ∧ getPendingMethods (snd r) d = required
         ∧ (∀ other, other ≠ d →
              getVerificationStatus (snd r) other = getVerificationStatus st other)).
Proof.
  intros crypto otplib numerics config. split.
  - intros st ops d Hd Hops. by apply run_complete.
  - intros st d required fresh. cbv zeta.
    unfold isDeliveryVerified, getVerificationStatus, getPendingMethods,
      initializeVerification.
    simpl. rewrite lookup_insert_eq. simpl.
    split; [done|]. split; [done|]. split; [done|].
    split; [apply filter_none_completed|].
    intros other Hother. by rewrite lookup_insert_ne.
Qed.

(** A delivery that requires a photo, after the photo has been stored. *)
Definition photo_done : State :=
  @run stub_crypto stub_otplib stub_numerics stub_config initial
    [InitializeVerification "D1" [photo] "v-1";
     StoreDeliveryPhoto "D1" [Byte.xff; Byte.xd8] 1%Q 1%Q "image/jpeg" None "p-1" stub_iv 5].

(** The fallback code of a delivery under the stand-in runtime. *)
Definition fallback_code (d : string) : string :=
  toUpperCase (substring0 8 (@Hashing.hmacSha256 stub_crypto d (hmacSecret stub_config))).

(** Operations that write the record of the verified delivery "D1": a
    signature, a position inside the geofence, an accepted OTP, the accepted
    fallback code and a second photo; and the initialization of another
    delivery. *)
Definition later_ops : list Op :=
  [StoreSignature "D1" "signature-data" (Some "Asha") "s-1" stub_iv stub_iv 6;
   VerifyGeofence "D1" EmergencyFacts.nairobi EmergencyFacts.nairobi None 7;
   GenerateOTP "D1" "R1" "SECRET" "otp-1" stub_iv 8;
   VerifyOTP "D1" "SECRET" 9;
   InitializeVerification "D2" [otp] "v-2";
   CreateFallbackVerification "D1" (fallback_code "D1") 10;
   StoreDeliveryPhoto "D1" [Byte.xff; Byte.xd9] 1%Q 1%Q "image/jpeg" None "p-2" stub_iv 11].

Lemma completeness_kept_until_reinitialized_witness :
  getVerificationStatus photo_done "D1"
  = Some {| ver_id := "v-1"; ver_deliveryId := "D1"; methodsRequired := [photo];
            methodsCompleted := [photo]; isComplete := true; completedAt := Some 5%Z |}
  ∧ getVerificationStatus
      (@run stub_crypto stub_otplib stub_numerics stub_config photo_done
         [StoreSignature "D1" "signature-data" (Some "Asha") "s-1" stub_iv stub_iv 6;
          VerifyGeofence "D1" EmergencyFacts.nairobi EmergencyFacts.nairobi None 7;
          GenerateOTP "D1" "R1" "SECRET" "otp-1" stub_iv 8;
          VerifyOTP "D1" "SECRET" 9]) "D1"
    = Some {| ver_id := "v-1"; ver_deliveryId := "D1"; methodsRequired := [photo];
              methodsCompleted := [photo; signature; geofence; otp];
              isComplete := true; completedAt := Some 5%Z |}
  ∧ getVerificationStatus
      (@run stub_crypto stub_otplib stub_numerics stub_config photo_done later_ops) "D1"
    = Some {| ver_id := "v-1"; ver_deliveryId := "D1"; methodsRequired := [photo];
              methodsCompleted := [code; photo]; isComplete := true;
              completedAt := Some 10%Z |}
  ∧ isDeliveryVerified
      (@run stub_crypto stub_otplib stub_numerics stub_config photo_done later_ops) "D1"
    = true
  ∧ getVerificationStatus
      (snd (initializeVerification
              (@run stub_crypto stub_otplib stub_numerics stub_config photo_done
                 later_ops) "D1" [photo; otp] "v-3")) "D1"
    = Some {| ver_id := "v-3"; ver_deliveryId := "D1"; methodsRequired := [photo; otp];
              methodsCompleted := []; isComplete := false; completedAt := None |}.
Proof.
  split; [vm_compute; reflexivity|]. split; [vm_compute; reflexivity|].
  split; [vm_compute; reflexivity|]. split.
  - apply (proj1 (completeness_kept_until_reinitialized
                    stub_crypto stub_otplib stub_numerics stub_config));
      [vm_compute; reflexivity|].
    repeat (apply Forall_cons; split; [reflexivity|]). apply Forall_nil_2.
  - apply (proj2 (completeness_kept_until_reinitialized
                    stub_crypto stub_otplib stub_numerics stub_config)).
Defined.

(** C4, as it is stated, fails: [initializeVerification] of a verified
    delivery makes it unverified again. *)
Lemma reinitialization_reverts_completeness :
  isDeliveryVerified photo_done "D1" = true
  ∧ isDeliveryVerified (snd (initializeVerification photo_done "D1" [photo] "v-2")) "D1"
    = false.
Proof. vm_compute. split; reflexivity. Qed.

(** *** The fallback code in a run *)

(** A completed record has at least one completed method. *)
Definition recorded (v : DeliveryVerification) : Prop :=
  isComplete v = true → methodsCompleted v ≠ [].

Lemma record_method_nonempty (method : VerificationMethod) (now : Z)
    (v : DeliveryVerification) :
  methodsCompleted (record_method method now v) ≠ [].
Proof.
  unfold record_method. simpl. case_bool_decide as Hin.
  - intros Hnil. rewrite Hnil in Hin. by apply elem_of_nil in Hin.
  - intros Hnil. by apply app_eq_nil in Hnil as [_ ?].
Qed.

Lemma store_change_recorded (vs vs' : gmap string DeliveryVerification) :
  store_change vs vs' →
  (∀ d v, vs !! d = Some v → recorded v) →
  ∀ d v, vs' !! d = Some v → recorded v.
Proof.
  intros Hchange Hvs d v. destruct Hchange as [|d0 v0 method now Hv0 Hm|d0 v0 now Hv0].
  - apply Hvs.
  - destruct (decide (d0 = d)) as [->|Hne].
    + rewrite lookup_insert_eq. intros [= <-] _. apply record_method_nonempty.
    + rewrite lookup_insert_ne by done. apply Hvs.
  - destruct (decide (d0 = d)) as [->|Hne].
    + rewrite lookup_insert_eq. by intros [= <-] _.
    + rewrite lookup_insert_ne by done. apply Hvs.
Qed.

Lemma store_change_exists (vs vs' : gmap string DeliveryVerification) (d : string)
    (v' : DeliveryVerification) :
  store_change vs vs' → vs' !! d = Some v' → ∃ v, vs !! d = Some v.
Proof.
  intros Hchange Hv'. destruct Hchange as [|d1 v1 method now Hv1 Hm|d1 v1 now Hv1].
  - by exists v'.
  - destruct (decide (d1 = d)) as [->|Hne]; [by exists v1|].
    rewrite lookup_insert_ne in Hv' by done. by exists v'.
  - destruct (decide (d1 = d)) as [->|Hne]; [by exists v1|].
    rewrite lookup_insert_ne in Hv' by done. by exists v'.
Qed.

(** A change of the verification store by [updateVerification] alone. *)
Definition method_change (vs vs' : gmap string DeliveryVerification) : Prop :=
  vs' = vs
  ∨ ∃ d v method now,
      vs !! d = Some v ∧ method ≠ code ∧ vs' = <[d := record_method method now v]> vs.

Lemma updateVerification_method (st : State) (d : string) (method : VerificationMethod)
    (now : Z) :
  method ≠ code →
  method_change (verificationStore st)
    (verificationStore (updateVerification st d method now)).
Proof.
  intros Hm. rewrite updateVerification_store.
  destruct (verificationStore st !! d) as [v|] eqn:Hv; [|by left].
  right. by exists d, v, method, now.
Qed.

Lemma method_change_code (vs vs' : gmap string DeliveryVerification) (d : string)
    (v' : DeliveryVerification) :
  method_change vs vs' → vs' !! d = Some v' →
  ∃ v, vs !! d = Some v ∧ (code ∈ methodsCompleted v' ↔ code ∈ methodsCompleted v).
Proof.
  intros [->|(d0 & v0 & method & now & Hv0 & Hm & ->)] Hv'; [by exists v'|].
  destruct (decide (d0 = d)) as [->|Hne].
  - rewrite lookup_insert_eq in Hv'. injection Hv' as <-. exists v0. split; [done|].
    rewrite record_method_completed. split; [|by left].
    intros [?|Heq]; [done|]. symmetry in Heq. contradiction.
  - rewrite lookup_insert_ne in Hv' by done. by exists v'.
Qed.

Section Fallback.
Context `{NodeCrypto} `{Otplib} `{Numerics}.
Variable config : Config.

(** The code that [createFallbackVerification] expects for a delivery. *)
Definition expectedCode (d : string) : string :=
  toUpperCase (substring0 8 (Hashing.hmacSha256 d (hmacSecret config))).

(** In the run [ops] a fallback verification of [d] has succeeded since the
    last initialization of [d]: a [createFallbackVerification] for [d]
    has answered [isValid: true], and no later operation of the run
    initializes [d]. *)
Definition fallback_succeeded (d : string) (ops : list Op) : Prop :=
  ∃ pre c now post,
    ops = pre ++ CreateFallbackVerification d c now :: post
    ∧ fst (createFallbackVerification config (run config initial pre) d c now) = true
    ∧ Forall (λ op, initializes d op = false) post.

Lemma createFallbackVerification_fst (st : State) (d c : string) (now : Z) :
  fst (createFallbackVerification config st d c now)
  = String.eqb (toUpperCase c) (expectedCode d).
Proof.
  unfold createFallbackVerification, expectedCode.
  destruct (String.eqb _ _); [|done]. by destruct (verificationStore st !! d).
Qed.

Lemma createFallbackVerification_accepted (st : State) (d c : string) (now : Z)
    (v : DeliveryVerification) :
  verificationStore st !! d = Some v →
  String.eqb (toUpperCase c) (expectedCode d) = true →
  createFallbackVerification config st d c now
  = (true, with_verificationStore (λ s, <[d := completed_by_fallback now v]> s) st).
Proof.
  unfold createFallbackVerification, expectedCode. by intros -> ->.
Qed.

Lemma createFallbackVerification_refused (st : State) (d c : string) (now : Z) :
  String.eqb (toUpperCase c) (expectedCode d) = false →
  createFallbackVerification config st d c now = (false, st).
Proof. unfold createFallbackVerification, expectedCode. by intros ->. Qed.

Lemma createFallbackVerification_no_record (st : State) (d c : string) (now : Z) :
  verificationStore st !! d = None →
  snd (createFallbackVerification config st d c now) = st.
Proof.
  unfold createFallbackVerification. intros ->. by destruct (String.eqb _ _).
Qed.

Lemma verifyOTP_method (st : State) (d tok : string) (now : Z) :
  method_change (verificationStore st) (verificationStore (snd (verifyOTP st d tok now))).
Proof.
  unfold verifyOTP.
  destruct (deliverySecrets st !! d) as [secret|]; [|by left].
  destruct (truthy secret); simpl; [|by left].
  destruct (List.find _ _) as [r|]; [|by left].
  destruct (_ <? _)%Z; [by left|].
  destruct (_ <=? _)%Z; [by left|].
  destruct (totp_verify tok secret now); simpl; [|by left].
  match goal with
  | |- method_change _ (verificationStore (updateVerification ?s _ _ _)) =>
      change (verificationStore st) with (verificationStore s)
  end.
  by apply updateVerification_method.
Qed.

(** The operations other than [initializeVerification] and
    [createFallbackVerification] change the verification store through
    [updateVerification] only. *)
Lemma step_method_change (st : State) (op : Op) :
  match op with
  | InitializeVerification _ _ _ | CreateFallbackVerification _ _ _ => True
  | _ => method_change (verificationStore st) (verificationStore (step config st op))
  end.
Proof.
  destruct op; simpl; try done.
  - unfold generateOTP.
    destruct (deliverySecrets st !! deliveryId) as [s|]; [destruct (truthy s)|];
      simpl; by left.
  - apply verifyOTP_method.
  - unfold storeDeliveryPhoto. simpl.
    match goal with
    | |- method_change _ (verificationStore (updateVerification ?s _ _ _)) =>
        change (verificationStore st) with (verificationStore s)
    end.
    by apply updateVerification_method.
  - unfold storeSignature. simpl.
    match goal with
    | |- method_change _ (verificationStore (updateVerification ?s _ _ _)) =>
        change (verificationStore st) with (verificationStore s)
    end.
    by apply updateVerification_method.
  - unfold verifyGeofence. simpl.
    destruct (Qle_bool _ _); [by apply updateVerification_method | by left].
  - by left.
Qed.

(** When [code] is among the completed methods after an operation. *)
Lemma step_code_completed (st : State) (op : Op) (d : string)
    (v' : DeliveryVerification) :
  verificationStore (step config st op) !! d = Some v' →
  (code ∈ methodsCompleted v'
   ↔ (∃ v, verificationStore st !! d = Some v ∧ code ∈ methodsCompleted v
           ∧ initializes d op = false)
     ∨ (∃ c now, op = CreateFallbackVerification d c now
                 ∧ fst (createFallbackVerification config st d c now) = true)).
Proof.
  intros Hv'. pose proof (step_method_change st op) as Hstep.
  destruct op as [d0 required fresh| | | | | |d0 c now|];
    try (destruct (method_change_code _ _ d v' Hstep Hv') as (v & Hv & Hiff);
         rewrite Hiff; split;
         [intros Hcode; left; by exists v
         |intros [(v0 & Hv0 & Hcode & _)|(c0 & now0 & Hop & _)]; [congruence|done]]).
  - simpl in *. destruct (decide (d0 = d)) as [->|Hne].
    + rewrite lookup_insert_eq in Hv'. injection Hv' as <-. simpl.
      rewrite String.eqb_refl. split.
      * intros Hin. by apply elem_of_nil in Hin.
      * intros [(v0 & _ & _ & ?)|(c0 & now0 & ? & _)]; done.
    + rewrite lookup_insert_ne in Hv' by done.
      assert (String.eqb d0 d = false) as -> by by apply String.eqb_neq.
      split.
      * intros Hcode. left. by exists v'.
      * intros [(v0 & Hv0 & Hcode & _)|(c0 & now0 & ? & _)]; [congruence|done].
  - simpl in Hv'.
    destruct (String.eqb (toUpperCase c) (expectedCode d0)) eqn:Hvalid.
    + destruct (verificationStore st !! d0) as [v0|] eqn:Hv0.
      * rewrite (createFallbackVerification_accepted st d0 c now v0) in Hv' by done.
        simpl in Hv'. destruct (decide (d0 = d)) as [->|Hne].
        -- rewrite lookup_insert_eq in Hv'. injection Hv' as <-. simpl. split.
           ++ intros _. right. exists c, now. split; [done|].
              by rewrite createFallbackVerification_fst.
           ++ intros _. apply list_elem_of_singleton. done.
        -- rewrite lookup_insert_ne in Hv' by done. split.
           ++ intros Hcode. left. by exists v'.
           ++ intros [(v1 & Hv1 & Hcode & _)|(c1 & now1 & [= -> _ _] & _)];
                [congruence|done].
      * rewrite createFallbackVerification_no_record in Hv' by done. split.
        -- intros Hcode. left. by exists v'.
        -- intros [(v1 & Hv1 & Hcode & _)|(c1 & now1 & [= -> _ _] & _)];
             congruence.
    + rewrite createFallbackVerification_refused in Hv' by done. simpl in Hv'. split.
      * intros Hcode. left. by exists v'.
      * intros [(v1 & Hv1 & Hcode & _)|(c1 & now1 & [= -> -> _] & Hfst)].
        -- congruence.
        -- rewrite createFallbackVerification_fst in Hfst. congruence.
Qed.

(** Only [initializeVerification] creates a record. *)
Lemma step_record_exists (st : State) (op : Op) (d : string) (v' : DeliveryVerification) :
  verificationStore (step config st op) !! d = Some v' → initializes d op = false →
  ∃ v, verificationStore st !! d = Some v.
Proof.
  intros Hv' Hinit. pose proof (step_change config st op) as Hstep.
  destruct op as [d0 required fresh| | | | | | |];
    try (by eapply store_change_exists).
  rewrite Hstep in Hv'. simpl in Hinit. apply String.eqb_neq in Hinit.
  rewrite lookup_insert_ne in Hv' by done. by exists v'.
Qed.

Lemma run_snoc (st : State) (ops : list Op) (op : Op) :
  run config st (ops ++ [op]) = step config (run config st ops) op.
Proof. unfold run. by rewrite fold_left_app. Qed.

Lemma fallback_succeeded_snoc (d : string) (ops : list Op) (op : Op) :
  fallback_succeeded d (ops ++ [op])
  ↔ (fallback_succeeded d ops ∧ initializes d op = false)
    ∨ (∃ c now, op = CreateFallbackVerification d c now
                ∧ fst (createFallbackVerification config (run config initial ops) d c now)
                  = true).
Proof.
  split.
  - intros (pre & c & now & post & Heq & Hvalid & Hpost).
    destruct post as [|x post _] using rev_ind.
    + apply (app_inj_tail ops pre) in Heq as [-> ->]. right. by exists c, now.
    + rewrite app_comm_cons, app_assoc in Heq.
      apply app_inj_tail in Heq as [-> ->].
      apply Forall_app in Hpost as [Hpost Hx]. rewrite Forall_singleton in Hx.
      left. split; [|exact Hx]. by exists pre, c, now, post.
  - intros [[(pre & c & now & post & -> & Hvalid & Hpost) Hinit]|(c & now & -> & Hvalid)].
    + exists pre, c, now, (post ++ [op]). split; [by rewrite <- app_assoc|].
      split; [done|]. apply Forall_app. split; [done|]. by apply Forall_singleton.
    + exists ops, c, now, []. split; [done|]. split; [done|]. apply Forall_nil_2.
Qed.

(** In a run from the empty stores, [code] is among the completed methods of
    a record exactly when a fallback verification has succeeded since its
    initialization. *)
Lemma code_completed_iff (ops : list Op) :
  ∀ (d : string) (v : DeliveryVerification),
    verificationStore (run config initial ops) !! d = Some v →
    (code ∈ methodsCompleted v ↔ fallback_succeeded d ops).
Proof.
  induction ops as [|op ops IH] using rev_ind; intros d v Hv.
  - simpl in Hv. by rewrite lookup_empty in Hv.
  - rewrite run_snoc in Hv.
    rewrite (step_code_completed _ _ _ _ Hv), fallback_succeeded_snoc.
    split; (intros [Hleft|Hright]; [left | by right]).
    + destruct Hleft as (v0 & Hv0 & Hcode & Hinit). split; [|done]. by apply (IH d v0).
    + destruct Hleft as [Hfs Hinit].
      destruct (step_record_exists _ _ _ _ Hv Hinit) as [v0 Hv0].
      exists v0. split; [done|]. split; [|done]. by apply (IH d v0).
Qed.

Lemma run_recorded (ops : list Op) (st : State) :
  (∀ d v, verificationStore st !! d = Some v → recorded v) →
  ∀ d v, verificationStore (run config st ops) !! d = Some v → recorded v.
Proof.
  revert st. induction ops as [|op ops IH]; intros st Hst; [done|].
  simpl. apply IH. pose proof (step_change config st op) as Hstep.
  destruct op; try (by eapply store_change_recorded).
  rewrite Hstep. intros d v.
  destruct (decide (deliveryId = d)) as [->|Hne].
  - rewrite lookup_insert_eq. by intros [= <-].
  - rewrite lookup_insert_ne by done. apply Hst.
Qed.

End Fallback.

(** C5 (as amended).  In every state that the public operations reach from
    the empty stores, a verification record is complete exactly when every
    required method is completed and at least one method has been recorded,
    or a fallback verification has succeeded since the record was
    initialized; for a record with a non-empty required set this is: exactly
    when every required method is completed or a fallback verification has
    succeeded since initialization.  [code] is among the completed methods
    exactly when such a fallback has succeeded.  [createFallbackVerification]
    accepts the code that equals, in upper case, the first 8 characters of
    the HMAC of the delivery id in upper case; an accepted call on a delivery
    with a record sets [isComplete] to true and the completed methods to
    [[code]], whatever the required set; a refused call changes nothing. *)
Theorem complete_iff_required_done_or_fallback :
  ∀ (crypto : NodeCrypto) (otplib : Otplib) (numerics : Numerics) (config : Config),
    (∀ (ops : list Op) (d : string) (v : DeliveryVerification),
       verificationStore (run config initial ops) !! d = Some v →
       (isComplete v = true
        ↔ ((∀ m, m ∈ methodsRequired v → m ∈ methodsCompleted v)
           ∧ methodsCompleted v ≠ [])
          ∨ fallback_succeeded config d ops)
       ∧ (methodsRequired v ≠ [] →
          (isComplete v = true
           ↔ (∀ m, m ∈ methodsRequired v → m ∈ methodsCompleted v)
             ∨ fallback_succeeded config d ops))
       ∧ (code ∈ methodsCompleted v ↔ fallback_succeeded config d ops))
    ∧ (∀ (st : State) (d c : string) (now : Z),
         let r := createFallbackVerification config st d c now in
         fst r
         = String.eqb (toUpperCase c)
             (toUpperCase (substring0 8 (Hashing.hmacSha256 d (hmacSecret config))))
         ∧ (fst r = false → snd r = st)
         ∧ (∀ v, verificationStore st !! d = Some v → fst r = true →
              snd r
              = with_verificationStore
                  (λ s, <[d := {| ver_id := ver_id v; ver_deliveryId := ver_deliveryId v;
                                  methodsRequired := methodsRequired v;
                                  methodsCompleted := [code]; isComplete := true;
                                  completedAt := Some now |}]> s) st
              ∧ isDeliveryVerified (snd r) d = true)).
Proof.
  intros crypto otplib numerics config. split.
  - intros ops d v Hv.
    assert (coherent v) as (H1 & H2 & H3).
    { eapply (run_coherent config ops initial); [|exact Hv].
      intros d' v'. simpl. by rewrite lookup_empty. }
    assert (recorded v) as Hrec.
    { eapply (run_recorded config ops initial); [|exact Hv].
      intros d' v'. simpl. by rewrite lookup_empty. }
    pose proof (code_completed_iff config ops d v Hv) as Hcode.
    split; [|split; [|exact Hcode]].
    + split.
      * intros Hc. destruct (H1 Hc) as [Hdone|Hin]; [left | right; by apply Hcode].
        split; [exact Hdone | by apply Hrec].
      * intros [[Hdone Hne]|Hfs]; [by apply H2 | by apply H3, Hcode].
    + intros Hreq. split.
      * intros Hc. destruct (H1 Hc) as [Hdone|Hin]; [by left | right; by apply Hcode].
      * intros [Hdone|Hfs]; [|by apply H3, Hcode].
        apply H2; [exact Hdone|].
        destruct (methodsRequired v) as [|m ms] eqn:Hms; [done|].
        intros Hnil. specialize (Hdone m). rewrite Hnil in Hdone.
        eapply elem_of_nil, Hdone. by left.
  - intros st d c now r. subst r. rewrite createFallbackVerification_fst.
    split; [done|]. split.
    + intros Hrefused. by rewrite createFallbackVerification_refused.
    + intros v Hv Haccepted.
      rewrite (createFallbackVerification_accepted config st d c now v) by done.
      split; [done|]. unfold isDeliveryVerified. simpl. by rewrite lookup_insert_eq.
Qed.

(** A delivery that requires an OTP and a photo, after the fallback code has
    been accepted. *)
Definition fallback_ops : list Op :=
  [InitializeVerification "D4" [otp; photo] "v-1";
   CreateFallbackVerification "D4" (fallback_code "D4") 10].

Definition fallback_record : DeliveryVerification :=
  {| ver_id := "v-1"; ver_deliveryId := "D4"; methodsRequired := [otp; photo];
     methodsCompleted := [code]; isComplete := true; completedAt := Some 10%Z |}.

Lemma complete_iff_required_done_or_fallback_witness :
  verificationStore
    (@run stub_crypto stub_otplib stub_numerics stub_config initial fallback_ops) !! "D4"
  = Some fallback_record
  ∧ (isComplete fallback_record = true
     ↔ (∀ m, m ∈ methodsRequired fallback_record → m ∈ methodsCompleted fallback_record)
       ∨ @fallback_succeeded stub_crypto stub_otplib stub_numerics stub_config "D4"
           fallback_ops)
  ∧ (code ∈ methodsCompleted fallback_record
     ↔ @fallback_succeeded stub_crypto stub_otplib stub_numerics stub_config "D4"
         fallback_ops)
  ∧ snd (@createFallbackVerification stub_crypto stub_config
           (@run stub_crypto stub_otplib stub_numerics stub_config initial
              [InitializeVerification "D4" [otp; photo] "v-1"])
           "D4" (fallback_code "D4") 10)
    = @run stub_crypto stub_otplib stub_numerics stub_config initial fallback_ops.
Proof.
  assert (verificationStore
            (@run stub_crypto stub_otplib stub_numerics stub_config initial fallback_ops)
            !! "D4" = Some fallback_record) as Hrec by (vm_compute; reflexivity).
  split; [exact Hrec|].
  destruct (proj1 (complete_iff_required_done_or_fallback
                     stub_crypto stub_otplib stub_numerics stub_config)
              fallback_ops "D4" fallback_record Hrec) as (_ & Hiff & Hcode).
  split; [apply Hiff; discriminate|]. split; [exact Hcode|].
  destruct (proj2 (complete_iff_required_done_or_fallback
                     stub_crypto stub_otplib stub_numerics stub_config)
              (@run stub_crypto stub_otplib stub_numerics stub_config initial
                 [InitializeVerification "D4" [otp; photo] "v-1"])
              "D4" (fallback_code "D4") 10%Z) as (_ & _ & Haccepted).
  destruct (Haccepted {| ver_id := "v-1"; ver_deliveryId := "D4";
                         methodsRequired := [otp; photo]; methodsCompleted := [];
                         isComplete := false; completedAt := None |})
    as [Hsnd _]; [reflexivity | vm_compute; reflexivity|].
  rewrite Hsnd. reflexivity.
Defined.

(** C5, as it is stated, fails: after the fallback code the record is
    complete although no required method is completed. *)
Lemma fallback_completes_without_required_methods :
  verificationStore
    (@run stub_crypto stub_otplib stub_numerics stub_config initial fallback_ops) !! "D4"
  = Some fallback_record
  ∧ isComplete fallback_record = true
  ∧ ¬ (∀ m, m ∈ methodsRequired fallback_record → m ∈ methodsCompleted fallback_record).
Proof.
  split; [vm_compute; reflexivity|]. split; [reflexivity|].
  intros Hall. specialize (Hall otp). simpl in Hall.
  assert (otp ∈ [code]) as Hin by (apply Hall; by left).
  apply list_elem_of_singleton in Hin. discriminate.
Qed.

(** The equivalence [complete ⇔ required ⊆ completed] also fails in the
    other direction for a record that requires no method: it is not
    complete although every required method is completed, until some method
    is recorded. *)
Lemma empty_required_set_starts_incomplete :
  let st := snd (initializeVerification initial "D5" [] "v-1") in
  ∃ v, getVerificationStatus st "D5" = Some v
       ∧ methodsRequired v = []
       ∧ (∀ m, m ∈ methodsRequired v → m ∈ methodsCompleted v)
       ∧ isComplete v = false
       ∧ isDeliveryVerified
           (snd (@verifyGeofence stub_numerics st "D5" EmergencyFacts.nairobi
                   EmergencyFacts.nairobi None 3)) "D5" = true.
Proof.
  eexists. split; [reflexivity|]. split; [reflexivity|]. split.
  - intros m Hm. by apply elem_of_nil in Hm.
  - split; [reflexivity | vm_compute; reflexivity].
Qed.

End VerificationFacts.

(** ** Broadcaster: how often a session receives an event *)

Module BroadcastFacts.
Import AccessControl Broadcaster JsMapFacts.

#[export] Instance Audience_eq_dec : EqDecision Audience.
Proof. solve_decision. Defined.

#[export] Instance RealtimeEvent_eq_dec : EqDecision RealtimeEvent.
Proof. solve_decision. Defined.

#[export] Instance Message_eq_dec : EqDecision Message.
Proof. solve_decision. Defined.

(** The number of copies of [event] that the emissions [out] carry to the
    socket [sid]. *)
Definition deliveries (sid : string) (event : RealtimeEvent)
    (out : list (string * Message)) : nat :=
  length (List.filter (λ em, bool_decide (em = (sid, MsgEvent event))) out).

(** The three audience criteria, for the session of socket [sid]. *)
Definition in_room (st : State) (event : RealtimeEvent) (sid : string) : bool :=
  match aud_deliveryId (audience event) with
  | Some d => truthy d && bool_decide (sid ∈ default ∅ (rooms st !! room_name d))
  | None => false
  end.

Definition listed_user (st : State) (event : RealtimeEvent) (sid : string) : bool :=
  match userIds (audience event), JsMap.get sid (clients st) with
  | Some ids, Some c => includes (userId c) ids
  | _, _ => false
  end.

Definition listed_role (st : State) (event : RealtimeEvent) (sid : string) : bool :=
  match roles (audience event), JsMap.get sid (clients st) with
  | Some rs, Some c => bool_decide (role c ∈ rs)
  | _, _ => false
  end.

(** The keys of [clients] are distinct socket ids, and each entry holds the
    socket it is filed under. *)
Definition clients_wf (cs : JsMap.t Client) : Prop :=
  NoDup (JsMap.keys cs) ∧ Forall (λ kc, socket kc.2 = kc.1) cs.

Lemma deliveries_app (sid : string) (event : RealtimeEvent)
    (o1 o2 : list (string * Message)) :
  deliveries sid event (o1 ++ o2) = (deliveries sid event o1 + deliveries sid event o2)%nat.
Proof. unfold deliveries. by rewrite List.filter_app, length_app. Qed.

Lemma get_not_key {V : Type} (m : JsMap.t V) (k : string) :
  k ∉ JsMap.keys m → JsMap.get k m = None.
Proof.
  induction m as [|[k0 v0] m IH]; simpl; [done|].
  intros Hnin. apply not_elem_of_cons in Hnin as [Hne Hnin].
  apply String.eqb_neq in Hne. rewrite Hne. by apply IH.
Qed.

Lemma deliveries_room (st : State) (room sid : string) (event : RealtimeEvent) :
  deliveries sid event (emit_to_room st room (MsgEvent event))
  = Nat.b2n (bool_decide (sid ∈ default ∅ (rooms st !! room))).
Proof.
  unfold emit_to_room, deliveries.
  set (members := default ∅ (rooms st !! room)).
  assert (∀ l : list string, NoDup l →
            length (List.filter (λ em, bool_decide (em = (sid, MsgEvent event)))
                      (List.map (λ s, (s, MsgEvent event)) l))
            = Nat.b2n (bool_decide (sid ∈ l))) as Hcount.
  { induction l as [|s l IH]; intros Hnd; [done|].
    apply NoDup_cons in Hnd as [Hs Hnd]. specialize (IH Hnd). simpl.
    destruct (decide (s = sid)) as [->|Hne].
    - rewrite bool_decide_eq_true_2 by done. simpl. rewrite IH.
      rewrite (bool_decide_eq_false_2 (sid ∈ l)) by done.
      rewrite bool_decide_eq_true_2; [done | apply elem_of_cons; by left].
    - rewrite bool_decide_eq_false_2 by congruence. rewrite IH.
      apply f_equal, bool_decide_ext. rewrite elem_of_cons.
      split; [by right | by intros [->|?]]. }
  rewrite (Hcount (elements members)) by apply NoDup_elements.
  apply f_equal, bool_decide_ext, elem_of_elements.
Qed.

Lemma deliveries_clients (st : State) (test : Client → bool) (sid : string)
    (event : RealtimeEvent) :
  clients_wf (clients st) →
  deliveries sid event (emit_to_clients st test (MsgEvent event))
  = Nat.b2n (match JsMap.get sid (clients st) with
             | Some c => test c
             | None => false
             end).
Proof.
  unfold emit_to_clients, deliveries, clients_wf.
  generalize (clients st). intros cs [Hnd Hsock].
  induction cs as [|[k c] cs IH]; simpl; [done|].
  simpl in Hnd. apply NoDup_cons in Hnd as [Hk Hnd].
  apply Forall_cons in Hsock as [Hc Hsock]. simpl in Hc.
  specialize (IH Hnd Hsock).
  destruct (String.eqb sid k) eqn:Hsid.
  - apply String.eqb_eq in Hsid as <-.
    rewrite (get_not_key cs sid Hk) in IH.
    destruct (test c); simpl; [|done].
    rewrite Hc, bool_decide_eq_true_2 by done. simpl. by rewrite IH.
  - apply String.eqb_neq in Hsid.
    destruct (test c); simpl; [|done].
    rewrite bool_decide_eq_false_2; [done|]. rewrite Hc. congruence.
Qed.

Lemma clients_wf_step (st : State) (op : Op) :
  clients_wf (clients st) → clients_wf (clients (snd (step st op))).
Proof.
  intros [Hnd Hsock]. destruct op; simpl; try done.
  - unfold on_authenticate. simpl.
    assert (clients_wf (JsMap.set sid {| userId := user; role := r; socket := sid |}
                          (clients st))) as Hwf.
    { split; [by apply NoDup_keys_set|].
      apply Forall_forall. intros kc Hin.
      apply elem_of_set in Hin as [-> | Hin]; [done|].
      rewrite Forall_forall in Hsock. by apply Hsock. }
    destruct (offlineQueue st !! user) as [queued|]; [|done].
    by destruct (0 <? length queued)%nat.
  - split; [by apply NoDup_keys_delete|].
    apply Forall_forall. intros kc Hin. rewrite Forall_forall in Hsock.
    apply Hsock. by apply (delete_subseteq (clients st) sid).
  - unfold broadcast. destruct (io st); simpl; [|done].
    destruct (userIds (audience event)) as [ids|]; [|done].
    by destruct (0 <? length ids)%nat.
  - unfold closeWebSocket. destruct (io st); [|done].
    split; [apply NoDup_nil_2 | apply Forall_nil_2].
Qed.

Lemma clients_wf_run (ops : list Op) (st : State) :
  clients_wf (clients st) → clients_wf (clients (run st ops)).
Proof.
  revert st. induction ops as [|op ops IH]; intros st Hwf; [done|].
  simpl. apply IH. by apply clients_wf_step.
Qed.

Lemma deliveries_guarded {A : Type} (st : State) (l : list A) (test : Client → bool)
    (sid : string) (event : RealtimeEvent) :
  clients_wf (clients st) →
  (l = [] → ∀ c, test c = false) →
  deliveries sid event
    (if (0 <? length l)%nat then emit_to_clients st test (MsgEvent event) else [])
  = Nat.b2n (match JsMap.get sid (clients st) with
             | Some c => test c
             | None => false
             end).
Proof.
  intros Hwf Hnil. destruct l as [|x l]; simpl.
  - destruct (JsMap.get sid (clients st)) as [c|]; [|done]. by rewrite Hnil.
  - by apply deliveries_clients.
Qed.

Lemma broadcast_deliveries (st : State) (event : RealtimeEvent) (sid : string) :
  clients_wf (clients st) →
  deliveries sid event (fst (broadcast st event))
  = if io st
    then (Nat.b2n (in_room st event sid) + Nat.b2n (listed_user st event sid)
          + Nat.b2n (listed_role st event sid))%nat
    else 0%nat.
Proof.
  intros Hwf. unfold broadcast. destruct (io st); cbn [negb]; [|done].
  set (toRoom := match aud_deliveryId (audience event) with
                 | Some d => if truthy d
                             then emit_to_room st (room_name d) (MsgEvent event) else []
                 | None => []
                 end).
  assert (deliveries sid event toRoom = Nat.b2n (in_room st event sid)) as HtoRoom.
  { unfold toRoom, in_room. destruct (aud_deliveryId (audience event)) as [d|]; [|done].
    destruct (truthy d); [|done]. apply deliveries_room. }
  assert (∀ st1 : State, clients st1 = clients st →
            deliveries sid event
              match roles (audience event) with
              | Some rs =>
                  if (0 <? length rs)%nat
                  then emit_to_clients st1 (λ c, bool_decide (role c ∈ rs)) (MsgEvent event)
                  else []
              | None => []
              end
            = Nat.b2n (listed_role st event sid)) as HtoRoles.
  { intros st1 Hst1. unfold listed_role.
    destruct (roles (audience event)) as [rs|]; [|done].
    rewrite deliveries_guarded, Hst1; [done | by rewrite Hst1 |].
    intros -> c. apply bool_decide_eq_false_2, not_elem_of_nil. }
  assert (∀ ids, deliveries sid event
            (if (0 <? length ids)%nat
             then emit_to_clients st (λ c, includes (userId c) ids) (MsgEvent event)
             else [])
          = Nat.b2n match JsMap.get sid (clients st) with
                    | Some c => includes (userId c) ids
                    | None => false
                    end) as HtoUsers.
  { intros ids. apply deliveries_guarded; [done|]. by intros ->. }
  unfold listed_user.
  destruct (userIds (audience event)) as [ids|].
  - specialize (HtoUsers ids).
    destruct (0 <? length ids)%nat; cbn [fst];
      rewrite !deliveries_app, HtoRoom, HtoUsers, HtoRoles by done; lia.
  - cbn [fst]. rewrite !deliveries_app, HtoRoom, HtoRoles by done. simpl. lia.
Qed.

(** C3 (as amended).  In every state that the server reaches, a single
    [broadcast(event)] sends the event to a session once for each audience
    criterion that the session meets: once when its socket is in the room of
    [audience.deliveryId], once when its user is listed in [audience.userIds]
    and once when its role is listed in [audience.roles]; nothing is sent when
    the server object is absent. *)
Theorem broadcast_sends_once_per_criterion :
  ∀ (ops : list Op) (event : RealtimeEvent) (sid : string),
    let st := run initial ops in
    deliveries sid event (fst (broadcast st event))
    = if io st
      then (Nat.b2n (in_room st event sid) + Nat.b2n (listed_user st event sid)
            + Nat.b2n (listed_role st event sid))%nat
      else 0%nat.
Proof.
  intros ops event sid st. apply broadcast_deliveries.
  apply clients_wf_run. split; [apply NoDup_nil_2 | apply Forall_nil_2].
Qed.

(** An administrator on socket "s1" who follows delivery "D1". *)
Definition admin_in_room : State :=
  run initial [InitializeWebSocket; Authenticate "s1" "U1" admin; Subscribe "s1" "D1"].

Definition alert_for_all : RealtimeEvent :=
  {| type := "alert:security"; timestamp := "2026-01-01T00:00:00.000Z";
     audience := {| aud_deliveryId := Some "D1"; userIds := Some ["U1"];
                    roles := Some [security_officer; admin] |};
     payload := "{}"; eventId := "alert-1" |}.

(** C3, as it is stated, fails: a session that meets the three criteria
    receives the event three times from one call. *)
Lemma overlapping_audience_is_sent_thrice :
  deliveries "s1" alert_for_all (fst (broadcast admin_in_room alert_for_all)) = 3%nat
  ∧ ¬ (deliveries "s1" alert_for_all (fst (broadcast admin_in_room alert_for_all)) ≤ 1)%nat.
Proof.
  assert (deliveries "s1" alert_for_all (fst (broadcast admin_in_room alert_for_all))
          = 3%nat) as Hthree by (vm_compute; reflexivity).
  split; [exact Hthree | rewrite Hthree; lia].
Qed.

End BroadcastFacts.

(** ** Broadcaster: the offline queue *)

Module QueueFacts.
Import AccessControl Broadcaster.

(** The last [n] elements of a list. *)
Definition lastn {A : Type} (n : nat) (l : list A) : list A := drop (length l - n) l.

Lemma length_lastn {A : Type} (n : nat) (l : list A) : length (lastn n l) ≤ n.
Proof. unfold lastn. rewrite length_drop. lia. Qed.

Lemma lastn_short {A : Type} (n : nat) (l : list A) : length l ≤ n → lastn n l = l.
Proof. intros Hl. unfold lastn. by replace (length l - n) with 0 by lia. Qed.

Lemma lastn_app_lastn {A : Type} (n : nat) (l l' : list A) :
  lastn n (lastn n l ++ l') = lastn n (l ++ l').
Proof.
  unfold lastn. rewrite !length_app, length_drop.
  destruct (decide (length l ≤ n)) as [Hle|Hgt].
  - replace (length l - n) with 0 by lia. simpl. f_equal. lia.
  - replace (length l + length l' - n) with ((length l - n) + length l') by lia.
    rewrite <- drop_drop, (drop_app_le l l' (length l - n)) by lia. f_equal. lia.
Qed.

(** No connected client is bound to the user. *)
Definition isOnline (st : State) (user : string) : bool :=
  existsb (λ c, String.eqb (userId c) user) (JsMap.values (clients st)).

(** Every queue holds at most 50 events. *)
Definition queues_bounded (q : gmap string (list RealtimeEvent)) : Prop :=
  ∀ u l, q !! u = Some l → length l ≤ 50.

(** The queue of a user after one more event for them. *)
Lemma enqueue_offline_lookup (event : RealtimeEvent) (cs : JsMap.t Client)
    (q : gmap string (list RealtimeEvent)) (user : string) :
  existsb (λ c, String.eqb (userId c) user) (JsMap.values cs) = false →
  length (default [] (q !! user)) ≤ 50 →
  enqueue_offline event cs q user
  = <[user := lastn 50 (default [] (q !! user) ++ [event])]> q.
Proof.
  intros Hoff Hlen. unfold enqueue_offline. rewrite Hoff. f_equal.
  set (old := default [] (q !! user)) in *.
  case_decide as Hfull.
  - unfold lastn. rewrite length_app in *. simpl in *.
    replace (length old + 1 - 50) with 1 by lia. by destruct (old ++ [event]).
  - by rewrite lastn_short by lia.
Qed.

Lemma enqueue_offline_bounded (event : RealtimeEvent) (cs : JsMap.t Client)
    (q : gmap string (list RealtimeEvent)) (user : string) :
  queues_bounded q → queues_bounded (enqueue_offline event cs q user).
Proof.
  intros Hq.
  destruct (existsb (λ c, String.eqb (userId c) user) (JsMap.values cs)) eqn:Hon.
  - unfold enqueue_offline. by rewrite Hon.
  - rewrite enqueue_offline_lookup; [|done|].
    + intros u l. destruct (decide (user = u)) as [->|Hne].
      * rewrite lookup_insert_eq. intros [= <-]. apply length_lastn.
      * rewrite lookup_insert_ne by done. apply Hq.
    + destruct (q !! user) as [l|] eqn:Hl; simpl; [by eapply Hq | lia].
Qed.

Lemma fold_enqueue_bounded (event : RealtimeEvent) (cs : JsMap.t Client)
    (ids : list string) (q : gmap string (list RealtimeEvent)) :
  queues_bounded q → queues_bounded (fold_left (enqueue_offline event cs) ids q).
Proof.
  revert q. induction ids as [|u ids IH]; intros q Hq; [done|].
  simpl. apply IH. by apply enqueue_offline_bounded.
Qed.

Lemma queues_bounded_step (st : State) (op : Op) :
  queues_bounded (offlineQueue st) → queues_bounded (offlineQueue (snd (step st op))).
Proof.
  intros Hq. destruct op; simpl; try done.
  - unfold on_authenticate. simpl.
    destruct (offlineQueue st !! user) as [queued|]; [|done].
    destruct (0 <? length queued)%nat; [|done]. simpl.
    intros u l Hl. apply lookup_delete_Some in Hl as [_ Hl]. by eapply Hq.
  - unfold broadcast. destruct (io st); simpl; [|done].
    destruct (userIds (audience event)) as [ids|]; [|done].
    destruct (0 <? length ids)%nat; [|done]. simpl.
    by apply fold_enqueue_bounded.
  - unfold closeWebSocket. destruct (io st); [|done].
    intros u l. simpl. by rewrite lookup_empty.
Qed.

Lemma queues_bounded_run (ops : list Op) (st : State) :
  queues_bounded (offlineQueue st) → queues_bounded (offlineQueue (run st ops)).
Proof.
  revert st. induction ops as [|op ops IH]; intros st Hq; [done|].
  simpl. apply IH. by apply queues_bounded_step.
Qed.

(** [broadcast] of an event whose [userIds] is the one offline user. *)
Lemma broadcast_offline (st : State) (event : RealtimeEvent) (user : string) :
  io st = true → isOnline st user = false →
  userIds (audience event) = Some [user] →
  length (default [] (offlineQueue st !! user)) ≤ 50 →
  io (snd (broadcast st event)) = true
  ∧ clients (snd (broadcast st event)) = clients st
  ∧ offlineQueue (snd (broadcast st event))
    = <[user := lastn 50 (default [] (offlineQueue st !! user) ++ [event])]>
        (offlineQueue st).
Proof.
  intros Hio Hoff Hids Hlen. unfold broadcast. rewrite Hio, Hids. simpl.
  split; [done|]. split; [done|]. by apply enqueue_offline_lookup.
Qed.

(** Successive calls of [broadcast]. *)
Definition broadcast_all (st : State) (events : list RealtimeEvent) : State :=
  fold_left (λ s event, snd (broadcast s event)) events st.

Lemma broadcast_all_offline (events : list RealtimeEvent) :
  ∀ (st : State) (user : string),
    io st = true → isOnline st user = false →
    Forall (λ event, userIds (audience event) = Some [user]) events →
    length (default [] (offlineQueue st !! user)) ≤ 50 →
    default [] (offlineQueue (broadcast_all st events) !! user)
    = lastn 50 (default [] (offlineQueue st !! user) ++ events).
Proof.
  induction events as [|event events IH]; intros st user Hio Hoff Hev Hlen.
  - simpl. by rewrite app_nil_r, lastn_short.
  - apply Forall_cons in Hev as [Hids Hev]. simpl.
    destruct (broadcast_offline st event user Hio Hoff Hids Hlen) as (Hio1 & Hcs1 & Hq1).
    rewrite IH; try done.
    + rewrite Hq1, lookup_insert_eq. simpl. rewrite lastn_app_lastn.
      by rewrite <- app_assoc.
    + unfold isOnline. by rewrite Hcs1.
    + rewrite Hq1, lookup_insert_eq. simpl. apply length_lastn.
Qed.

(** ['authenticate'] hands the queue over, oldest event first, and drops it. *)
Lemma on_authenticate_drains (st : State) (sid user : string) (r : UserRole)
    (queued : list RealtimeEvent) :
  offlineQueue st !! user = Some queued → queued ≠ [] →
  fst (on_authenticate st sid user r)
  = List.map (λ event, (sid, MsgEvent event)) queued ++ [(sid, MsgAuthenticated true)]
  ∧ offlineQueue (snd (on_authenticate st sid user r)) !! user = None.
Proof.
  intros Hq Hne. unfold on_authenticate. simpl. rewrite Hq.
  destruct queued as [|e queued]; [done|]. simpl.
  split; [done|]. apply lookup_delete_eq.
Qed.

(** C9.  In every state that the server reaches, no user's offline queue
    holds more than 50 events; an event for an offline user whose queue holds
    50 events pushes the oldest one out; and after any number of events for an
    offline user without queue, the user's next ['authenticate'] receives the
    last 50 of them (all of them, when fewer) in the order of the broadcasts,
    followed by the acknowledgement, and leaves no queue. *)
Theorem offline_queue_bounded_and_drained :
  (∀ (ops : list Op) (user : string) (queued : list RealtimeEvent),
     offlineQueue (run initial ops) !! user = Some queued → length queued ≤ 50)
  ∧ (∀ (st : State) (event oldest : RealtimeEvent) (queued : list RealtimeEvent)
       (user : string),
       io st = true → isOnline st user = false →
       userIds (audience event) = Some [user] →
       offlineQueue st !! user = Some (oldest :: queued) →
       length (oldest :: queued) = 50 →
       offlineQueue (snd (broadcast st event)) !! user = Some (queued ++ [event]))
  ∧ (∀ (st : State) (events : list RealtimeEvent) (user sid : string) (r : UserRole),
       io st = true → isOnline st user = false →
       offlineQueue st !! user = None →
       events ≠ [] →
       Forall (λ event, userIds (audience event) = Some [user]) events →
       let st' := broadcast_all st events in
       offlineQueue st' !! user = Some (lastn 50 events)
       ∧ fst (on_authenticate st' sid user r)
         = List.map (λ event, (sid, MsgEvent event)) (lastn 50 events)
           ++ [(sid, MsgAuthenticated true)]
       ∧ offlineQueue (snd (on_authenticate st' sid user r)) !! user = None).
Proof.
  split; [|split].
  - intros ops user queued Hq.
    eapply (queues_bounded_run ops initial); [|exact Hq].
    intros u l. simpl. by rewrite lookup_empty.
  - intros st event oldest queued user Hio Hoff Hids Hq Hlen.
    destruct (broadcast_offline st event user Hio Hoff Hids) as (_ & _ & Hq1).
    { rewrite Hq. simpl in *. lia. }
    rewrite Hq1, lookup_insert_eq, Hq. f_equal. simpl in *.
    unfold lastn. simpl length. rewrite length_app. simpl length.
    by replace (S (length queued + 1) - 50) with 1 by lia.
  - intros st events user sid r Hio Hoff Hnone Hne Hev st'.
    assert (lastn 50 events ≠ []) as Hlast.
    { unfold lastn. intros Hnil.
      apply (f_equal length) in Hnil. rewrite length_drop in Hnil. simpl in Hnil.
      destruct events; [done | simpl in Hnil; lia]. }
    assert (offlineQueue st' !! user = Some (lastn 50 events)) as Hq.
    { pose proof (broadcast_all_offline events st user Hio Hoff Hev) as Hall.
      rewrite Hnone in Hall. simpl in Hall. specialize (Hall ltac:(lia)).
      fold st' in Hall.
      destruct (offlineQueue st' !! user) as [l|]; simpl in Hall; [by rewrite Hall|].
      by destruct Hlast. }
    split; [exact Hq|]. by apply on_authenticate_drains.
Qed.

(** The server with nobody connected, and 51 events for the user "U2". *)
Definition server_up : State := run initial [InitializeWebSocket].

Fixpoint tally (n : nat) : string :=
  match n with
  | O => ""
  | S k => String "i" (tally k)
  end.

Definition event_for (n : nat) : RealtimeEvent :=
  {| type := "delivery:status_update"; timestamp := "2026-01-01T00:00:00.000Z";
     audience := {| aud_deliveryId := None; userIds := Some ["U2"]; roles := None |};
     payload := "{}"; eventId := "e-" +:+ tally n |}.

Definition fifty_one : list RealtimeEvent := List.map event_for (seq 0 51).

Lemma offline_queue_bounded_and_drained_witness :
  let st' := broadcast_all server_up fifty_one in
  lastn 50 fifty_one = List.map event_for (seq 1 50)
  ∧ offlineQueue st' !! "U2" = Some (lastn 50 fifty_one)
  ∧ fst (on_authenticate st' "s2" "U2" customer)
    = List.map (λ event, ("s2", MsgEvent event)) (lastn 50 fifty_one)
      ++ [("s2", MsgAuthenticated true)]
  ∧ offlineQueue (snd (on_authenticate st' "s2" "U2" customer)) !! "U2" = None.
Proof.
  split; [reflexivity|].
  apply (proj2 (proj2 offline_queue_bounded_and_drained)
           server_up fifty_one "U2" "s2" customer).
  - reflexivity.
  - reflexivity.
  - reflexivity.
  - discriminate.
  - apply Forall_forall. intros event Hin.
    apply list_elem_of_In, in_map_iff in Hin as (n & <- & _). reflexivity.
Defined.

End QueueFacts.

(** ** Notification service: preferences are not consulted *)

Module NotifierFacts.
Import Notifier JsMapFacts.

(** The test at the head of [sendNotification]. *)
Definition rate_limited (st : State) (recipient : string) (chan : NotificationChannel)
    (now : Z) : bool :=
  match rateLimitStore st !! ("notify:" +:+ recipient +:+ ":" +:+ channel_name chan) with
  | Some rl => (now <? resetAt rl)%Z && (10 <=? count rl)%Z
  | None => false
  end.

Lemma deliverNotification_sent (st : State) (n : NotificationRecord) (now : Z) :
  let n' := fst (deliverNotification st n now) in
  id n' = id n ∧ channel n' = channel n ∧ priority n' = priority n
  ∧ recipientId n' = recipientId n
  ∧ status n' = sent ∧ sentAt n' = Some now
  ∧ getNotification (snd (deliverNotification st n now)) (id n) = Some n'.
Proof.
  unfold deliverNotification, deliverSMS, deliverPush, deliverWhatsApp, deliverUSSD,
    deliverEmail, getNotification.
  destruct (channel n) eqn:Hc; simpl; rewrite ?Hc; repeat split; apply get_set_eq.
Qed.

Section WithCrypto.
Context `{NodeCrypto}.
Variable config : Config.

Lemma sendNotification_limited (st : State) (recipient : string)
    (chan : NotificationChannel) (template content : string)
    (prio : option NotificationPriority) (fresh : string) (iv : list Byte.byte)
    (now : Z) :
  rate_limited st recipient chan now = true →
  sendNotification config st recipient chan template content prio fresh iv now
  = (inl "Rate limited", st).
Proof.
  unfold rate_limited, sendNotification.
  destruct (rateLimitStore st !! _) as [rl|]; [|done]. by intros ->.
Qed.

Lemma sendNotification_sent (st : State) (recipient : string)
    (chan : NotificationChannel) (template content : string)
    (prio : option NotificationPriority) (fresh : string) (iv : list Byte.byte)
    (now : Z) :
  rate_limited st recipient chan now = false →
  ∃ n, fst (sendNotification config st recipient chan template content prio fresh iv now)
       = inr n
       ∧ id n = fresh ∧ recipientId n = recipient ∧ channel n = chan
       ∧ priority n = default normal prio
       ∧ status n = sent ∧ sentAt n = Some now
       ∧ getNotification
           (snd (sendNotification config st recipient chan template content prio
                   fresh iv now)) fresh = Some n.
Proof.
  unfold rate_limited, sendNotification. intros Hlim.
  set (key := "notify:" +:+ recipient +:+ ":" +:+ channel_name chan) in *.
  assert (match rateLimitStore st !! key with
          | Some rl => (now <? resetAt rl)%Z && (10 <=? count rl)%Z
          | None => false
          end = false) as -> by exact Hlim.
  match goal with
  | |- context [deliverNotification ?s ?n now] =>
      pose proof (deliverNotification_sent s n now) as Hsent;
      destruct (deliverNotification s n now) as [n' st3]
  end.
  simpl in Hsent. destruct Hsent as (Hid & Hch & Hpr & Hre & Hst & Hat & Hget).
  exists n'. simpl. by repeat split.
Qed.

Lemma sendNotification_preferences (st : State) (user : string)
    (chans : list NotificationChannel) (q : option (string * string))
    (recipient : string) (chan : NotificationChannel) (template content : string)
    (prio : option NotificationPriority) (fresh : string) (iv : list Byte.byte)
    (now : Z) :
  sendNotification config (setUserPreferences st user chans q) recipient chan template
    content prio fresh iv now
  = let '(res, st') :=
      sendNotification config st recipient chan template content prio fresh iv now in
    (res, setUserPreferences st' user chans q).
Proof.
  unfold sendNotification. cbn [setUserPreferences rateLimitStore].
  set (key := "notify:" +:+ recipient +:+ ":" +:+ channel_name chan).
  destruct (rateLimitStore st !! key) as [rl|].
  - destruct ((now <? resetAt rl)%Z && (10 <=? count rl)%Z); [done|].
    unfold deliverNotification, deliverSMS, deliverPush, deliverWhatsApp, deliverUSSD,
      deliverEmail.
    by destruct chan.
  - unfold deliverNotification, deliverSMS, deliverPush, deliverWhatsApp, deliverUSSD,
      deliverEmail.
    by destruct chan.
Qed.

End WithCrypto.

Lemma userPreferences_sendNotification `{NodeCrypto} (config : Config) (st : State)
    (recipient : string) (chan : NotificationChannel) (template content : string)
    (prio : option NotificationPriority) (fresh : string) (iv : list Byte.byte)
    (now : Z) :
  userPreferences
    (snd (sendNotification config st recipient chan template content prio fresh iv now))
  = userPreferences st.
Proof.
  unfold sendNotification.
  destruct (rateLimitStore st !! _) as [rl|].
  - destruct ((now <? resetAt rl)%Z && (10 <=? count rl)%Z); [done|].
    unfold deliverNotification, deliverSMS, deliverPush, deliverWhatsApp, deliverUSSD,
      deliverEmail.
    by destruct chan.
  - unfold deliverNotification, deliverSMS, deliverPush, deliverWhatsApp, deliverUSSD,
      deliverEmail.
    by destruct chan.
Qed.

(** C8 (as amended).  [sendNotification] does not read the preferences of
    the recipient: with any preference list set for any user the call behaves
    as without it.  Whatever the channel and the priority, a call that the rate
    limit lets through stores a NotificationRecord under the new id and makes
    the delivery attempt, which leaves the record in status [sent]; the rate
    limit (10 sends per recipient and channel before [resetAt]) is the only
    rejection.  [setUserPreferences] and [getUserPreferences] only store and
    return the preference list: what is set for a user is what is returned
    for that user, the other users' preferences and the other stores are
    untouched, a user without stored preferences gets the default
    [[sms; push]] without quiet hours, and [sendNotification] leaves every
    user's preferences as they are. *)
Theorem sendNotification_ignores_preferences :
  ∀ (crypto : NodeCrypto) (config : Config) (st : State) (recipient : string)
    (chan : NotificationChannel) (template content : string)
    (prio : option NotificationPriority) (fresh : string) (iv : list Byte.byte)
    (now : Z),
    (∀ (user : string) (chans : list NotificationChannel) (q : option (string * string)),
       sendNotification config (setUserPreferences st user chans q) recipient chan
         template content prio fresh iv now
       = let '(res, st') :=
           sendNotification config st recipient chan template content prio fresh iv now
         in (res, setUserPreferences st' user chans q))
    ∧ (if rate_limited st recipient chan now
       then sendNotification config st recipient chan template content prio fresh iv now
            = (inl "Rate limited", st)
       else ∃ n,
           fst (sendNotification config st recipient chan template content prio fresh
                  iv now) = inr n
           ∧ id n = fresh ∧ recipientId n = recipient ∧ channel n = chan
           ∧ priority n = default normal prio
           ∧ status n = sent ∧ sentAt n = Some now
           ∧ getNotification
               (snd (sendNotification config st recipient chan template content prio
                       fresh iv now)) fresh = Some n)
    ∧ (∀ (user : string) (chans : list NotificationChannel) (q : option (string * string)),
         let st' := setUserPreferences st user chans q in
         getUserPreferences st' user = {| channels := chans; quiet := q |}
         ∧ (∀ other, other ≠ user → getUserPreferences st' other = getUserPreferences st other)
         ∧ notificationStore st' = notificationStore st
         ∧ rateLimitStore st' = rateLimitStore st
         ∧ timers st' = timers st)
    ∧ (∀ user : string,
         (userPreferences st !! user = None →
          getUserPreferences st user = {| channels := [sms; push]; quiet := None |})
         ∧ getUserPreferences initial user = {| channels := [sms; push]; quiet := None |}
         ∧ getUserPreferences
             (snd (sendNotification config st recipient chan template content prio fresh
                     iv now)) user
           = getUserPreferences st user).
Proof.
  intros crypto config st recipient chan template content prio fresh iv now.
  split; [|split; [|split]].
  - intros user chans q. apply sendNotification_preferences.
  - destruct (rate_limited st recipient chan now) eqn:Hlim.
    + by apply sendNotification_limited.
    + by apply sendNotification_sent.
  - intros user chans q st'. subst st'. unfold getUserPreferences, setUserPreferences.
    simpl. rewrite lookup_insert_eq. simpl. split; [done|]. split; [|done].
    intros other Hother. by rewrite lookup_insert_ne.
  - intros user. split; [|split].
    + unfold getUserPreferences. by intros ->.
    + unfold getUserPreferences. simpl. by rewrite lookup_empty.
    + unfold getUserPreferences. by rewrite userPreferences_sendNotification.
Qed.

Lemma sendNotification_ignores_preferences_witness :
  getUserPreferences (setUserPreferences initial "U1" [sms] None) "U1"
  = {| channels := [sms]; quiet := None |}
  ∧ getUserPreferences (setUserPreferences initial "U1" [sms] None) "U2"
    = {| channels := [sms; push]; quiet := None |}
  ∧ getUserPreferences
      (snd (@sendNotification stub_crypto stub_config
              (setUserPreferences initial "U1" [sms] None) "U1" email "tpl-1" "hello"
              (Some normal) "n-1" stub_iv 0)) "U1"
    = {| channels := [sms]; quiet := None |}.
Proof.
  destruct (sendNotification_ignores_preferences stub_crypto stub_config initial "U1"
              email "tpl-1" "hello" (Some normal) "n-1" stub_iv 0%Z)
    as (_ & _ & Hset & Hget).
  destruct (Hset "U1" [sms] None) as (Hsame & Hother & _).
  destruct (sendNotification_ignores_preferences stub_crypto stub_config
              (setUserPreferences initial "U1" [sms] None) "U1"
              email "tpl-1" "hello" (Some normal) "n-1" stub_iv 0%Z)
    as (_ & _ & _ & Hget').
  split; [exact Hsame|]. split.
  - rewrite (Hother "U2") by discriminate.
    apply (proj1 (Hget "U2")). reflexivity.
  - rewrite (proj2 (proj2 (Hget' "U1"))). exact Hsame.
Defined.

(** A recipient who has chosen SMS as the only channel. *)
Definition sms_only : State := setUserPreferences initial "U1" [sms] None.

(** C8, as it is stated, fails: an e-mail of normal priority to a recipient
    whose preference list is [sms] is not rejected; the record is stored and
    sent. *)
Lemma email_outside_preferences_is_sent :
  channels (getUserPreferences sms_only "U1") = [sms]
  ∧ ∃ n,
      @sendNotification stub_crypto stub_config sms_only "U1" email "tpl-1" "hello"
        (Some normal) "n-1" stub_iv 0
      = (inr n,
         snd (@sendNotification stub_crypto stub_config sms_only "U1" email "tpl-1"
                "hello" (Some normal) "n-1" stub_iv 0))
      ∧ channel n = email ∧ priority n = normal ∧ status n = sent
      ∧ getNotification
          (snd (@sendNotification stub_crypto stub_config sms_only "U1" email "tpl-1"
                  "hello" (Some normal) "n-1" stub_iv 0)) "n-1" = Some n.
Proof.
  split; [reflexivity|].
  eexists. split; [vm_compute; reflexivity|].
  repeat split; vm_compute; reflexivity.
Qed.

End NotifierFacts.

(** * Further services *)

(** ** Arrays and numbers in templates *)

Module JsArray.

(** [a.slice(-n)]: the last [n] elements, all of them when there are fewer. *)
Definition slice_last {A : Type} (n : nat) (a : list A) : list A :=
  drop (length a - n) a.

(** [a.push(x); if (a.length > n) a.shift()] *)
Definition push_bounded {A : Type} (n : nat) (a : list A) (x : A) : list A :=
  let a' := a ++ [x] in
  if decide (n < length a')%nat then tail a' else a'.

(** [a[a.length - 1]] *)
Definition last_elem {A : Type} (a : list A) : option A := last a.

(** [Math.round(x / d)] for an integer [x] and a positive integer [d]:
    the nearest integer, halves going up. *)
Definition round_div (x d : Z) : Z := ((2 * x + d) / (2 * d))%Z.

(** [`${n}`] for an integer [n]. *)
Definition show (n : Z) : string := pretty n.

End JsArray.

(** ** Cargo-security monitor (services/cargo-security/monitor.ts) *)

Module CargoMonitor.
Import JsArray.

Inductive AnomalyType :=
  | route_deviation | unusual_stop | speed_anomaly | time_anomaly
  | geofence_breach | tampering_detected | communication_lost.

#[export] Instance AnomalyType_eq_dec : EqDecision AnomalyType.
Proof. solve_decision. Defined.

Inductive AlertSeverity := low | medium | high | critical.

#[export] Instance AlertSeverity_eq_dec : EqDecision AlertSeverity.
Proof. solve_decision. Defined.

Inductive MovementState := stationary | moving | unknown.

#[export] Instance MovementState_eq_dec : EqDecision MovementState.
Proof. solve_decision. Defined.

Inductive ResolutionStatus := false_positive | investigated | escalated | resolved.

(** [approximateTime] is the instant that the ISO string denotes. *)
Record ObfuscatedLocation := {
  zoneId : string;
  approximateTime : Time;
  movementState : MovementState;
  loc_resolution : number;
  zoneDescription : option string
}.

Record Resolution := {
  res_status : ResolutionStatus;
  notes : option string;
  resolvedAt : Time;
  resolvedBy : UUID
}.

Record SecurityAlert := {
  id : UUID;
  deliveryId : UUID;
  driverId : UUID;
  vehicleId : option UUID;
  anomalyType : AnomalyType;
  severity : AlertSeverity;
  alert_zoneId : string;
  detectedAt : Time;
  description : string;
  isAcknowledged : bool;
  acknowledgedAt : option Time;
  acknowledgedBy : option UUID;
  resolution : option Resolution
}.

Record LocationHistoryEntry := {
  entry_zoneId : string;
  timestamp : Time;
  isMoving : bool
}.

Record ExpectedRoute := {
  zoneSequence : list string;
  estimatedDuration : number
}.

(** The four module-level maps; [alertStore] is the one that is iterated. *)
Record State := {
  alertStore : JsMap.t SecurityAlert;
  deliveryAlerts : gmap UUID (list UUID);
  driverHistory : gmap UUID (list LocationHistoryEntry);
  expectedRoutes : gmap UUID ExpectedRoute
}.

Definition initial : State :=
  {| alertStore := JsMap.empty; deliveryAlerts := ∅; driverHistory := ∅;
     expectedRoutes := ∅ |}.

(** Thresholds, in milliseconds where the code compares minutes:
    [d / (1000 * 60) >= m] for integers [d] and [m] is [d >= m * 60000]. *)
Definition unusualStopMs : Z := 15 * 60000.
Definition communicationLossMs : Z := 10 * 60000.
Definition rapidZoneChanges : nat := 5.

(** [fresh] is the [uuidv4()] and [now] the clock of the call. *)
Definition createAlert (delivery driver : UUID) (vehicle : option UUID)
    (ty : AnomalyType) (sev : AlertSeverity) (zone : string) (descr : string)
    (fresh : UUID) (now : Time) : SecurityAlert :=
  {| id := fresh; deliveryId := delivery; driverId := driver; vehicleId := vehicle;
     anomalyType := ty; severity := sev; alert_zoneId := zone; detectedAt := now;
     description := descr; isAcknowledged := false; acknowledgedAt := None;
     acknowledgedBy := None; resolution := None |}.

Definition setExpectedRoute (st : State) (delivery : UUID) (zones : list string)
    (duration : number) : State :=
  {| alertStore := alertStore st; deliveryAlerts := deliveryAlerts st;
     driverHistory := driverHistory st;
     expectedRoutes :=
       <[delivery := {| zoneSequence := zones; estimatedDuration := duration |}]>
         (expectedRoutes st) |}.

Definition getAlertsForDelivery (st : State) (delivery : UUID) : list SecurityAlert :=
  omap (λ i, JsMap.get i (alertStore st)) (default [] (deliveryAlerts st !! delivery)).

Definition getUnacknowledgedAlerts (st : State) : list SecurityAlert :=
  List.filter (λ a, negb (isAcknowledged a)) (JsMap.values (alertStore st)).

Definition getAlertsBySeverity (st : State) (sev : AlertSeverity) : list SecurityAlert :=
  List.filter (λ a, bool_decide (severity a = sev)) (JsMap.values (alertStore st)).

Definition checkRouteDeviation (st : State) (delivery driver : UUID)
    (location : ObfuscatedLocation) (vehicle : option UUID) (fresh : UUID) (now : Time)
    : option SecurityAlert :=
  match expectedRoutes st !! delivery with
  | None => None
  | Some expectedRoute =>
      if includes (zoneId location) (zoneSequence expectedRoute) then None
      else Some (createAlert delivery driver vehicle route_deviation medium
                   (zoneId location)
                   "Vehicle deviated from expected route. Current zone not in planned sequence."
                   fresh now)
  end.

Definition checkUnusualStop (st : State) (delivery driver : UUID)
    (history : list LocationHistoryEntry) (vehicle : option UUID) (fresh : UUID)
    (now : Time) : option SecurityAlert :=
  if decide (length history < 3)%nat then None
  else
    let recentEntries := slice_last 10 history in
    let stationaryEntries := List.filter (λ e, negb (isMoving e)) recentEntries in
    if decide (3 ≤ length stationaryEntries)%nat then
      match head stationaryEntries, last_elem stationaryEntries with
      | Some firstStationary, Some lastStationary =>
          let duration := (timestamp lastStationary - timestamp firstStationary)%Z in
          if (unusualStopMs <=? duration)%Z then
            let hasRecentStopAlert :=
              existsb (λ a, bool_decide (anomalyType a = unusual_stop)
                            && (now - 30 * 60 * 1000 <? detectedAt a)%Z)
                (getAlertsForDelivery st delivery) in
            if hasRecentStopAlert then None
            else Some (createAlert delivery driver vehicle unusual_stop low
                         (entry_zoneId lastStationary)
                         ("Vehicle stationary for " +:+ show (round_div duration 60000)
                          +:+ " minutes in unscheduled location.")
                         fresh now)
          else None
      | _, _ => None
      end
    else None.

Definition checkRapidZoneChanges (st : State) (delivery driver : UUID)
    (history : list LocationHistoryEntry) (vehicle : option UUID) (fresh : UUID)
    (now : Time) : option SecurityAlert :=
  if decide (length history < rapidZoneChanges)%nat then None
  else
    let recentEntries := slice_last rapidZoneChanges history in
    match last_elem recentEntries, head recentEntries with
    | Some lastEntry, Some firstEntry =>
        let timeDiff := (timestamp lastEntry - timestamp firstEntry)%Z in
        if (timeDiff <=? 5 * 60 * 1000)%Z then
          let uniqueZones := remove_dups (List.map entry_zoneId recentEntries) in
          if decide (rapidZoneChanges ≤ length uniqueZones)%nat then
            Some (createAlert delivery driver vehicle tampering_detected high
                    (entry_zoneId lastEntry)
                    ("Suspicious location pattern: "
                     +:+ show (Z.of_nat (length uniqueZones))
                     +:+ " zone changes in " +:+ show (round_div timeDiff 1000)
                     +:+ " seconds.")
                    fresh now)
          else None
        else None
    | _, _ => None
    end.

(** [alertStore.set(alert.id, alert)] and the push onto the delivery's list
    of alert ids. *)
Definition storeAlert (delivery : UUID) (st : State) (alert : SecurityAlert) : State :=
  {| alertStore := JsMap.set (id alert) alert (alertStore st);
     deliveryAlerts :=
       <[delivery := default [] (deliveryAlerts st !! delivery) ++ [id alert]]>
         (deliveryAlerts st);
     driverHistory := driverHistory st;
     expectedRoutes := expectedRoutes st |}.

(** [fresh1], [fresh2], [fresh3] are the ids that [uuidv4()] gives to the
    three checks, in their order. *)
Definition processLocationUpdate (st : State) (delivery driver : UUID)
    (location : ObfuscatedLocation) (vehicle : option UUID)
    (fresh1 fresh2 fresh3 : UUID) (now : Time) : list SecurityAlert * State :=
  let entry :=
    {| entry_zoneId := zoneId location; timestamp := approximateTime location;
       isMoving := bool_decide (movementState location = moving) |} in
  let history := push_bounded 100 (default [] (driverHistory st !! driver)) entry in
  let st0 :=
    {| alertStore := alertStore st; deliveryAlerts := deliveryAlerts st;
       driverHistory := <[driver := history]> (driverHistory st);
       expectedRoutes := expectedRoutes st |} in
  let alerts :=
    option_list (checkRouteDeviation st0 delivery driver location vehicle fresh1 now)
    ++ option_list (checkUnusualStop st0 delivery driver history vehicle fresh2 now)
    ++ option_list (checkRapidZoneChanges st0 delivery driver history vehicle fresh3 now)
  in
  (alerts, fold_left (storeAlert delivery) alerts st0).

Definition checkCommunicationLoss (st : State) (delivery driver : UUID)
    (lastSeenAt : Time) (vehicle : option UUID) (fresh : UUID) (now : Time)
    : option SecurityAlert * State :=
  let silent := (now - lastSeenAt)%Z in
  if (communicationLossMs <=? silent)%Z then
    let hasRecentCommAlert :=
      existsb (λ a, bool_decide (anomalyType a = communication_lost)
                    && (now - 15 * 60 * 1000 <? detectedAt a)%Z)
        (getAlertsForDelivery st delivery) in
    if hasRecentCommAlert then (None, st)
    else
      let alert :=
        createAlert delivery driver vehicle communication_lost
          (if (30 * 60000 <? silent)%Z then high else medium) ""
          ("No communication for " +:+ show (round_div silent 60000) +:+ " minutes.")
          fresh now in
      (Some alert, storeAlert delivery st alert)
  else (None, st).

Definition acknowledgeAlert (st : State) (alertId acknowledgedBy_ : UUID) (now : Time)
    : bool * State :=
  match JsMap.get alertId (alertStore st) with
  | None => (false, st)
  | Some alert =>
      (true,
       {| alertStore :=
            JsMap.set alertId
              {| id := id alert; deliveryId := deliveryId alert;
                 driverId := driverId alert; vehicleId := vehicleId alert;
                 anomalyType := anomalyType alert; severity := severity alert;
                 alert_zoneId := alert_zoneId alert; detectedAt := detectedAt alert;
                 description := description alert; isAcknowledged := true;
                 acknowledgedAt := Some now; acknowledgedBy := Some acknowledgedBy_;
                 resolution := resolution alert |}
              (alertStore st);
          deliveryAlerts := deliveryAlerts st; driverHistory := driverHistory st;
          expectedRoutes := expectedRoutes st |})
  end.

Definition resolveAlert (st : State) (alertId resolvedBy_ : UUID)
    (status : ResolutionStatus) (notes_ : option string) (now : Time) : bool * State :=
  match JsMap.get alertId (alertStore st) with
  | None => (false, st)
  | Some alert =>
      (true,
       {| alertStore :=
            JsMap.set alertId
              {| id := id alert; deliveryId := deliveryId alert;
                 driverId := driverId alert; vehicleId := vehicleId alert;
                 anomalyType := anomalyType alert; severity := severity alert;
                 alert_zoneId := alert_zoneId alert; detectedAt := detectedAt alert;
                 description := description alert;
                 isAcknowledged := isAcknowledged alert;
                 acknowledgedAt := acknowledgedAt alert;
                 acknowledgedBy := acknowledgedBy alert;
                 resolution :=
                   Some {| res_status := status; notes := notes_; resolvedAt := now;
                           resolvedBy := resolvedBy_ |} |}
              (alertStore st);
          deliveryAlerts := deliveryAlerts st; driverHistory := driverHistory st;
          expectedRoutes := expectedRoutes st |})
  end.

(** The value of [getSecurityStats]; the two records of counters are
    functions of the key. *)
Record SecurityStats := {
  totalAlerts : nat;
  unacknowledged : nat;
  bySeverity : AlertSeverity → nat;
  byType : AnomalyType → nat
}.

(** [counters[k]++] *)
Definition increment {K : Type} `{EqDecision K} (counters : K → nat) (k : K) : K → nat :=
  λ k', if decide (k' = k) then S (counters k') else counters k'.

Definition getSecurityStats (st : State) : SecurityStats :=
  let alerts := JsMap.values (alertStore st) in
  let counters :=
    fold_left (λ c alert, (increment c.1 (severity alert), increment c.2 (anomalyType alert)))
      alerts (λ _, 0%nat, λ _, 0%nat) in
  {| totalAlerts := length alerts;
     unacknowledged := length (List.filter (λ a, negb (isAcknowledged a)) alerts);
     bySeverity := counters.1;
     byType := counters.2 |}.

(** The exported operations that change the state, as requests. *)
Inductive Op :=
| ProcessLocationUpdate (delivery driver : UUID) (location : ObfuscatedLocation)
    (vehicle : option UUID) (fresh1 fresh2 fresh3 : UUID) (now : Time)
| CheckCommunicationLoss (delivery driver : UUID) (lastSeenAt : Time)
    (vehicle : option UUID) (fresh : UUID) (now : Time)
| SetExpectedRoute (delivery : UUID) (zones : list string) (duration : number)
| AcknowledgeAlert (alertId acknowledgedBy_ : UUID) (now : Time)
| ResolveAlert (alertId resolvedBy_ : UUID) (status : ResolutionStatus)
    (notes_ : option string) (now : Time).

Definition step (st : State) (op : Op) : State :=
  match op with
  | ProcessLocationUpdate d dr loc v f1 f2 f3 now =>
      snd (processLocationUpdate st d dr loc v f1 f2 f3 now)
  | CheckCommunicationLoss d dr seen v f now =>
      snd (checkCommunicationLoss st d dr seen v f now)
  | SetExpectedRoute d zones dur => setExpectedRoute st d zones dur
  | AcknowledgeAlert a by_ now => snd (acknowledgeAlert st a by_ now)
  | ResolveAlert a by_ s n now => snd (resolveAlert st a by_ s n now)
  end.

Definition run (st : State) (ops : list Op) : State := fold_left step ops st.

End CargoMonitor.

(** ** Cargo-security monitor: histories, alerts and statistics *)

Module MonitorFacts.
Import JsArray CargoMonitor JsMapFacts.

Lemma length_push_bounded {A : Type} (n : nat) (a : list A) (x : A) :
  length a ≤ n → length (push_bounded n a x) ≤ n.
Proof.
  intros Hlen. unfold push_bounded. case_decide as Hfull.
  - rewrite length_app in Hfull. simpl in Hfull.
    destruct (a ++ [x]) as [|y l] eqn:Heq; simpl; [lia|].
    apply (f_equal length) in Heq. rewrite length_app in Heq. simpl in Heq. lia.
  - lia.
Qed.

Lemma push_bounded_full {A : Type} (n : nat) (a : list A) (oldest x : A) :
  length (oldest :: a) = n → push_bounded n (oldest :: a) x = a ++ [x].
Proof.
  intros Hlen. unfold push_bounded. simpl in *.
  rewrite decide_True; [done|]. rewrite length_app. simpl. lia.
Qed.

Lemma push_bounded_room {A : Type} (n : nat) (a : list A) (x : A) :
  length a < n → push_bounded n a x = a ++ [x].
Proof.
  intros Hlen. unfold push_bounded.
  rewrite decide_False; [done|]. rewrite length_app. simpl. lia.
Qed.

Lemma driverHistory_fold_storeAlert (d : string) (alerts : list SecurityAlert)
    (st : State) :
  driverHistory (fold_left (storeAlert d) alerts st) = driverHistory st.
Proof. revert st. induction alerts as [|a l IH]; intros st; [done|]. simpl. by rewrite IH. Qed.

Lemma expectedRoutes_fold_storeAlert (d : string) (alerts : list SecurityAlert)
    (st : State) :
  expectedRoutes (fold_left (storeAlert d) alerts st) = expectedRoutes st.
Proof. revert st. induction alerts as [|a l IH]; intros st; [done|]. simpl. by rewrite IH. Qed.

(** Every driver's history holds at most 100 entries. *)
Definition histories_bounded (st : State) : Prop :=
  ∀ driver h, driverHistory st !! driver = Some h → length h ≤ 100.

Lemma histories_bounded_step (st : State) (op : Op) :
  histories_bounded st → histories_bounded (step st op).
Proof.
  intros Hst. destruct op; simpl.
  - unfold processLocationUpdate. simpl. intros dr h.
    rewrite driverHistory_fold_storeAlert. simpl.
    destruct (decide (driver = dr)) as [->|Hne].
    + rewrite lookup_insert_eq. intros [= <-]. apply length_push_bounded.
      destruct (driverHistory st !! dr) as [h0|] eqn:Hh0; simpl; [by eapply Hst | lia].
    + rewrite lookup_insert_ne by done. apply Hst.
  - unfold checkCommunicationLoss.
    destruct (_ <=? _)%Z; [|done]. by destruct (existsb _ _).
  - done.
  - unfold acknowledgeAlert. by destruct (JsMap.get _ _).
  - unfold resolveAlert. by destruct (JsMap.get _ _).
Qed.

(** X1.  In every state that the operations reach from the empty maps, a
    driver's location history holds at most 100 entries; an update for a
    driver whose history holds 100 entries drops the oldest entry and appends
    the new one. *)
Theorem driver_history_bounded :
  (∀ (ops : list Op) (driver : string) (h : list LocationHistoryEntry),
     driverHistory (run initial ops) !! driver = Some h → length h ≤ 100)
  ∧ (∀ (st : State) (delivery driver : string) (location : ObfuscatedLocation)
       (vehicle : option string) (f1 f2 f3 : string) (now : Z)
       (oldest : LocationHistoryEntry) (h : list LocationHistoryEntry),
       driverHistory st !! driver = Some (oldest :: h) →
       length (oldest :: h) = 100 →
       driverHistory
         (snd (processLocationUpdate st delivery driver location vehicle f1 f2 f3 now))
         !! driver
       = Some (h ++ [{| entry_zoneId := zoneId location;
                        timestamp := approximateTime location;
                        isMoving := bool_decide (movementState location = moving) |}])).
Proof.
  split.
  - intros ops. unfold run.
    assert (∀ st, histories_bounded st → histories_bounded (fold_left step ops st)) as Hrun.
    { induction ops as [|op ops IH]; intros st Hst; [done|].
      simpl. apply IH. by apply histories_bounded_step. }
    apply Hrun. intros dr h. simpl. by rewrite lookup_empty.
  - intros st delivery driver location vehicle f1 f2 f3 now oldest h Hh Hlen.
    unfold processLocationUpdate. simpl. rewrite driverHistory_fold_storeAlert. simpl.
    rewrite lookup_insert_eq, Hh. simpl. by rewrite push_bounded_full.
Qed.

Definition full_history : list LocationHistoryEntry :=
  replicate 100 {| entry_zoneId := "z0"; timestamp := 0; isMoving := true |}.

Definition busy_driver : State :=
  {| alertStore := JsMap.empty; deliveryAlerts := ∅;
     driverHistory := {[ "U1" := full_history ]}; expectedRoutes := ∅ |}.

Definition zone_fix (zone : string) (at_time : Z) : ObfuscatedLocation :=
  {| zoneId := zone; approximateTime := at_time; movementState := moving;
     loc_resolution := 8%Q; zoneDescription := Some "Zone level 8" |}.

Lemma driver_history_bounded_witness :
  driverHistory
    (snd (processLocationUpdate busy_driver "D1" "U1" (zone_fix "z1" 1000) None
            "a-1" "a-2" "a-3" 2000)) !! "U1"
  = Some (tail full_history
          ++ [{| entry_zoneId := "z1"; timestamp := 1000; isMoving := true |}]).
Proof.
  apply (proj2 driver_history_bounded busy_driver "D1" "U1" (zone_fix "z1" 1000) None
           "a-1" "a-2" "a-3" 2000%Z
           {| entry_zoneId := "z0"; timestamp := 0; isMoving := true |}
           (tail full_history)); reflexivity.
Defined.

(** *** Statistics *)

Definition sum_severity (c : AlertSeverity → nat) : nat :=
  c low + c medium + c high + c critical.

Definition sum_type (c : AnomalyType → nat) : nat :=
  c route_deviation + c unusual_stop + c speed_anomaly + c time_anomaly
  + c geofence_breach + c tampering_detected + c communication_lost.

Lemma sum_severity_increment (c : AlertSeverity → nat) (k : AlertSeverity) :
  sum_severity (increment c k) = S (sum_severity c).
Proof. unfold sum_severity, increment. destruct k; repeat case_decide; try done; lia. Qed.

Lemma sum_type_increment (c : AnomalyType → nat) (k : AnomalyType) :
  sum_type (increment c k) = S (sum_type c).
Proof. unfold sum_type, increment. destruct k; repeat case_decide; try done; lia. Qed.

(** X2.  The statistics are consistent: the counters by severity and the
    counters by type each add up to the total number of alerts, and the
    number of unacknowledged alerts is at most the total. *)
Theorem security_stats_add_up :
  ∀ st : State,
    let stats := getSecurityStats st in
    sum_severity (bySeverity stats) = totalAlerts stats
    ∧ sum_type (byType stats) = totalAlerts stats
    ∧ unacknowledged stats ≤ totalAlerts stats
    ∧ unacknowledged stats = length (getUnacknowledgedAlerts st).
Proof.
  intros st. unfold getSecurityStats, getUnacknowledgedAlerts. simpl.
  generalize (JsMap.values (alertStore st)). intros alerts.
  assert (∀ (l : list SecurityAlert) c,
            let c' := fold_left (λ c alert, (increment c.1 (severity alert),
                                              increment c.2 (anomalyType alert))) l c in
            sum_severity c'.1 = sum_severity c.1 + length l
            ∧ sum_type c'.2 = sum_type c.2 + length l) as Hfold.
  { induction l as [|a l IH]; intros c; simpl; [split; lia|].
    destruct (IH (increment c.1 (severity a), increment c.2 (anomalyType a)))
      as [H1 H2]. simpl in *.
    rewrite H1, H2, sum_severity_increment, sum_type_increment. split; lia. }
  destruct (Hfold alerts (λ _, 0, λ _, 0)) as [H1 H2]. simpl in *.
  split; [exact H1|]. split; [exact H2|]. split; [|reflexivity].
  clear. induction alerts as [|a l IH]; simpl; [done|].
  destruct (negb (isAcknowledged a)); simpl; lia.
Qed.

(** *** Alerts raised by a location update *)

Lemma elem_of_option_list {A : Type} (mx : option A) (x : A) :
  x ∈ option_list mx → mx = Some x.
Proof.
  destruct mx as [y|]; simpl; intros Hin.
  - apply list_elem_of_singleton in Hin. by subst.
  - by apply elem_of_nil in Hin.
Qed.

Definition entry_of (location : ObfuscatedLocation) : LocationHistoryEntry :=
  {| entry_zoneId := zoneId location; timestamp := approximateTime location;
     isMoving := bool_decide (movementState location = moving) |}.

Lemma checkRouteDeviation_Some st d dr loc v f now a :
  checkRouteDeviation st d dr loc v f now = Some a →
  ∃ descr, a = createAlert d dr v route_deviation medium (zoneId loc) descr f now.
Proof.
  unfold checkRouteDeviation. destruct (expectedRoutes st !! d); [|done].
  destruct (includes _ _); [done|]. intros [= <-]. by eexists.
Qed.

Lemma checkUnusualStop_Some st d dr h v f now a :
  checkUnusualStop st d dr h v f now = Some a →
  ∃ zone descr, a = createAlert d dr v unusual_stop low zone descr f now.
Proof.
  unfold checkUnusualStop. case_decide; [done|]. case_decide; [|done].
  destruct (head _); [|done]. destruct (last_elem _); [|done].
  destruct (_ <=? _)%Z; [|done]. destruct (existsb _ _); [done|].
  intros [= <-]. by do 2 eexists.
Qed.

Lemma checkRapidZoneChanges_Some st d dr h v f now a :
  checkRapidZoneChanges st d dr h v f now = Some a →
  ∃ zone descr, a = createAlert d dr v tampering_detected high zone descr f now.
Proof.
  unfold checkRapidZoneChanges. case_decide; [done|].
  destruct (last_elem _); [|done]. destruct (head _); [|done].
  destruct (_ <=? _)%Z; [|done]. case_decide; [|done].
  intros [= <-]. by do 2 eexists.
Qed.

Lemma fold_storeAlert_other d alerts st k :
  k ∉ map id alerts →
  JsMap.get k (alertStore (fold_left (storeAlert d) alerts st))
  = JsMap.get k (alertStore st).
Proof.
  revert st. induction alerts as [|x l IH]; intros st Hk; [done|].
  simpl in *. apply not_elem_of_cons in Hk as [Hne Hk].
  rewrite IH by done. simpl. by apply get_set_ne.
Qed.

Lemma fold_storeAlert_get d alerts st a :
  NoDup (map id alerts) → a ∈ alerts →
  JsMap.get (id a) (alertStore (fold_left (storeAlert d) alerts st)) = Some a.
Proof.
  revert st. induction alerts as [|x l IH]; intros st Hnd Hin.
  - by apply elem_of_nil in Hin.
  - simpl in Hnd. apply NoDup_cons in Hnd as [Hx Hnd]. simpl.
    apply elem_of_cons in Hin as [->|Hin]; [|by apply IH].
    rewrite fold_storeAlert_other by done. simpl. apply get_set_eq.
Qed.

Lemma fold_storeAlert_ids d alerts st :
  default [] (deliveryAlerts (fold_left (storeAlert d) alerts st) !! d)
  = default [] (deliveryAlerts st !! d) ++ map id alerts.
Proof.
  revert st. induction alerts as [|x l IH]; intros st; simpl.
  - by rewrite app_nil_r.
  - rewrite IH. simpl. rewrite lookup_insert_eq. simpl. by rewrite <- app_assoc.
Qed.

Lemma fold_storeAlert_other_delivery d alerts st d' :
  d' ≠ d →
  deliveryAlerts (fold_left (storeAlert d) alerts st) !! d' = deliveryAlerts st !! d'.
Proof.
  intros Hne. revert st. induction alerts as [|x l IH]; intros st; [done|].
  simpl. rewrite IH. simpl. by rewrite lookup_insert_ne.
Qed.

Lemma fold_storeAlert_listed d alerts st a :
  NoDup (map id alerts) → a ∈ alerts →
  a ∈ getAlertsForDelivery (fold_left (storeAlert d) alerts st) d.
Proof.
  intros Hnd Hin. unfold getAlertsForDelivery. apply list_elem_of_omap.
  exists (id a). split; [|by apply fold_storeAlert_get].
  rewrite fold_storeAlert_ids. apply elem_of_app. right.
  apply list_elem_of_fmap. by exists a.
Qed.

(** The ids of the alerts of one update are among the three fresh ids, in
    their order. *)
Lemma update_alert_ids st d dr loc v f1 f2 f3 now :
  map id (processLocationUpdate st d dr loc v f1 f2 f3 now).1 `sublist_of` [f1; f2; f3].
Proof.
  unfold processLocationUpdate. cbv zeta. simpl fst.
  destruct (checkRouteDeviation _ _ _ _ _ _ _) as [a1|] eqn:H1;
    [apply checkRouteDeviation_Some in H1 as (? & ->)|];
    (destruct (checkUnusualStop _ _ _ _ _ _ _) as [a2|] eqn:H2;
       [apply checkUnusualStop_Some in H2 as (? & ? & ->)|]);
    (destruct (checkRapidZoneChanges _ _ _ _ _ _ _) as [a3|] eqn:H3;
       [apply checkRapidZoneChanges_Some in H3 as (? & ? & ->)|]);
    simpl;
    repeat first [apply sublist_nil | apply sublist_skip | apply sublist_cons].
Qed.

Lemma update_alert_fields st d dr loc v f1 f2 f3 now a :
  a ∈ (processLocationUpdate st d dr loc v f1 f2 f3 now).1 →
  ∃ ty sev zone descr f, a = createAlert d dr v ty sev zone descr f now.
Proof.
  unfold processLocationUpdate. cbv zeta. simpl fst. intros Hin.
  apply elem_of_app in Hin as [Hin|Hin]; [|apply elem_of_app in Hin as [Hin|Hin]];
    apply elem_of_option_list in Hin.
  - apply checkRouteDeviation_Some in Hin as (? & ->). by do 5 eexists.
  - apply checkUnusualStop_Some in Hin as (? & ? & ->). by do 5 eexists.
  - apply checkRapidZoneChanges_Some in Hin as (? & ? & ->). by do 5 eexists.
Qed.

(** X3.  Every alert that a location update returns is new, unacknowledged
    and unresolved, belongs to the delivery of the update, and is afterwards
    in the alert store under its id, in the delivery's alert list and in the
    list of unacknowledged alerts; the alert lists of other deliveries do not
    change.  The three ids drawn by the update are distinct. *)
Theorem raised_alerts_are_stored (st : State) (delivery driver : string)
    (location : ObfuscatedLocation) (vehicle : option string) (f1 f2 f3 : string)
    (now : Z) (a : SecurityAlert) :
  NoDup [f1; f2; f3] →
  let r := processLocationUpdate st delivery driver location vehicle f1 f2 f3 now in
  a ∈ r.1 →
  JsMap.get (id a) (alertStore r.2) = Some a
  ∧ a ∈ getAlertsForDelivery r.2 delivery
  ∧ a ∈ getUnacknowledgedAlerts r.2
  ∧ deliveryId a = delivery ∧ driverId a = driver ∧ detectedAt a = now
  ∧ isAcknowledged a = false ∧ resolution a = None
  ∧ ∀ other, other ≠ delivery →
      deliveryAlerts r.2 !! other = deliveryAlerts st !! other.
Proof.
  intros Hnd r Hin.
  assert (NoDup (map id r.1)) as Hids.
  { eapply sublist_NoDup; [exact Hnd | apply update_alert_ids]. }
  destruct (update_alert_fields _ _ _ _ _ _ _ _ _ _ Hin)
    as (ty & sev & zone & descr & f & Ha).
  assert (JsMap.get (id a) (alertStore r.2) = Some a) as Hget.
  { by apply fold_storeAlert_get. }
  split; [exact Hget|]. split; [by apply fold_storeAlert_listed|].
  split.
  { unfold getUnacknowledgedAlerts. apply list_elem_of_In, filter_In. split.
    - apply list_elem_of_In. by eapply get_values.
    - by rewrite Ha. }
  rewrite Ha. repeat (split; [reflexivity|]).
  intros other Hother. subst r. unfold processLocationUpdate. cbv zeta. simpl snd.
  by rewrite fold_storeAlert_other_delivery.
Qed.

Definition routed : State := setExpectedRoute initial "D1" ["z7"; "z8"] 30%Q.

Definition off_route_alert : SecurityAlert :=
  createAlert "D1" "U1" None route_deviation medium "z1"
    "Vehicle deviated from expected route. Current zone not in planned sequence."
    "a-1" 2000.

Lemma raised_alerts_are_stored_witness :
  let r := processLocationUpdate routed "D1" "U1" (zone_fix "z1" 1000) None
             "a-1" "a-2" "a-3" 2000 in
  r.1 = [off_route_alert]
  ∧ JsMap.get "a-1" (alertStore r.2) = Some off_route_alert
  ∧ off_route_alert ∈ getAlertsForDelivery r.2 "D1"
  ∧ off_route_alert ∈ getUnacknowledgedAlerts r.2.
Proof.
  intros r. split; [reflexivity|].
  destruct (raised_alerts_are_stored routed "D1" "U1" (zone_fix "z1" 1000) None
              "a-1" "a-2" "a-3" 2000%Z off_route_alert) as (H1 & H2 & H3 & _).
  - apply (bool_decide_unpack _). vm_compute. exact I.
  - apply list_elem_of_here.
  - exact (conj H1 (conj H2 H3)).
Defined.

(** *** The rapid-zone-change rule *)

Lemma length_remove_dups_le (l : list string) : length (remove_dups l) ≤ length l.
Proof.
  induction l as [|x l IH]; simpl; [done|].
  destruct (decide_rel _ x l); simpl; lia.
Qed.

Lemma NoDup_length_remove_dups (l : list string) :
  NoDup l ↔ length l ≤ length (remove_dups l).
Proof.
  induction l as [|x l IH]; simpl.
  - split; [lia | intros _; apply NoDup_nil_2].
  - pose proof (length_remove_dups_le l) as Hle.
    destruct (decide_rel _ x l) as [Hin|Hin]; simpl.
    + split; [|lia]. intros Hnd. by apply NoDup_cons in Hnd as [? _].
    + rewrite NoDup_cons. split.
      * intros [_ Hnd]. apply IH in Hnd. lia.
      * intros Hlen. split; [done|]. apply IH. lia.
Qed.

Lemma slice_last_app {A : Type} (n : nat) (h l : list A) :
  length l = n → slice_last n (h ++ l) = l.
Proof.
  intros Hl. unfold slice_last. rewrite length_app.
  replace (length h + length l - n) with (length h) by lia. apply drop_app_length.
Qed.

Lemma push_bounded_suffix {A : Type} (n : nat) (h l : list A) (x : A) :
  length l < n → ∃ h', push_bounded n (h ++ l) x = h' ++ l ++ [x].
Proof.
  intros Hl. unfold push_bounded. case_decide as Hfull.
  - destruct h as [|y h]; simpl in *.
    + rewrite length_app in Hfull. simpl in Hfull. lia.
    + exists h. by rewrite <- app_assoc.
  - exists h. by rewrite <- app_assoc.
Qed.

Lemma length_push_bounded_lt {A : Type} (n : nat) (a : list A) (x : A) :
  length (push_bounded n a x) ≤ S (length a).
Proof.
  unfold push_bounded. case_decide.
  - destruct (a ++ [x]) eqn:Heq; simpl; [lia|].
    apply (f_equal length) in Heq. rewrite length_app in Heq. simpl in Heq. lia.
  - rewrite length_app. simpl. lia.
Qed.

(** The description of a tampering alert for five zones. *)
Definition tampering_text (timeDiff : Z) : string :=
  "Suspicious location pattern: " +:+ show 5 +:+ " zone changes in "
  +:+ show (round_div timeDiff 1000) +:+ " seconds.".

Lemma checkRapidZoneChanges_recent st d dr h e1 e2 e3 e4 e5 v f now :
  checkRapidZoneChanges st d dr (h ++ [e1; e2; e3; e4; e5]) v f now
  = if decide (NoDup (map entry_zoneId [e1; e2; e3; e4; e5])
               ∧ (timestamp e5 - timestamp e1 ≤ 5 * 60 * 1000)%Z)
    then Some (createAlert d dr v tampering_detected high (entry_zoneId e5)
                 (tampering_text (timestamp e5 - timestamp e1)) f now)
    else None.
Proof.
  unfold checkRapidZoneChanges, rapidZoneChanges.
  rewrite decide_False by (rewrite length_app; simpl; lia).
  rewrite slice_last_app by done. cbn [last_elem last head].
  pose proof (NoDup_length_remove_dups (map entry_zoneId [e1; e2; e3; e4; e5])) as Hnd.
  pose proof (length_remove_dups_le (map entry_zoneId [e1; e2; e3; e4; e5])) as Hle.
  change (List.map entry_zoneId [e1; e2; e3; e4; e5])
    with (map entry_zoneId [e1; e2; e3; e4; e5]).
  set (zones := map entry_zoneId [e1; e2; e3; e4; e5]) in *.
  assert (length zones = 5) as Hzones by done. rewrite Hzones in *.
  destruct (Z.leb_spec (timestamp e5 - timestamp e1) (5 * 60 * 1000)) as [Ht|Ht].
  - destruct (decide (5 ≤ length (remove_dups zones))) as [Hu|Hu].
    + rewrite decide_True by (split; [by apply Hnd | done]).
      replace (length (remove_dups zones)) with 5 by lia. reflexivity.
    + rewrite decide_False; [done|]. intros [Hz _]. apply Hnd in Hz. lia.
  - rewrite decide_False; [done|]. intros [_ Hz]. lia.
Qed.

(** X4.  The rapid-zone-change rule.  When the driver's history ends with
    four earlier entries, an update raises a tampering alert exactly when the
    zones of these four entries and of the new one are pairwise different and
    the new entry is at most five minutes later than the first of the five;
    the alert has severity high, the zone of the update and the third fresh
    id.  With fewer than four earlier entries no tampering alert is raised. *)
Theorem tampering_alert_rule (st : State) (delivery driver : string)
    (location : ObfuscatedLocation) (vehicle : option string) (f1 f2 f3 : string)
    (now : Z) :
  let alerts :=
    (processLocationUpdate st delivery driver location vehicle f1 f2 f3 now).1 in
  (∀ h e1 e2 e3 e4,
     default [] (driverHistory st !! driver) = h ++ [e1; e2; e3; e4] →
     let rapid :=
       NoDup (map entry_zoneId [e1; e2; e3; e4; entry_of location])
       ∧ (approximateTime location - timestamp e1 ≤ 5 * 60 * 1000)%Z in
     let alert :=
       createAlert delivery driver vehicle tampering_detected high (zoneId location)
         (tampering_text (approximateTime location - timestamp e1)) f3 now in
     (rapid → alert ∈ alerts)
     ∧ (∀ a, a ∈ alerts → anomalyType a = tampering_detected → rapid ∧ a = alert))
  ∧ (length (default [] (driverHistory st !! driver)) < 4 →
     ∀ a, a ∈ alerts → anomalyType a ≠ tampering_detected).
Proof.
  intros alerts. subst alerts. unfold processLocationUpdate. cbv zeta. simpl fst.
  fold (entry_of location). split.
  - intros h e1 e2 e3 e4 Hh. rewrite Hh.
    destruct (push_bounded_suffix 100 h [e1; e2; e3; e4] (entry_of location))
      as [h' ->]; [simpl; lia|].
    change ([e1; e2; e3; e4] ++ [entry_of location])
      with [e1; e2; e3; e4; entry_of location].
    rewrite checkRapidZoneChanges_recent. cbv zeta. split.
    + intros Hrapid. rewrite decide_True by exact Hrapid.
      apply elem_of_app. right. apply elem_of_app. right. apply list_elem_of_here.
    + intros a Hin Hty.
      apply elem_of_app in Hin as [Hin|Hin]; [|apply elem_of_app in Hin as [Hin|Hin]];
        apply elem_of_option_list in Hin.
      * apply checkRouteDeviation_Some in Hin as (? & ->). discriminate.
      * apply checkUnusualStop_Some in Hin as (? & ? & ->). discriminate.
      * case_decide as Hrapid; [|discriminate]. by injection Hin as <-.
  - intros Hshort a Hin Hty.
    apply elem_of_app in Hin as [Hin|Hin]; [|apply elem_of_app in Hin as [Hin|Hin]];
      apply elem_of_option_list in Hin.
    + apply checkRouteDeviation_Some in Hin as (? & ->). discriminate.
    + apply checkUnusualStop_Some in Hin as (? & ? & ->). discriminate.
    + unfold checkRapidZoneChanges, rapidZoneChanges in Hin.
      rewrite decide_True in Hin; [discriminate|].
      pose proof (length_push_bounded_lt 100 (default [] (driverHistory st !! driver))
                    (entry_of location)). lia.
Qed.

Definition hop (zone : string) (at_time : Z) : LocationHistoryEntry :=
  {| entry_zoneId := zone; timestamp := at_time; isMoving := true |}.

Definition four_hops : State :=
  {| alertStore := JsMap.empty; deliveryAlerts := ∅;
     driverHistory :=
       {[ "U1" := [hop "z1" 0; hop "z2" 60000; hop "z3" 120000; hop "z4" 180000] ]};
     expectedRoutes := ∅ |}.

Lemma tampering_alert_rule_witness :
  createAlert "D1" "U1" None tampering_detected high "z5"
    "Suspicious location pattern: 5 zone changes in 240 seconds." "a-3" 250000
  ∈ (processLocationUpdate four_hops "D1" "U1" (zone_fix "z5" 240000) None
       "a-1" "a-2" "a-3" 250000).1.
Proof.
  apply (proj1 (proj1 (tampering_alert_rule four_hops "D1" "U1"
                         (zone_fix "z5" 240000) None "a-1" "a-2" "a-3" 250000%Z)
                  [] (hop "z1" 0) (hop "z2" 60000) (hop "z3" 120000)
                  (hop "z4" 180000) eq_refl)).
  split; [apply (bool_decide_unpack _); vm_compute; exact I | simpl; lia].
Defined.

(** *** The unusual-stop rule *)

(** The description of an unusual-stop alert. *)
Definition stop_text (duration : Z) : string :=
  "Vehicle stationary for " +:+ show (round_div duration 60000)
  +:+ " minutes in unscheduled location.".

Lemma filter_all_moving (ms : list LocationHistoryEntry) :
  Forall (λ e, isMoving e = true) ms → List.filter (λ e, negb (isMoving e)) ms = [].
Proof.
  induction 1 as [|e ms He _ IH]; [done|]. simpl. by rewrite He.
Qed.

Lemma slice_last_short {A : Type} (n : nat) (a : list A) :
  length a ≤ n → slice_last n a = a.
Proof.
  intros Hlen. unfold slice_last. by replace (length a - n) with 0 by lia.
Qed.

Lemma checkUnusualStop_stationary st d dr v f now s0 ms s1 e :
  isMoving s0 = false → isMoving s1 = false → isMoving e = false →
  Forall (λ m, isMoving m = true) ms → length ms ≤ 7 →
  (15 * 60 * 1000 ≤ timestamp e - timestamp s0)%Z →
  getAlertsForDelivery st d = [] →
  checkUnusualStop st d dr (s0 :: ms ++ [s1; e]) v f now
  = Some (createAlert d dr v unusual_stop low (entry_zoneId e)
            (stop_text (timestamp e - timestamp s0)) f now).
Proof.
  intros Hs0 Hs1 He Hms Hlen Hdur Hnone. unfold checkUnusualStop.
  assert (length (s0 :: ms ++ [s1; e]) = 3 + length ms) as Hl.
  { simpl. rewrite length_app. simpl. lia. }
  rewrite decide_False by lia.
  rewrite slice_last_short by lia.
  assert (List.filter (λ x, negb (isMoving x)) (s0 :: ms ++ [s1; e]) = [s0; s1; e])
    as ->.
  { simpl. rewrite Hs0. simpl. rewrite List.filter_app, filter_all_moving by done.
    simpl. by rewrite Hs1, He. }
  rewrite decide_True by (simpl; lia). cbn [head last_elem last].
  destruct (Z.leb_spec unusualStopMs (timestamp e - timestamp s0)) as [_|Hlt];
    [|unfold unusualStopMs in Hlt; lia].
  by rewrite Hnone.
Qed.

(** X5.  Movement between two stops does not reset the stop timer.  When
    the driver's history is a stationary entry, up to seven moving entries
    and another stationary entry, an update that is not reported as moving
    ('stationary' or 'unknown') and comes at least 15 minutes after the first
    entry raises an unusual-stop alert of severity low for the zone of the
    update, provided that the delivery has no alert yet. *)
Theorem unusual_stop_spans_movement (st : State) (delivery driver : string)
    (location : ObfuscatedLocation) (vehicle : option string) (f1 f2 f3 : string)
    (now : Z) (s0 s1 : LocationHistoryEntry) (ms : list LocationHistoryEntry) :
  driverHistory st !! driver = Some (s0 :: ms ++ [s1]) →
  isMoving s0 = false → isMoving s1 = false →
  Forall (λ e, isMoving e = true) ms → length ms ≤ 7 →
  movementState location ≠ moving →
  (15 * 60 * 1000 ≤ approximateTime location - timestamp s0)%Z →
  getAlertsForDelivery st delivery = [] →
  createAlert delivery driver vehicle unusual_stop low (zoneId location)
    (stop_text (approximateTime location - timestamp s0)) f2 now
  ∈ (processLocationUpdate st delivery driver location vehicle f1 f2 f3 now).1.
Proof.
  intros Hh Hs0 Hs1 Hms Hlen Hstate Hdur Hnone.
  unfold processLocationUpdate. cbv zeta. simpl fst. fold (entry_of location).
  rewrite Hh. simpl default.
  rewrite push_bounded_room by (simpl; rewrite length_app; simpl; lia).
  replace ((s0 :: ms ++ [s1]) ++ [entry_of location])
    with (s0 :: ms ++ [s1; entry_of location])
    by (simpl; by rewrite <- app_assoc).
  rewrite (checkUnusualStop_stationary _ delivery driver vehicle f2 now s0 ms s1
             (entry_of location)); try done.
  - apply elem_of_app. right. apply elem_of_app. left. apply list_elem_of_here.
  - simpl. by apply bool_decide_eq_false_2.
Qed.

Definition stop_and_go : State :=
  {| alertStore := JsMap.empty; deliveryAlerts := ∅;
     driverHistory :=
       {[ "U1" := [{| entry_zoneId := "z1"; timestamp := 0; isMoving := false |};
                   hop "z2" 300000; hop "z3" 600000;
                   {| entry_zoneId := "z4"; timestamp := 840000; isMoving := false |}] ]};
     expectedRoutes := ∅ |}.

Lemma unusual_stop_spans_movement_witness :
  createAlert "D1" "U1" None unusual_stop low "z5"
    "Vehicle stationary for 15 minutes in unscheduled location." "a-2" 901000
  ∈ (processLocationUpdate stop_and_go "D1" "U1"
       {| zoneId := "z5"; approximateTime := 900000; movementState := unknown;
          loc_resolution := 8%Q; zoneDescription := None |}
       None "a-1" "a-2" "a-3" 901000).1.
Proof.
  apply (unusual_stop_spans_movement stop_and_go "D1" "U1"
           {| zoneId := "z5"; approximateTime := 900000; movementState := unknown;
              loc_resolution := 8%Q; zoneDescription := None |}
           None "a-1" "a-2" "a-3" 901000%Z
           {| entry_zoneId := "z1"; timestamp := 0; isMoving := false |}
           {| entry_zoneId := "z4"; timestamp := 840000; isMoving := false |}
           [hop "z2" 300000; hop "z3" 600000]).
  - reflexivity.
  - reflexivity.
  - reflexivity.
  - repeat (apply Forall_cons; split; [reflexivity|]). apply Forall_nil_2.
  - simpl. lia.
  - discriminate.
  - simpl. lia.
  - reflexivity.
Defined.





(** *** Loss of communication *)




(** *** Acknowledging and resolving *)

Lemma count_set {V : Type} (p : V → bool) (m : JsMap.t V) (k : string) (v v' : V) :
  JsMap.get k m = Some v →
  length (List.filter p (JsMap.values (JsMap.set k v' m))) + (if p v then 1 else 0)
  = length (List.filter p (JsMap.values m)) + (if p v' then 1 else 0).
Proof.
  induction m as [|[k0 v0] m IH]; simpl; [done|].
  destruct (String.eqb k k0).
  - intros [= ->]. simpl. destruct (p v), (p v'); simpl; lia.
  - intros Hget. specialize (IH Hget). simpl. destruct (p v0); simpl; lia.
Qed.

Lemma length_set {V : Type} (m : JsMap.t V) (k : string) (v v' : V) :
  JsMap.get k m = Some v → length (JsMap.values (JsMap.set k v' m)) = length (JsMap.values m).
Proof.
  induction m as [|[k0 v0] m IH]; simpl; [done|].
  destruct (String.eqb k k0); simpl; [done|]. intros Hget. by rewrite IH.
Qed.

(** X8.  Acknowledging a stored alert records who and when and takes it
    out of the unacknowledged alerts: the total stays, the number of
    unacknowledged alerts drops by one if the alert was unacknowledged and
    stays otherwise (a second acknowledgement succeeds again and overwrites
    who and when).  Resolving a stored alert does not acknowledge it: both
    counts stay as they are. *)
Theorem acknowledging_and_resolving_counts (st : State) (alertId who : string)
    (now : Z) (status : ResolutionStatus) (notes_ : option string) (a : SecurityAlert) :
  JsMap.get alertId (alertStore st) = Some a →
  let r_ack := acknowledgeAlert st alertId who now in
  let r_res := resolveAlert st alertId who status notes_ now in
  r_ack.1 = true
  ∧ (∃ a', JsMap.get alertId (alertStore r_ack.2) = Some a'
           ∧ isAcknowledged a' = true ∧ acknowledgedBy a' = Some who
           ∧ acknowledgedAt a' = Some now ∧ resolution a' = resolution a)
  ∧ totalAlerts (getSecurityStats r_ack.2) = totalAlerts (getSecurityStats st)
  ∧ unacknowledged (getSecurityStats r_ack.2) + (if isAcknowledged a then 0 else 1)
    = unacknowledged (getSecurityStats st)
  ∧ r_res.1 = true
  ∧ (∃ a', JsMap.get alertId (alertStore r_res.2) = Some a'
           ∧ isAcknowledged a' = isAcknowledged a
           ∧ resolution a'
             = Some {| res_status := status; notes := notes_; resolvedAt := now;
                       resolvedBy := who |})
  ∧ totalAlerts (getSecurityStats r_res.2) = totalAlerts (getSecurityStats st)
  ∧ unacknowledged (getSecurityStats r_res.2) = unacknowledged (getSecurityStats st).
Proof.
  intros Hget r_ack r_res. subst r_ack r_res.
  unfold acknowledgeAlert, resolveAlert. rewrite Hget. unfold getSecurityStats. simpl.
  split; [done|]. split.
  { eexists. split; [apply get_set_eq|]. done. }
  split; [by rewrite (length_set _ _ a)|]. split.
  { pose proof (count_set (λ x, negb (isAcknowledged x)) (alertStore st) alertId a
                  {| id := id a; deliveryId := deliveryId a; driverId := driverId a;
                     vehicleId := vehicleId a; anomalyType := anomalyType a;
                     severity := severity a; alert_zoneId := alert_zoneId a;
                     detectedAt := detectedAt a; description := description a;
                     isAcknowledged := true; acknowledgedAt := Some now;
                     acknowledgedBy := Some who; resolution := resolution a |} Hget)
      as Hcount.
    simpl in Hcount. destruct (isAcknowledged a); simpl in *; lia. }
  split; [done|]. split.
  { eexists. split; [apply get_set_eq|]. done. }
  split; [by rewrite (length_set _ _ a)|].
  pose proof (count_set (λ x, negb (isAcknowledged x)) (alertStore st) alertId a
                {| id := id a; deliveryId := deliveryId a; driverId := driverId a;
                   vehicleId := vehicleId a; anomalyType := anomalyType a;
                   severity := severity a; alert_zoneId := alert_zoneId a;
                   detectedAt := detectedAt a; description := description a;
                   isAcknowledged := isAcknowledged a;
                   acknowledgedAt := acknowledgedAt a;
                   acknowledgedBy := acknowledgedBy a;
                   resolution :=
                     Some {| res_status := status; notes := notes_; resolvedAt := now;
                             resolvedBy := who |} |} Hget) as Hcount.
  simpl in Hcount. lia.
Qed.

Definition silent_delivery : State :=
  (checkCommunicationLoss initial "D1" "U1" 0 None "a-1" 1860000).2.

Lemma acknowledging_and_resolving_counts_witness :
  unacknowledged (getSecurityStats silent_delivery) = 1
  ∧ unacknowledged
      (getSecurityStats (acknowledgeAlert silent_delivery "a-1" "admin-1" 1900000).2) = 0
  ∧ unacknowledged
      (getSecurityStats
         (resolveAlert silent_delivery "a-1" "admin-1" investigated None 1900000).2) = 1.
Proof.
  destruct (acknowledging_and_resolving_counts silent_delivery "a-1" "admin-1" 1900000%Z
              investigated None
              (createAlert "D1" "U1" None communication_lost high ""
                 "No communication for 31 minutes." "a-1" 1860000) eq_refl)
    as (_ & _ & _ & Hack & _ & _ & _ & Hres).
  assert (unacknowledged (getSecurityStats silent_delivery) = 1) as Hone by reflexivity.
  split; [exact Hone|]. split.
  - rewrite Hone in Hack. unfold createAlert in Hack. cbn [isAcknowledged] in Hack. lia.
  - rewrite Hres. exact Hone.
Defined.

End MonitorFacts.

(** ** Delivery verifier: a newer one-time password behind an older one *)

Module RenewalFacts.
Import Encoding Verifier JsMapFacts OtpFacts.




End RenewalFacts.

(** ** Delivery verifier: stored signatures and photos *)

Module EvidenceFacts.
Import Encoding Encryption Verifier EncodingFacts EncryptionFacts.

Lemma signatureStore_updateVerification (st : State) (d : string)
    (m : VerificationMethod) (now : Z) :
  signatureStore (updateVerification st d m now) = signatureStore st.
Proof. unfold updateVerification. by destruct (verificationStore st !! d). Qed.

Lemma photoStore_updateVerification (st : State) (d : string)
    (m : VerificationMethod) (now : Z) :
  photoStore (updateVerification st d m now) = photoStore st.
Proof. unfold updateVerification. by destruct (verificationStore st !! d). Qed.

(** X10.  A stored signature passes [verifySignatureIntegrity] for its
    delivery exactly when the signature data is not empty: the data come back
    from [decrypt] and hash to the stored hash, whereas the encrypted form of
    the empty string is refused by [decrypt], so that the integrity check of
    an empty signature fails.  Under any other delivery id the check fails.
    The cipher is one that decrypts what it encrypted with a ciphertext as
    long as the plaintext, the base64 decoder inverts the encoder, and the
    text is well formed, so that UTF-8 decoding inverts the encoding. *)
Theorem stored_signature_verifies :
  ∀ (crypto : NodeCrypto) (config : Config) (st : State) (d data : string)
    (signer : option string) (fresh : string) (iv ivName : list Byte.byte) (now : Z),
    let k := hmac_sha256_digest (encryptionKey config) d in
    let r := aes_256_gcm_encrypt k iv (utf8_encode data) in
    (∀ b, from_base64 (base64 b) = b) →
    aes_256_gcm_decrypt k iv (snd r) (fst r) = Some (utf8_encode data) →
    length (fst r) = length (utf8_encode data) →
    snd r ≠ [] → iv ≠ [] →
    let st' := snd (storeSignature config st d data signer fresh iv ivName now) in
    (data ≠ "" → verifySignatureIntegrity config st' fresh d = true)
    ∧ (data = "" → verifySignatureIntegrity config st' fresh d = false)
    ∧ (∀ other, other ≠ d → verifySignatureIntegrity config st' fresh other = false).
Proof.
  intros crypto config st d data signer fresh iv ivName now k r Hb64 Hdec Hlen Htag Hiv st'.
  subst st'. unfold storeSignature, verifySignatureIntegrity. cbv zeta. simpl snd.
  rewrite signatureStore_updateVerification. simpl. rewrite lookup_insert_eq. simpl.
  split; [|split].
  - intros Hdata. rewrite String.eqb_refl. simpl.
    rewrite (decrypt_encrypt_nonempty config data d iv) by done.
    apply String.eqb_refl.
  - intros ->. rewrite String.eqb_refl. simpl.
    rewrite (decrypt_empty_body config "" d d iv); [done|].
    fold k. fold r. destruct (fst r); [done|]. simpl in Hlen. lia.
  - intros other Hother. apply String.eqb_neq in Hother.
    by rewrite String.eqb_sym, Hother.
Qed.

Lemma stored_signature_verifies_witness :
  @verifySignatureIntegrity stub_crypto stub_config
    (snd (@storeSignature stub_crypto stub_config initial "D1" "signature-data"
            (Some "Asha") "s-1" stub_iv stub_iv 6)) "s-1" "D1" = true
  ∧ @verifySignatureIntegrity stub_crypto stub_config
      (snd (@storeSignature stub_crypto stub_config initial "D1" "" None "s-2" stub_iv
              stub_iv 7)) "s-2" "D1" = false.
Proof.
  pose proof (stored_signature_verifies stub_crypto stub_config initial "D1"
                "signature-data" (Some "Asha") "s-1" stub_iv stub_iv 6%Z
                Base64Decoder.decode_base64 eq_refl eq_refl
                ltac:(discriminate) ltac:(discriminate)) as (Hyes & _ & _).
  pose proof (stored_signature_verifies stub_crypto stub_config initial "D1"
                "" None "s-2" stub_iv stub_iv 7%Z
                Base64Decoder.decode_base64 eq_refl eq_refl
                ltac:(discriminate) ltac:(discriminate)) as (_ & Hno & _).
  split; [apply Hyes; discriminate | apply Hno; reflexivity].
Defined.

(** X11.  A stored photo comes back from [getDeliveryPhoto] for its
    delivery, bytes and metadata, exactly when it has at least one byte; for
    a photo without bytes, and under any other delivery id, the answer is
    null.  The cipher and the base64 decoder are as for signatures. *)
Theorem stored_photo_is_returned :
  ∀ (crypto : NodeCrypto) (config : Config) (st : State) (d : string)
    (photoData : list Byte.byte) (w h : Q) (mime : string)
    (location : option RawCoordinates) (fresh : string) (iv : list Byte.byte) (now : Z),
    let k := hmac_sha256_digest (encryptionKey config) d in
    let r := aes_256_gcm_encrypt k iv (utf8_encode (base64 photoData)) in
    (∀ b, from_base64 (base64 b) = b) →
    aes_256_gcm_decrypt k iv (snd r) (fst r) = Some (utf8_encode (base64 photoData)) →
    length (fst r) = length (utf8_encode (base64 photoData)) →
    snd r ≠ [] → iv ≠ [] →
    let st' :=
      snd (storeDeliveryPhoto config st d photoData w h mime location fresh iv now) in
    (photoData ≠ [] →
     getDeliveryPhoto config st' fresh d
     = Some (photoData, {| width := w; height := h; mimeType := mime;
                           sizeBytes := length photoData |}))
    ∧ (photoData = [] → getDeliveryPhoto config st' fresh d = None)
    ∧ (∀ other, other ≠ d → getDeliveryPhoto config st' fresh other = None).
Proof.
  intros crypto config st d photoData w h mime location fresh iv now k r Hb64 Hdec Hlen
    Htag Hiv st'.
  subst st'. unfold storeDeliveryPhoto, getDeliveryPhoto. cbv zeta. simpl snd.
  rewrite photoStore_updateVerification. simpl. rewrite lookup_insert_eq. simpl.
  split; [|split].
  - intros Hdata. rewrite String.eqb_refl. simpl.
    rewrite (decrypt_encrypt_nonempty config (base64 photoData) d iv); try done.
    + by rewrite Hb64.
    + by rewrite base64_nil_iff.
  - intros ->. rewrite String.eqb_refl. simpl.
    rewrite (decrypt_empty_body config (base64 []) d d iv); [done|].
    fold k. change (base64 []) with "" in *. fold r.
    destruct (fst r); [done|]. simpl in Hlen. lia.
  - intros other Hother. apply String.eqb_neq in Hother.
    by rewrite String.eqb_sym, Hother.
Qed.

Lemma stored_photo_is_returned_witness :
  @getDeliveryPhoto stub_crypto stub_config
    (snd (@storeDeliveryPhoto stub_crypto stub_config initial "D1" [Byte.xff; Byte.xd8]
            1%Q 1%Q "image/jpeg" None "p-1" stub_iv 5)) "p-1" "D1"
  = Some ([Byte.xff; Byte.xd8],
          {| width := 1%Q; height := 1%Q; mimeType := "image/jpeg"; sizeBytes := 2 |})
  ∧ @getDeliveryPhoto stub_crypto stub_config
      (snd (@storeDeliveryPhoto stub_crypto stub_config initial "D1" []
              1%Q 1%Q "image/jpeg" None "p-2" stub_iv 5)) "p-2" "D1"
    = None.
Proof.
  pose proof (stored_photo_is_returned stub_crypto stub_config initial "D1"
                [Byte.xff; Byte.xd8] 1%Q 1%Q "image/jpeg" None "p-1" stub_iv 5%Z
                Base64Decoder.decode_base64 eq_refl eq_refl
                ltac:(discriminate) ltac:(discriminate)) as (Hyes & _ & _).
  pose proof (stored_photo_is_returned stub_crypto stub_config initial "D1"
                [] 1%Q 1%Q "image/jpeg" None "p-2" stub_iv 5%Z
                Base64Decoder.decode_base64 eq_refl eq_refl
                ltac:(discriminate) ltac:(discriminate)) as (_ & Hno & _).
  split; [apply Hyes; discriminate | apply Hno; reflexivity].
Defined.

End EvidenceFacts.

(** ** Emergency orchestrator: the active slot of a driver *)

Module ActiveSlotFacts.
Import Emergency JsMapFacts.

(** X12.  Resolving a stored emergency sets its status to resolved and
    empties the active slot of its driver, whichever emergency the slot
    held: [getActiveEmergency] of the driver is null afterwards.  The other
    records are untouched, so another unresolved emergency of the same
    driver is still listed by [getAllActiveEmergencies]. *)
Theorem resolving_empties_the_active_slot (st : State) (emergencyId who : string)
    (e : EmergencyRecord) :
  getEmergency st emergencyId = Some e →
  let r := resolveEmergency st emergencyId who in
  r.1 = true
  ∧ getEmergency r.2 emergencyId = Some (set_status resolved e)
  ∧ getActiveEmergency r.2 (driverId e) = None
  ∧ (∀ other, other ≠ emergencyId → getEmergency r.2 other = getEmergency st other)
  ∧ (∀ other e', other ≠ emergencyId → getEmergency st other = Some e' →
       status e' ≠ resolved → e' ∈ getAllActiveEmergencies r.2).
Proof.
  intros Hget r. subst r. unfold getEmergency in *. unfold resolveEmergency. rewrite Hget.
  simpl. split; [done|]. split; [apply get_set_eq|]. split.
  { unfold getActiveEmergency. simpl. by rewrite lookup_delete_eq. }
  split.
  { intros other Hother. by apply get_set_ne. }
  intros other e' Hother Hget' Hstatus.
  unfold getAllActiveEmergencies. simpl. apply list_elem_of_In, filter_In. split.
  - apply list_elem_of_In. apply (get_values _ other).
    rewrite get_set_ne by done. exact Hget'.
  - by rewrite bool_decide_eq_false_2.
Qed.

(** Two panics of driver "U1", which leave two unresolved records. *)
Definition two_panics : State :=
  snd (triggerPanicButton
         (snd (triggerPanicButton initial "U1" EmergencyFacts.nairobi (Some "D3") "e-1" 10))
         "U1" EmergencyFacts.nairobi (Some "D3") "e-2" 20).

Lemma resolving_empties_the_active_slot_witness :
  let r := resolveEmergency two_panics "e-1" "officer-1" in
  getActiveEmergency two_panics "U1"
  = Some {| id := "e-2"; driverId := "U1"; deliveryId := Some "D3";
            emergencyType := panic_button; location := EmergencyFacts.nairobi;
            triggeredAt := 20; status := responding; notificationsent := [] |}
  ∧ getActiveEmergency r.2 "U1" = None
  ∧ {| id := "e-2"; driverId := "U1"; deliveryId := Some "D3";
       emergencyType := panic_button; location := EmergencyFacts.nairobi;
       triggeredAt := 20; status := responding; notificationsent := [] |}
    ∈ getAllActiveEmergencies r.2.
Proof.
  intros r. split; [reflexivity|].
  destruct (resolving_empties_the_active_slot two_panics "e-1" "officer-1"
              {| id := "e-1"; driverId := "U1"; deliveryId := Some "D3";
                 emergencyType := panic_button; location := EmergencyFacts.nairobi;
                 triggeredAt := 10; status := responding; notificationsent := [] |}
              eq_refl) as (_ & _ & Hslot & _ & Hlisted).
  split; [exact Hslot|].
  apply (Hlisted "e-2"); [discriminate | reflexivity | discriminate].
Defined.

Section WithNumerics.
Context `{Numerics}.



End WithNumerics.





End ActiveSlotFacts.

(** ** Broadcaster: a socket that has disconnected *)

Module DisconnectFacts.
Import AccessControl Broadcaster JsMapFacts BroadcastFacts.

(** The operation files the socket [sid] as a client or puts it into a
    room. *)
Definition attaches (sid : string) (op : Op) : bool :=
  match op with
  | Authenticate s _ _ | Subscribe s _ => String.eqb s sid
  | _ => false
  end.

(** The socket is no client and in no room. *)
Definition detached (st : State) (sid : string) : Prop :=
  JsMap.get sid (clients st) = None
  ∧ ∀ room members, rooms st !! room = Some members → sid ∉ members.

Lemma get_delete_eq {V : Type} (m : JsMap.t V) (k : string) :
  JsMap.get k (JsMap.delete k m) = None.
Proof.
  induction m as [|[k0 v0] m IH]; simpl; [done|].
  destruct (String.eqb k k0) eqn:E; simpl; [done|]. by rewrite E.
Qed.

Lemma get_delete_none {V : Type} (m : JsMap.t V) (k k' : string) :
  JsMap.get k m = None → JsMap.get k (JsMap.delete k' m) = None.
Proof.
  induction m as [|[k0 v0] m IH]; simpl; [done|].
  destruct (String.eqb k k0) eqn:E; [done|]. intros Hget.
  destruct (negb (String.eqb k' k0)); simpl; [|by apply IH].
  rewrite E. by apply IH.
Qed.

Lemma detached_disconnect (st : State) (sid : string) : detached (on_disconnect st sid) sid.
Proof.
  split; simpl.
  - apply get_delete_eq.
  - intros room members. rewrite lookup_fmap.
    destruct (rooms st !! room) as [old|]; simpl; [|done].
    intros [= <-]. rewrite elem_of_difference, elem_of_singleton. by intros [_ Hne].
Qed.

Lemma broadcast_clients_rooms (st : State) (event : RealtimeEvent) :
  clients (snd (broadcast st event)) = clients st
  ∧ rooms (snd (broadcast st event)) = rooms st.
Proof.
  unfold broadcast. destruct (io st); simpl; [|done].
  destruct (userIds (audience event)) as [ids|]; [|done].
  by destruct (0 <? length ids)%nat.
Qed.

Lemma detached_step (st : State) (op : Op) (sid : string) :
  detached st sid → attaches sid op = false → detached (snd (step st op)) sid.
Proof.
  intros [Hclient Hrooms] Hop. destruct op as [|s u r|s d|s d|s|s now|event|]; simpl in *.
  - split; [done|]. intros room members Hroom.
    unfold initializeWebSocket in Hroom. simpl in Hroom. by rewrite lookup_empty in Hroom.
  - apply String.eqb_neq in Hop. unfold on_authenticate. simpl.
    assert (detached (with_clients
                        (JsMap.set s {| userId := u; role := r; socket := s |}) st) sid)
      as Hset.
    { split; [|done]. simpl. by rewrite get_set_ne. }
    destruct (offlineQueue st !! u) as [queued|]; [|done].
    by destruct (0 <? length queued)%nat.
  - apply String.eqb_neq in Hop. split; [done|]. simpl. intros room members.
    destruct (decide (room_name d = room)) as [<-|Hne].
    + rewrite lookup_insert_eq. intros [= <-].
      destruct (rooms st !! room_name d) as [old|] eqn:Hold; simpl.
      * specialize (Hrooms _ _ Hold).
        rewrite elem_of_union, elem_of_singleton. intros [?|?]; [done|]. by subst.
      * rewrite elem_of_union, elem_of_singleton. intros [Hin|?]; [|by subst].
        by apply elem_of_empty in Hin.
    + rewrite lookup_insert_ne by done. apply Hrooms.
  - split; [done|]. simpl. intros room members.
    destruct (rooms st !! room_name d) as [old|] eqn:Hold; [|apply Hrooms].
    destruct (decide (room_name d = room)) as [<-|Hne].
    + rewrite lookup_insert_eq. intros [= <-]. specialize (Hrooms _ _ Hold).
      rewrite elem_of_difference. by intros [? _].
    + rewrite lookup_insert_ne by done. apply Hrooms.
  - split; simpl.
    + by apply get_delete_none.
    + intros room members. rewrite lookup_fmap.
      destruct (rooms st !! room) as [old|] eqn:Hold; simpl; [|done].
      intros [= <-]. specialize (Hrooms _ _ Hold).
      rewrite elem_of_difference. by intros [? _].
  - done.
  - destruct (broadcast_clients_rooms st event) as [Hc Hr].
    split; [by rewrite Hc | by rewrite Hr].
  - unfold closeWebSocket. destruct (io st); [|done].
    split; [done|]. intros room members Hroom.
    simpl in Hroom. by rewrite lookup_empty in Hroom.
Qed.

Lemma detached_run (later : list Op) (st : State) (sid : string) :
  detached st sid → Forall (λ op, attaches sid op = false) later →
  detached (run st later) sid.
Proof.
  revert st. induction later as [|op later IH]; intros st Hst Hlater; [done|].
  apply Forall_cons in Hlater as [Hop Hlater]. simpl. apply IH; [|done].
  by apply detached_step.
Qed.

(** X14.  A socket that has disconnected receives no broadcast until it
    authenticates or subscribes again: after 'disconnect' of a socket,
    whatever happened before and whatever the other sockets do afterwards,
    [broadcast] of any event emits nothing to that socket. *)
Theorem disconnected_socket_receives_nothing :
  ∀ (ops later : list Op) (sid : string) (event : RealtimeEvent),
    Forall (λ op, attaches sid op = false) later →
    deliveries sid event
      (fst (broadcast (run initial (ops ++ Disconnect sid :: later)) event)) = 0.
Proof.
  intros ops later sid event Hlater.
  set (st := run initial (ops ++ Disconnect sid :: later)).
  assert (detached st sid) as [Hclient Hrooms].
  { subst st. unfold run. rewrite fold_left_app. simpl.
    apply (detached_run later); [|done]. apply detached_disconnect. }
  rewrite broadcast_deliveries.
  - destruct (io st); [|done].
    assert (in_room st event sid = false) as ->.
    { unfold in_room. destruct (aud_deliveryId (audience event)) as [d|]; [|done].
      destruct (rooms st !! room_name d) as [members|] eqn:Hroom; simpl.
      - rewrite (bool_decide_eq_false_2 (sid ∈ members)) by by eapply Hrooms.
        apply andb_false_r.
      - rewrite (bool_decide_eq_false_2 (sid ∈ (∅ : gset string)))
          by apply not_elem_of_empty.
        apply andb_false_r. }
    assert (listed_user st event sid = false) as ->.
    { unfold listed_user. rewrite Hclient. by destruct (userIds (audience event)). }
    assert (listed_role st event sid = false) as ->.
    { unfold listed_role. rewrite Hclient. by destruct (roles (audience event)). }
    done.
  - subst st. apply clients_wf_run. split; [apply NoDup_nil_2 | apply Forall_nil_2].
Qed.

Lemma disconnected_socket_receives_nothing_witness :
  deliveries "s1" alert_for_all
    (fst (broadcast
            (run initial
               ([InitializeWebSocket; Authenticate "s1" "U1" admin; Subscribe "s1" "D1"]
                ++ Disconnect "s1"
                   :: [Authenticate "s2" "U2" admin; Subscribe "s2" "D1"]))
            alert_for_all)) = 0
  ∧ deliveries "s2" alert_for_all
      (fst (broadcast
              (run initial
                 ([InitializeWebSocket; Authenticate "s1" "U1" admin; Subscribe "s1" "D1"]
                  ++ Disconnect "s1"
                     :: [Authenticate "s2" "U2" admin; Subscribe "s2" "D1"]))
              alert_for_all)) = 2.
Proof.
  split; [|vm_compute; reflexivity].
  apply (disconnected_socket_receives_nothing
           [InitializeWebSocket; Authenticate "s1" "U1" admin; Subscribe "s1" "D1"]
           [Authenticate "s2" "U2" admin; Subscribe "s2" "D1"] "s1" alert_for_all).
  repeat (apply Forall_cons; split; [reflexivity|]). apply Forall_nil_2.
Defined.

End DisconnectFacts.

(** ** Notification service: the rate-limit window *)

Module RateLimitFacts.
Import Notifier JsMapFacts NotifierFacts.

(** The arguments of one [sendNotification] for a fixed recipient and
    channel, with the id, the random bytes and the clock of the call. *)
Record Call := {
  call_template : string;
  call_content : string;
  call_priority : option NotificationPriority;
  call_fresh : string;
  call_iv : list Byte.byte;
  call_now : Z
}.

(** The key of [rateLimitStore] for a recipient and a channel. *)
Definition rate_key (recipient : string) (chan : NotificationChannel) : string :=
  "notify:" +:+ recipient +:+ ":" +:+ channel_name chan.

Section WithCrypto.
Context `{NodeCrypto}.
Variable config : Config.

Definition send (st : State) (recipient : string) (chan : NotificationChannel)
    (c : Call) : (string + NotificationRecord) * State :=
  sendNotification config st recipient chan (call_template c) (call_content c)
    (call_priority c) (call_fresh c) (call_iv c) (call_now c).

(** Successive sends; for each one the message of the error it throws, if
    any. *)
Fixpoint send_all (st : State) (recipient : string) (chan : NotificationChannel)
    (calls : list Call) : list (option string) * State :=
  match calls with
  | [] => ([], st)
  | c :: rest =>
      let '(res, st1) := send st recipient chan c in
      let '(ress, st2) := send_all st1 recipient chan rest in
      (match res with inl message => Some message | inr _ => None end :: ress, st2)
  end.

Lemma send_all_app (st : State) (recipient : string) (chan : NotificationChannel)
    (c1 c2 : list Call) :
  send_all st recipient chan (c1 ++ c2)
  = let '(r1, st1) := send_all st recipient chan c1 in
    let '(r2, st2) := send_all st1 recipient chan c2 in
    (r1 ++ r2, st2).
Proof.
  revert st. induction c1 as [|c c1 IH]; intros st; simpl.
  - by destruct (send_all st recipient chan c2).
  - destruct (send st recipient chan c) as [res st1]. rewrite IH.
    destruct (send_all st1 recipient chan c1) as [r1 st1'].
    by destruct (send_all st1' recipient chan c2).
Qed.

Lemma rateLimitStore_deliverNotification (st : State) (n : NotificationRecord) (now : Z) :
  rateLimitStore (snd (deliverNotification st n now)) = rateLimitStore st.
Proof.
  unfold deliverNotification, deliverSMS, deliverPush, deliverWhatsApp, deliverUSSD,
    deliverEmail.
  by destruct (channel n).
Qed.

(** A send that is let through. *)
Lemma send_pass (st : State) (recipient : string) (chan : NotificationChannel) (c : Call) :
  rate_limited st recipient chan (call_now c) = false →
  (∃ n, fst (send st recipient chan c) = inr n)
  ∧ rateLimitStore (snd (send st recipient chan c)) !! rate_key recipient chan
    = Some match rateLimitStore st !! rate_key recipient chan with
           | Some rl => {| count := count rl + 1; resetAt := resetAt rl |}
           | None => {| count := 1; resetAt := (call_now c + 60000)%Z |}
           end.
Proof.
  intros Hfree. unfold send. split.
  - destruct (sendNotification_sent config st recipient chan (call_template c)
                (call_content c) (call_priority c) (call_fresh c) (call_iv c)
                (call_now c) Hfree) as (n & Hn & _).
    by exists n.
  - unfold rate_limited in Hfree. unfold sendNotification. fold (rate_key recipient chan).
    fold (rate_key recipient chan) in Hfree.
    destruct (rateLimitStore st !! rate_key recipient chan) as [rl|] eqn:Hrl.
    + rewrite Hfree.
      match goal with
      | |- context [deliverNotification ?s ?n ?t] =>
          pose proof (rateLimitStore_deliverNotification s n t) as Hsame;
          destruct (deliverNotification s n t) as [n' st3]
      end.
      simpl in *. rewrite Hsame. by rewrite lookup_insert_eq.
    + match goal with
      | |- context [deliverNotification ?s ?n ?t] =>
          pose proof (rateLimitStore_deliverNotification s n t) as Hsame;
          destruct (deliverNotification s n t) as [n' st3]
      end.
      simpl in *. rewrite Hsame. by rewrite lookup_insert_eq.
Qed.

Lemma send_all_counted (calls : list Call) :
  ∀ (st : State) (recipient : string) (chan : NotificationChannel) (rl : RateLimit),
    rateLimitStore st !! rate_key recipient chan = Some rl →
    (count rl + Z.of_nat (length calls) ≤ 10)%Z →
    fst (send_all st recipient chan calls) = replicate (length calls) None
    ∧ rateLimitStore (snd (send_all st recipient chan calls)) !! rate_key recipient chan
      = Some {| count := count rl + Z.of_nat (length calls); resetAt := resetAt rl |}.
Proof.
  induction calls as [|c calls IH]; intros st recipient chan rl Hrl Hcount.
  - simpl. split; [done|]. rewrite Hrl. destruct rl. simpl. f_equal. f_equal. lia.
  - simpl in *.
    assert (rate_limited st recipient chan (call_now c) = false) as Hfree.
    { unfold rate_limited. fold (rate_key recipient chan). rewrite Hrl.
      destruct (Z.leb_spec 10 (count rl)); [lia|]. apply andb_false_r. }
    destruct (send_pass st recipient chan c Hfree) as [[n Hn] Hentry].
    rewrite Hrl in Hentry.
    destruct (send st recipient chan c) as [res st1]. simpl in *. subst res.
    destruct (IH st1 recipient chan _ Hentry) as [Hres Hentry']; [simpl; lia|].
    destruct (send_all st1 recipient chan calls) as [ress st2]. simpl in *.
    split; [by rewrite Hres|]. rewrite Hentry'. f_equal. f_equal. lia.
Qed.

Lemma send_all_late (calls : list Call) :
  ∀ (st : State) (recipient : string) (chan : NotificationChannel) (rl : RateLimit),
    rateLimitStore st !! rate_key recipient chan = Some rl →
    Forall (λ c, (resetAt rl ≤ call_now c)%Z) calls →
    fst (send_all st recipient chan calls) = replicate (length calls) None
    ∧ rateLimitStore (snd (send_all st recipient chan calls)) !! rate_key recipient chan
      = Some {| count := count rl + Z.of_nat (length calls); resetAt := resetAt rl |}.
Proof.
  induction calls as [|c calls IH]; intros st recipient chan rl Hrl Hlate.
  - simpl. split; [done|]. rewrite Hrl. destruct rl. simpl. f_equal. f_equal. lia.
  - apply Forall_cons in Hlate as [Hc Hlate]. simpl in *.
    assert (rate_limited st recipient chan (call_now c) = false) as Hfree.
    { unfold rate_limited. fold (rate_key recipient chan). rewrite Hrl.
      destruct (Z.ltb_spec (call_now c) (resetAt rl)); [lia|]. done. }
    destruct (send_pass st recipient chan c Hfree) as [[n Hn] Hentry].
    rewrite Hrl in Hentry.
    destruct (send st recipient chan c) as [res st1]. simpl in *. subst res.
    destruct (IH st1 recipient chan _ Hentry) as [Hres Hentry']; [done|].
    destruct (send_all st1 recipient chan calls) as [ress st2]. simpl in *.
    split; [by rewrite Hres|]. rewrite Hentry'. f_equal. f_equal. lia.
Qed.

Lemma send_all_blocked (calls : list Call) :
  ∀ (st : State) (recipient : string) (chan : NotificationChannel) (rl : RateLimit),
    rateLimitStore st !! rate_key recipient chan = Some rl →
    (10 ≤ count rl)%Z →
    Forall (λ c, (call_now c < resetAt rl)%Z) calls →
    send_all st recipient chan calls
    = (replicate (length calls) (Some "Rate limited"), st).
Proof.
  induction calls as [|c calls IH]; intros st recipient chan rl Hrl Hcount Hearly;
    [done|].
  apply Forall_cons in Hearly as [Hc Hearly]. simpl.
  assert (rate_limited st recipient chan (call_now c) = true) as Hlimited.
  { unfold rate_limited. fold (rate_key recipient chan). rewrite Hrl.
    apply andb_true_iff. split; [by apply Z.ltb_lt | by apply Z.leb_le]. }
  unfold send at 1.
  rewrite (sendNotification_limited config st recipient chan _ _ _ _ _ _ Hlimited).
  by rewrite (IH st recipient chan rl).
Qed.

End WithCrypto.

(** X15.  The rate limit is a single window that is never renewed.  For a
    recipient and channel without entry, the first send opens a window of 60
    seconds; it and the next nine sends pass, whenever they come; after these
    ten, every send before the end of the window throws 'Rate limited' and
    changes nothing; and from the end of the window on every send passes
    again, without limit: the entry keeps its [resetAt] and only counts. *)
Theorem rate_limit_window_is_never_renewed :
  ∀ (crypto : NodeCrypto) (config : Config) (st : State) (recipient : string)
    (chan : NotificationChannel) (first : Call) (burst blocked late : list Call),
    rateLimitStore st !! rate_key recipient chan = None →
    length burst = 9 →
    Forall (λ c, (call_now c < call_now first + 60000)%Z) blocked →
    Forall (λ c, (call_now first + 60000 ≤ call_now c)%Z) late →
    let r := send_all config st recipient chan (first :: burst ++ blocked ++ late) in
    fst r = replicate 10 None ++ replicate (length blocked) (Some "Rate limited")
            ++ replicate (length late) None
    ∧ rateLimitStore (snd r) !! rate_key recipient chan
      = Some {| count := 10 + Z.of_nat (length late);
                resetAt := (call_now first + 60000)%Z |}.
Proof.
  intros crypto config st recipient chan first burst blocked late Hnone Hburst Hblocked
    Hlate r. subst r. cbn [send_all].
  assert (rate_limited st recipient chan (call_now first) = false) as Hfree.
  { unfold rate_limited. fold (rate_key recipient chan). by rewrite Hnone. }
  destruct (send_pass config st recipient chan first Hfree) as [[n Hn] Hentry].
  rewrite Hnone in Hentry.
  destruct (send config st recipient chan first) as [res st1]. simpl in Hn, Hentry.
  subst res. rewrite send_all_app.
  destruct (send_all_counted config burst st1 recipient chan _ Hentry) as [Hres1 Hentry1];
    [simpl; lia|].
  destruct (send_all config st1 recipient chan burst) as [r1 st2]. simpl in Hres1, Hentry1.
  rewrite send_all_app.
  rewrite (send_all_blocked config blocked st2 recipient chan _ Hentry1);
    [|simpl; lia|done].
  destruct (send_all_late config late st2 recipient chan _ Hentry1) as [Hres3 Hentry3];
    [done|].
  destruct (send_all config st2 recipient chan late) as [r3 st3]. simpl in *.
  split.
  - rewrite Hres1, Hres3, Hburst. reflexivity.
  - rewrite Hentry3. f_equal. f_equal. lia.
Qed.

Definition sms_call (fresh : string) (now : Z) : Call :=
  {| call_template := "tpl-1"; call_content := "hello"; call_priority := None;
     call_fresh := fresh; call_iv := stub_iv; call_now := now |}.

Lemma rate_limit_window_is_never_renewed_witness :
  fst (@send_all stub_crypto stub_config initial "U1" sms
         (sms_call "n-0" 0
          :: [sms_call "n-1" 1; sms_call "n-2" 2; sms_call "n-3" 3; sms_call "n-4" 4;
              sms_call "n-5" 5; sms_call "n-6" 6; sms_call "n-7" 7; sms_call "n-8" 8;
              sms_call "n-9" 9]
             ++ [sms_call "n-10" 10; sms_call "n-11" 59999]
             ++ [sms_call "n-12" 60000; sms_call "n-13" 60001]))
  = replicate 10 None ++ [Some "Rate limited"; Some "Rate limited"] ++ [None; None].
Proof.
  apply (rate_limit_window_is_never_renewed stub_crypto stub_config initial "U1" sms
           (sms_call "n-0" 0)).
  - reflexivity.
  - reflexivity.
  - repeat (apply Forall_cons; split; [simpl; lia|]). apply Forall_nil_2.
  - repeat (apply Forall_cons; split; [simpl; lia|]). apply Forall_nil_2.
Defined.

End RateLimitFacts.

(** ** Express guards behind [authMiddleware] *)

Module GuardFacts.
Import AccessControl AuthMiddleware AccessControlFacts.

Lemma bearer_token (token : string) :
  truthy ("Bearer " +:+ token) = true
  ∧ String.prefix "Bearer " ("Bearer " +:+ token) = true
  ∧ String.substring 7 (String.length ("Bearer " +:+ token) - 7) ("Bearer " +:+ token)
    = token.
Proof.
  split; [done|]. split.
  - vm_compute. by destruct token.
  - change (String.length ("Bearer " +:+ token) - 7) with (String.length token - 0).
    rewrite Nat.sub_0_r.
    change (String.substring 7 (String.length token) ("Bearer " +:+ token))
      with (String.substring 0 (String.length token) token).
    apply substring_all.
Qed.

Lemma includes_decide (x : string) (l : list string) :
  includes x l = bool_decide (x ∈ l).
Proof.
  destruct (includes x l) eqn:Hin.
  - symmetry. apply bool_decide_eq_true. by apply includes_true.
  - symmetry. apply bool_decide_eq_false. by apply includes_false.
Qed.

(** X16.  The guards behind [authMiddleware].  A request with a Bearer
    token that [jwt.verify] accepts goes on with the user of the token and
    the grant list of its role; [requireAuth] lets it pass, [requireRole]
    exactly when the role is listed, and [requirePermission p] exactly when
    [p] is literally in the grant list, which for every role but admin and
    system is exactly when [hasPermission] grants [p].  A Bearer token that
    [jwt.verify] refuses ends the request with 401 INVALID_TOKEN.  A request
    without Bearer header goes on without user, and is then answered 401 by
    [requireAuth] and 403 by [requireRole] and [requirePermission].  In all
    cases that go on, the request id is the x-request-id header, or a new id
    when there is none. *)
Theorem guards_behind_authMiddleware :
  ∀ (jwt_verify : string → option JWTPayload) (fresh : string) (req : Request),
    (∀ (token : string) (decoded : JWTPayload) (p : string) (rs : list UserRole),
       authorization req = Some ("Bearer " +:+ token) →
       jwt_verify token = Some decoded →
       let req' :=
         {| x_request_id := x_request_id req; authorization := authorization req;
            requestId := default fresh (x_request_id req);
            user := Some {| id := userId decoded; role := jwt_role decoded;
                            permissions := getUserPermissions (jwt_role decoded) |} |} in
       authMiddleware jwt_verify fresh req = Next req'
       ∧ requireAuth req' = Next req'
       ∧ requireRole rs req'
         = (if bool_decide (jwt_role decoded ∈ rs) then Next req'
            else Respond 403 "FORBIDDEN" "Insufficient permissions")
       ∧ requirePermission p req'
         = (if bool_decide (p ∈ getUserPermissions (jwt_role decoded)) then Next req'
            else Respond 403 "FORBIDDEN" "Permission denied")
       ∧ (jwt_role decoded ≠ admin → jwt_role decoded ≠ system →
          (requirePermission p req' = Next req'
           ↔ hasPermission (jwt_role decoded) p = true)))
    ∧ (∀ token : string,
         authorization req = Some ("Bearer " +:+ token) →
         jwt_verify token = None →
         authMiddleware jwt_verify fresh req
         = Respond 401 "INVALID_TOKEN" "Invalid or expired token")
    ∧ (∀ (p : string) (rs : list UserRole),
         (∀ header, authorization req = Some header →
                    String.prefix "Bearer " header = false) →
         user req = None →
         let req' :=
           {| x_request_id := x_request_id req; authorization := authorization req;
              requestId := default fresh (x_request_id req); user := None |} in
         authMiddleware jwt_verify fresh req = Next req'
         ∧ requireAuth req' = Respond 401 "UNAUTHORIZED" "Authentication required"
         ∧ requireRole rs req' = Respond 403 "FORBIDDEN" "Insufficient permissions"
         ∧ requirePermission p req' = Respond 403 "FORBIDDEN" "Permission denied").
Proof.
  intros jwt_verify fresh req. split; [|split].
  - intros token decoded p rs Hauth Hjwt req'.
    destruct (bearer_token token) as (Htruthy & Hprefix & Htoken).
    assert (authMiddleware jwt_verify fresh req = Next req') as Hnext.
    { unfold authMiddleware. cbn [authorization]. rewrite Hauth, Htruthy, Hprefix.
      cbn [negb orb]. rewrite Htoken, Hjwt. subst req'. simpl. by rewrite Hauth. }
    split; [exact Hnext|]. split; [done|]. split; [done|]. split.
    { unfold requirePermission. cbn [user req' permissions]. by rewrite includes_decide. }
    intros Hadmin Hsystem.
    unfold requirePermission, hasPermission. cbn [user req' permissions].
    assert (includes "*" (getUserPermissions (jwt_role decoded)) = false) as ->.
    { destruct (jwt_role decoded); try done; vm_compute; reflexivity. }
    cbn [orb]. destruct (includes p (getUserPermissions (jwt_role decoded))); by split.
  - intros token Hauth Hjwt.
    destruct (bearer_token token) as (Htruthy & Hprefix & Htoken).
    unfold authMiddleware. cbn [authorization]. rewrite Hauth, Htruthy, Hprefix.
    cbn [negb orb]. by rewrite Htoken, Hjwt.
  - intros p rs Hheader Huser req'.
    assert (authMiddleware jwt_verify fresh req = Next req') as Hnext.
    { unfold authMiddleware. cbn [authorization]. subst req'. rewrite Huser.
      destruct (authorization req) as [header|] eqn:Hauth; [|done].
      rewrite (Hheader header) by done. cbn [negb]. by rewrite orb_true_r. }
    by split.
Qed.

Definition driver_jwt (token : string) : option JWTPayload :=
  if String.eqb token "tok"
  then Some {| userId := "u-2"; jwt_role := driver; exp := 0 |}
  else None.

Lemma guards_behind_authMiddleware_witness :
  let req' :=
    {| x_request_id := None; authorization := Some "Bearer tok"; requestId := "req-1";
       user := Some {| id := "u-2"; role := driver;
                       permissions := getUserPermissions driver |} |} in
  authMiddleware driver_jwt "req-1" admin_request = Next req'
  ∧ requirePermission "write:emergency" req' = Next req'
  ∧ requirePermission "read:audit" req' = Respond 403 "FORBIDDEN" "Permission denied"
  ∧ authMiddleware driver_jwt "req-2"
      {| x_request_id := Some "abc"; authorization := Some "Basic dG9r"; requestId := "";
         user := None |}
    = Next {| x_request_id := Some "abc"; authorization := Some "Basic dG9r";
              requestId := "abc"; user := None |}.
Proof.
  intros req'.
  destruct (proj1 (guards_behind_authMiddleware driver_jwt "req-1" admin_request)
              "tok" {| userId := "u-2"; jwt_role := driver; exp := 0 |}
              "write:emergency" [] eq_refl eq_refl) as (Hnext & _ & _ & Hwrite & _).
  destruct (proj1 (guards_behind_authMiddleware driver_jwt "req-1" admin_request)
              "tok" {| userId := "u-2"; jwt_role := driver; exp := 0 |}
              "read:audit" [] eq_refl eq_refl) as (_ & _ & _ & Hread & _).
  destruct (proj2 (proj2 (guards_behind_authMiddleware driver_jwt "req-2"
                            {| x_request_id := Some "abc";
                               authorization := Some "Basic dG9r"; requestId := "";
                               user := None |}))
              "read:audit" []) as (Hanon & _).
  - intros header [= <-]. reflexivity.
  - reflexivity.
  - split; [exact Hnext|]. split; [exact Hwrite|]. split; [exact Hread | exact Hanon].
Defined.

End GuardFacts.

(** ** Delivery codes (delivery-codes/generator.ts) *)

Module CodeGenerator.
Import Encoding.

Inductive Theme := safari | coastal | mountain | tech.

(** The record literal [THEMES]. *)
Definition THEMES (t : Theme) : list string :=
  match t with
  | safari => ["LION"; "ZEBRA"; "RHINO"; "LEOPARD"; "BUFFALO"; "ACACIA"; "SAVANNA"]
  | coastal => ["OCEAN"; "WAVE"; "CORAL"; "PALM"; "DNOW"; "REEF"; "SAND"]
  | mountain => ["PEAK"; "RIDGE"; "CLIFF"; "ICE"; "SNOW"; "SUMMIT"; "ALPINE"]
  | tech => ["CYBER"; "NANO"; "QUANTUM"; "DATA"; "SYNC"; "GRID"; "LINK"]
  end.

Record DeliveryCode := {
  id : UUID;
  deliveryId : UUID;
  code : string;
  theme : Theme;
  expiresAt : Time;
  usedAt : option Time;
  generatedBy : UUID;
  createdAt : Time
}.

Definition hex_value (c : ascii) : option N :=
  let n := N_of_ascii c in
  if ((48 <=? n) && (n <=? 57))%N then Some (n - 48)%N
  else if ((97 <=? n) && (n <=? 102))%N then Some (n - 87)%N
  else if ((65 <=? n) && (n <=? 70))%N then Some (n - 55)%N
  else None.

(** [parseInt(s, 16)] on a string without leading white space, sign or
    "0x": the value of the longest prefix of hexadecimal digits, and [None]
    for NaN when there is no such digit. *)
Fixpoint parse_hex (acc : option N) (s : string) : option N :=
  match s with
  | EmptyString => acc
  | String c s' =>
      match hex_value c with
      | Some d => parse_hex (Some (16 * default 0 acc + d)%N) s'
      | None => acc
      end
  end.

Definition parseInt16 (s : string) : option N := parse_hex None s.

(** [s.substring(a, b)] for [a ≤ b]. *)
Definition substring (a b : nat) (s : string) : string := String.substring a (b - a) s.

(** [wordList[idx % wordList.length]] inside a template: an index that is
    NaN gives the text "undefined". *)
Definition word_at (wordList : list string) (idx : option N) : string :=
  match idx with
  | Some i => default "undefined" (wordList !! N.to_nat (i mod N.of_nat (length wordList)))
  | None => "undefined"
  end.

Section WithCrypto.
Context `{NodeCrypto}.
Variable config : Config.

(** [theme_] is the optional argument, with default 'safari'. *)
Definition generateDeliveryCode (deliveryId_ userId : UUID) (theme_ : option Theme)
    (fresh : UUID) (now : Time) : DeliveryCode :=
  let theme_ := default safari theme_ in
  let hash := Hashing.hmacSha256 (deliveryId_ +:+ ":" +:+ userId) (hmacSecret config) in
  let wordList := THEMES theme_ in
  let idx1 := parseInt16 (substring 0 2 hash) in
  let idx2 := parseInt16 (substring 2 4 hash) in
  let suffix := toUpperCase (substring 4 6 hash) in
  let code_ := word_at wordList idx1 +:+ "-" +:+ word_at wordList idx2 +:+ "-" +:+ suffix in
  {| id := fresh; deliveryId := deliveryId_; code := code_; theme := theme_;
     expiresAt := (now + 24 * 60 * 60 * 1000)%Z; usedAt := None;
     generatedBy := userId; createdAt := now |}.
End WithCrypto.

End CodeGenerator.

Module CodeGeneratorFacts.
Import Encoding CodeGenerator.

Lemma parseInt16_hex (b : Byte.byte) : parseInt16 (hex [b]) = Some (Byte.to_N b).
Proof. destruct b; vm_compute; reflexivity. Qed.

Lemma substring_hex (b0 b1 b2 : Byte.byte) (rest : list Byte.byte) :
  substring 0 2 (hex (b0 :: b1 :: b2 :: rest)) = hex [b0]
  ∧ substring 2 4 (hex (b0 :: b1 :: b2 :: rest)) = hex [b1]
  ∧ substring 4 6 (hex (b0 :: b1 :: b2 :: rest)) = hex [b2].
Proof.
  unfold substring. cbn [hex Nat.sub String.substring].
  split; [done|]. split; [done|]. by destruct (hex rest).
Qed.

Lemma word_at_theme (t : Theme) (i : N) :
  ∃ w, THEMES t !! N.to_nat (i mod 7) = Some w ∧ word_at (THEMES t) (Some i) = w.
Proof.
  assert (N.to_nat (i mod 7) < 7) as Hlt.
  { pose proof (N.mod_upper_bound i 7). lia. }
  assert (length (THEMES t) = 7) as Hlen by by destruct t.
  unfold word_at. rewrite Hlen. change (N.of_nat 7) with 7%N.
  destruct (lookup_lt_is_Some_2 (THEMES t) (N.to_nat (i mod 7))) as [w Hw]; [lia|].
  exists w. by rewrite Hw.
Qed.

(** X17.  The delivery code is made of the first three bytes of the HMAC
    of "deliveryId:userId" alone: the word of the theme at the first byte
    modulo 7, the word at the second byte modulo 7 and the third byte as two
    upper-case hexadecimal digits, joined by '-'.  Both words are from the
    list of the theme (safari when none is given); the code does not depend
    on the id or the clock of the call, and it expires 24 hours after its
    creation. *)
Theorem delivery_code_from_three_bytes :
  ∀ (crypto : NodeCrypto) (config : Config) (d u : string) (t : option Theme)
    (fresh : string) (now : Z) (b0 b1 b2 : Byte.byte) (rest : list Byte.byte),
    hmac_sha256_digest (hmacSecret config) (d +:+ ":" +:+ u) = b0 :: b1 :: b2 :: rest →
    let c := generateDeliveryCode config d u t fresh now in
    let words := THEMES (default safari t) in
    ∃ w1 w2,
      words !! N.to_nat (Byte.to_N b0 mod 7) = Some w1
      ∧ words !! N.to_nat (Byte.to_N b1 mod 7) = Some w2
      ∧ code c = w1 +:+ "-" +:+ w2 +:+ "-" +:+ toUpperCase (hex [b2])
      ∧ String.length (toUpperCase (hex [b2])) = 2
      ∧ theme c = default safari t
      ∧ expiresAt c = (createdAt c + 86400000)%Z
      ∧ usedAt c = None ∧ generatedBy c = u
      ∧ ∀ fresh' now', code (generateDeliveryCode config d u t fresh' now') = code c.
Proof.
  intros crypto config d u t fresh now b0 b1 b2 rest Hdigest c words.
  destruct (word_at_theme (default safari t) (Byte.to_N b0)) as (w1 & Hw1 & Hat1).
  destruct (word_at_theme (default safari t) (Byte.to_N b1)) as (w2 & Hw2 & Hat2).
  exists w1, w2. split; [exact Hw1|]. split; [exact Hw2|].
  assert (code c = w1 +:+ "-" +:+ w2 +:+ "-" +:+ toUpperCase (hex [b2])) as Hcode.
  { subst c. unfold generateDeliveryCode, Hashing.hmacSha256. cbn [code].
    rewrite Hdigest.
    destruct (substring_hex b0 b1 b2 rest) as (-> & -> & ->).
    by rewrite !parseInt16_hex, Hat1, Hat2. }
  split; [exact Hcode|]. split; [reflexivity|]. split; [reflexivity|].
  split; [subst c; simpl; lia|]. split; [reflexivity|]. split; [reflexivity|].
  intros fresh' now'. rewrite Hcode. clear Hcode.
  unfold generateDeliveryCode, Hashing.hmacSha256. cbn [code]. rewrite Hdigest.
  destruct (substring_hex b0 b1 b2 rest) as (-> & -> & ->).
  by rewrite !parseInt16_hex, Hat1, Hat2.
Qed.

Lemma delivery_code_from_three_bytes_witness :
  code (@generateDeliveryCode stub_crypto stub_config "D1" "U1" None "c-1" 1000)
  = "RHINO-LEOPARD-6D"
  ∧ code (@generateDeliveryCode stub_crypto stub_config "D1" "U1" None "c-2" 2000)
    = code (@generateDeliveryCode stub_crypto stub_config "D1" "U1" None "c-1" 1000).
Proof.
  destruct (delivery_code_from_three_bytes stub_crypto stub_config "D1" "U1" None "c-1"
              1000%Z Byte.x6b Byte.x2d Byte.x6d (String.list_byte_of_string "ac/D1:U1")
              eq_refl)
    as (w1 & w2 & Hw1 & Hw2 & Hcode & _ & _ & _ & _ & _ & Hsame).
  split; [|apply Hsame].
  rewrite Hcode. injection Hw1 as <-. injection Hw2 as <-. reflexivity.
Defined.

End CodeGeneratorFacts.

(** ** Location obfuscation (location-obfuscation/obfuscator.ts) *)

(** The functions of [h3-js] that the source calls. *)
Class H3 := {
  latLngToCell : number → number → Z → string;
  areNeighborCells : string → string → bool;
  cellToLatLng : string → number * number
}.

Module Obfuscator.
Import CargoMonitor.

Definition MIN_RESOLUTION : Z := 7.
Definition MAX_RESOLUTION : Z := 9.

Section WithH3.
Context `{H3}.

(** [resolution] is the optional argument, an integer as the route admits
    it, with default 8; [now] is the clock. *)
Definition obfuscateLocation (coords : RawCoordinates) (resolution : option Z)
    (now : Time) : ObfuscatedLocation :=
  let res := Z.max MIN_RESOLUTION (Z.min (default 8%Z resolution) MAX_RESOLUTION) in
  {| zoneId := latLngToCell (latitude coords) (longitude coords) res;
     approximateTime := now;
     movementState := unknown;
     loc_resolution := inject_Z res;
     zoneDescription := Some ("Zone level " +:+ JsArray.show res) |}.

Definition areZonesAdjacent (zoneA zoneB : string) : bool := areNeighborCells zoneA zoneB.

Definition getZoneCenter (zone : string) : RawCoordinates :=
  let '(lat, lng) := cellToLatLng zone in {| latitude := lat; longitude := lng |}.
End WithH3.

End Obfuscator.

Module ObfuscatorFacts.
Import CargoMonitor Obfuscator MonitorFacts.

(** X18.  [obfuscateLocation] never leaves the resolutions 7 to 9: the
    zone is the H3 cell of the coordinates at the requested resolution when
    that is 7, 8 or 9, at 7 when it is lower, at 9 when it is higher and at 8
    when none is requested, with the matching description.  The movement
    state is always 'unknown', so that the security monitor files such a
    location as not moving. *)
Theorem obfuscated_resolution_is_clamped :
  ∀ (h3 : H3) (coords : RawCoordinates) (resolution : option Z) (now : Z),
    let loc := obfuscateLocation coords resolution now in
    ∃ res : Z,
      (res = 7 ∨ res = 8 ∨ res = 9)%Z
      ∧ loc_resolution loc = inject_Z res
      ∧ zoneId loc = latLngToCell (latitude coords) (longitude coords) res
      ∧ zoneDescription loc = Some ("Zone level " +:+ JsArray.show res)
      ∧ (resolution = None → res = 8%Z)
      ∧ (∀ r, resolution = Some r → (7 ≤ r ≤ 9)%Z → res = r)
      ∧ (∀ r, resolution = Some r → (r < 7)%Z → res = 7%Z)
      ∧ (∀ r, resolution = Some r → (9 < r)%Z → res = 9%Z)
      ∧ movementState loc = unknown
      ∧ isMoving (entry_of loc) = false.
Proof.
  intros h3 coords resolution now loc.
  exists (Z.max MIN_RESOLUTION (Z.min (default 8%Z resolution) MAX_RESOLUTION)).
  unfold MIN_RESOLUTION, MAX_RESOLUTION.
  split; [lia|]. split; [done|]. split; [done|]. split; [done|].
  split; [intros ->; simpl; lia|].
  split; [intros r -> Hr; simpl; lia|].
  split; [intros r -> Hr; simpl; lia|].
  split; [intros r -> Hr; simpl; lia|].
  split; reflexivity.
Qed.

Definition stub_h3 : H3 :=
  {| latLngToCell lat lng res := "cell-" +:+ JsArray.show res;
     areNeighborCells a b := false;
     cellToLatLng zone := (0%Q, 0%Q) |}.

Lemma obfuscated_resolution_is_clamped_witness :
  let loc := @obfuscateLocation stub_h3 EmergencyFacts.nairobi (Some 12%Z) 1000 in
  loc_resolution loc = 9%Q ∧ zoneId loc = "cell-9"
  ∧ zoneDescription loc = Some "Zone level 9".
Proof.
  intros loc.
  destruct (obfuscated_resolution_is_clamped stub_h3 EmergencyFacts.nairobi
              (Some 12%Z) 1000%Z)
    as (res & _ & Hres & Hzone & Hdescr & _ & _ & _ & Hhigh & _).
  assert (res = 9%Z) as Hnine by (apply (Hhigh 12%Z); [reflexivity | lia]).
  rewrite Hnine in Hres, Hzone, Hdescr.
  split; [exact Hres|]. split; [exact Hzone | exact Hdescr].
Defined.

End ObfuscatorFacts.

